(** * Relay transport and encrypted material store: a shallow embedding

    The development follows the repository's packages:

    - [Wire]       packages/shared/src/envelope.ts and the zod schemas of
                   packages/relay-server/src/index.ts;
    - [Relay]      packages/relay-server/src/index.ts (SQLite tables, the
                   connection map, the HTTP and WebSocket handlers);
    - [Crypto]     packages/signal-core/src/crypto.ts;
    - [Store]      packages/signal-core/src/store.ts;
    - [SignalCore] packages/signal-core/src/index.ts.

    What Node, SQLite, the [ws] package and libsignal provide is taken
    through interfaces (type classes with their laws); a reference
    instance of each interface is given at the end of its module. *)

From stdpp Require Import gmap strings list pretty sorting.
From Stdlib Require Import ZArith Ascii.
From Stdlib.Strings Require Import Byte.

Local Open Scope Z_scope.

(** ** JSON text of typed records

    [JSON.stringify] followed by [JSON.parse] gives back a record whose
    fields are strings and integers; the text itself is the engine's. *)
Class Json (A : Type) := {
  JSON_stringify : A → string;
  JSON_parse : string → option A;
  JSON_roundtrip : ∀ a, JSON_parse (JSON_stringify a) = Some a
}.

(** A codec for any countable type, used for the reference instances:
    the text is the binary numeral of the code of the value. *)
Fixpoint pos_to_text (p : positive) : string :=
  match p with
  | xH => EmptyString
  | xO q => String "0"%char (pos_to_text q)
  | xI q => String "1"%char (pos_to_text q)
  end.

Fixpoint text_to_pos (s : string) : positive :=
  match s with
  | EmptyString => xH
  | String c r => if decide (c = "1"%char) then xI (text_to_pos r) else xO (text_to_pos r)
  end.

Lemma text_to_pos_to_text p : text_to_pos (pos_to_text p) = p.
Proof. induction p as [q IH|q IH|]; simpl; by rewrite ?IH. Qed.

Program Definition countable_json `{Countable A} : Json A := {|
  JSON_stringify a := pos_to_text (encode a);
  JSON_parse s := decode (text_to_pos s)
|}.
Next Obligation. intros A ?? a. simpl. by rewrite text_to_pos_to_text, decode_encode. Qed.

(** ** Wire records *)
Module Wire.

(** packages/shared/src/envelope.ts, [EnvelopeSchema]. *)
Record Envelope := mkEnvelope {
  version : Z;
  senderId : string;
  recipientId : string;
  sessionId : string;
  type : Z;
  body : string;
  timestamp : Z
}.

Definition min1 (s : string) : bool := bool_decide (s ≠ EmptyString).

(** [EnvelopeSchema.parse] accepts exactly these envelopes. *)
Definition EnvelopeSchema (e : Envelope) : bool :=
  (0 <? version e) && min1 (senderId e) && min1 (recipientId e) &&
  min1 (sessionId e) && (0 <=? type e) && min1 (body e) && (0 <? timestamp e).

Record SignedPreKeyPart := mkSignedPreKeyPart {
  spk_keyId : Z; spk_publicKey : string; spk_signature : string
}.

Record PreKeyPart := mkPreKeyPart { pk_keyId : Z; pk_publicKey : string }.

Record KyberPreKeyPart := mkKyberPreKeyPart {
  kpk_keyId : Z; kpk_publicKey : string; kpk_signature : string
}.

(** relay-server/src/index.ts, [BundleSchema] (signal-core's [Bundle] has
    the same shape). *)
Record Bundle := mkBundle {
  id : string;
  deviceId : Z;
  registrationId : Z;
  identityKey : string;
  signedPreKey : SignedPreKeyPart;
  preKey : PreKeyPart;
  kyberPreKey : KyberPreKeyPart
}.

Definition BundleSchema (b : Bundle) : bool :=
  min1 (id b) && (0 <? deviceId b) && (0 <? registrationId b) && min1 (identityKey b) &&
  (0 <=? spk_keyId (signedPreKey b)) && min1 (spk_publicKey (signedPreKey b)) &&
  min1 (spk_signature (signedPreKey b)) &&
  (0 <=? pk_keyId (preKey b)) && min1 (pk_publicKey (preKey b)) &&
  (0 <=? kpk_keyId (kyberPreKey b)) && min1 (kpk_publicKey (kyberPreKey b)) &&
  min1 (kpk_signature (kyberPreKey b)).

Global Instance Envelope_eq_dec : EqDecision Envelope.
Proof. solve_decision. Defined.
Global Instance SignedPreKeyPart_eq_dec : EqDecision SignedPreKeyPart.
Proof. solve_decision. Defined.
Global Instance PreKeyPart_eq_dec : EqDecision PreKeyPart.
Proof. solve_decision. Defined.
Global Instance KyberPreKeyPart_eq_dec : EqDecision KyberPreKeyPart.
Proof. solve_decision. Defined.
Global Instance Bundle_eq_dec : EqDecision Bundle.
Proof. solve_decision. Defined.

Global Instance Envelope_countable : Countable Envelope.
Proof.
  refine (inj_countable'
    (λ e, (version e, senderId e, recipientId e, sessionId e, type e, body e, timestamp e))
    (λ t, let '(a, b, c, d, e, f, g) := t in mkEnvelope a b c d e f g) _).
  by intros [].
Defined.

Global Instance Bundle_countable : Countable Bundle.
Proof.
  refine (inj_countable'
    (λ b, (id b, deviceId b, registrationId b, identityKey b,
           (spk_keyId (signedPreKey b), spk_publicKey (signedPreKey b), spk_signature (signedPreKey b)),
           (pk_keyId (preKey b), pk_publicKey (preKey b)),
           (kpk_keyId (kyberPreKey b), kpk_publicKey (kyberPreKey b), kpk_signature (kyberPreKey b))))
    (λ t, let '(a, b, c, d, (s1, s2, s3), (p1, p2), (k1, k2, k3)) := t in
          mkBundle a b c d (mkSignedPreKeyPart s1 s2 s3) (mkPreKeyPart p1 p2)
                   (mkKyberPreKeyPart k1 k2 k3)) _).
  by intros [? ? ? ? [] [] []].
Defined.

End Wire.

(** ** The relay server (packages/relay-server/src/index.ts) *)
Module Relay.
Import Wire.

(** [type MessageRow]: what [stmtMsgPending] selects. *)
Record MessageRow := mkMessageRow {
  row_id : string;          (* id *)
  to_id : string;
  from_id : string;
  envelope_json : string;
  created_at : Z
}.

(** A record of table [messages]: the row and its [delivered] column. *)
Record StoredMessage := mkStored { stored_row : MessageRow; delivered : bool }.

(** What [buildMessagePayload] returns and [sendWsMessage] sends. *)
Record Payload := mkPayload { p_from : string; p_to : string; p_envelope : Envelope }.

(** [ws.readyState] of the [ws] package. *)
Inductive ReadyState := CONNECTING | OPEN | CLOSING | CLOSED.

(** A [WebSocket] object of the [ws] package, as far as the relay uses it.
    [boundTo] is the [clientId] under which the relay installed the socket
    in [connections] (the value captured by its close and error listeners);
    [closeCall] keeps the arguments of the relay's [close(code, reason)];
    [sent] lists the payloads whose [send] completed without error. *)
Record WebSocket := mkWebSocket {
  readyState : ReadyState;
  boundTo : option string;
  closeCall : option (Z * string);
  sent : list Payload
}.

Global Instance ReadyState_eq_dec : EqDecision ReadyState.
Proof. solve_decision. Defined.
Global Instance MessageRow_eq_dec : EqDecision MessageRow.
Proof. solve_decision. Defined.
Global Instance Payload_eq_dec : EqDecision Payload.
Proof. solve_decision. Defined.

(** The process state of [main]: the three SQLite tables (a primary key
    makes [users] and [prekeys] maps; [messages] is kept in rowid order),
    the [connections] map, and the socket objects by identity. *)
Record State := mkState {
  users : gmap string Z;                 (* id ↦ created_at *)
  prekeys : gmap string (string * Z);    (* id ↦ (bundle_json, updated_at) *)
  messages : list StoredMessage;
  connections : gmap string nat;
  sockets : list WebSocket
}.

Definition init : State := mkState ∅ ∅ [] ∅ [].

Definition set_users f st := mkState (f (users st)) (prekeys st) (messages st) (connections st) (sockets st).
Definition set_prekeys f st := mkState (users st) (f (prekeys st)) (messages st) (connections st) (sockets st).
Definition set_messages f st := mkState (users st) (prekeys st) (f (messages st)) (connections st) (sockets st).
Definition set_connections f st := mkState (users st) (prekeys st) (messages st) (f (connections st)) (sockets st).
Definition set_sockets f st := mkState (users st) (prekeys st) (messages st) (connections st) (f (sockets st)).

(** What a handler answers. *)
Inductive Response :=
| Json200_id (id : string)                          (* { id } *)
| Json200_ok                                        (* { ok: true } *)
| Json200_bundle (id : string) (bundle : Bundle)    (* { id, bundle } *)
| Json200_queued (delivered : bool)                 (* { ok: true, queued: true, delivered } *)
| Json400_invalid                                   (* ZodError *)
| Json404 (error : string)
| Json500
| Ws400 | Ws401                                     (* upgrade refused *)
| WsAccepted (ws : nat)
| NoResponse.

Section WithJson.
Context {envelope_codec : Json Envelope} {bundle_codec : Json Bundle}.

(** *** Prepared statements *)

(** [INSERT OR IGNORE INTO users]. *)
Definition stmtUserInsert (id : string) (now : Z) (st : State) : State :=
  match users st !! id with
  | Some _ => st
  | None => set_users (insert id now) st
  end.

(** [SELECT 1 FROM users WHERE id = ?]. *)
Definition stmtUserExists (id : string) (st : State) : bool :=
  bool_decide (is_Some (users st !! id)).

(** [INSERT OR REPLACE INTO prekeys]. *)
Definition stmtPrekeyUpsert (id bundle_json : string) (now : Z) (st : State) : State :=
  set_prekeys (insert id (bundle_json, now)) st.

(** [SELECT bundle_json FROM prekeys WHERE id = ?]. *)
Definition stmtPrekeyGet (id : string) (st : State) : option string :=
  fst <$> prekeys st !! id.

(** [INSERT INTO messages ... VALUES (?, ?, ?, ?, ?, 0)]; [id] is the
    primary key, so a second row with the same id is refused ([None]: the
    statement throws). *)
Definition stmtMsgInsert (row : MessageRow) (st : State) : option State :=
  if bool_decide (row_id row ∈ (row_id ∘ stored_row) <$> messages st) then None
  else Some (set_messages (λ ms, ms ++ [mkStored row false]) st).

(** [ORDER BY created_at ASC]: insertion into a list sorted by
    [created_at]. Rows with the same [created_at] stay in rowid order (SQL
    leaves their order open). *)
Fixpoint insert_by_created_at (r : MessageRow) (l : list MessageRow) : list MessageRow :=
  match l with
  | [] => [r]
  | r' :: l' =>
      if created_at r <=? created_at r' then r :: l
      else r' :: insert_by_created_at r l'
  end.

Definition order_by_created_at (l : list MessageRow) : list MessageRow :=
  foldr insert_by_created_at [] l.

Definition is_pending (toId : string) (m : StoredMessage) : bool :=
  bool_decide (to_id (stored_row m) = toId) && negb (delivered m).

(** [SELECT ... FROM messages WHERE to_id = ? AND delivered = 0 ORDER BY
    created_at ASC]. *)
Definition stmtMsgPending (toId : string) (st : State) : list MessageRow :=
  order_by_created_at (stored_row <$> filter (λ m, is_pending toId m = true) (messages st)).

(** [UPDATE messages SET delivered = 1 WHERE id = ?]. *)
Definition mark (mid : string) (m : StoredMessage) : StoredMessage :=
  if bool_decide (row_id (stored_row m) = mid) then mkStored (stored_row m) true else m.

Definition stmtMsgMarkDelivered (mid : string) (st : State) : State :=
  set_messages (fmap (mark mid)) st.

(** *** Push *)

(** [buildMessagePayload]; [None] when [JSON.parse] throws. *)
Definition buildMessagePayload (row : MessageRow) : option Payload :=
  mkPayload (from_id row) (to_id row) <$> JSON_parse (envelope_json row).

Definition is_open (ws : nat) (st : State) : bool :=
  match sockets st !! ws with
  | Some s => bool_decide (readyState s = OPEN)
  | None => false
  end.

(** [sendWsMessage]: the promise resolves ([Some]) when [ws.send] calls
    back without error, and rejects ([None]) otherwise. The [ws] package
    calls back with an error when the socket is not OPEN; on an OPEN
    socket the outcome is the transport's ([net]). *)
Definition sendWsMessage (ws : nat) (payload : Payload) (net : bool) (st : State) : option State :=
  match sockets st !! ws with
  | Some s =>
      if bool_decide (readyState s = OPEN) && net
      then Some (set_sockets
                   (λ h, <[ws := mkWebSocket (readyState s) (boundTo s) (closeCall s) (sent s ++ [payload])]> h)
                   st)
      else None
  | None => None
  end.

(** One iteration of the loops' [try] block: build the payload, await the
    send, mark the row. [None] is the [catch]. *)
Definition push_row (ws : nat) (net : bool) (row : MessageRow) (st : State) : option State :=
  payload ← buildMessagePayload row;
  st' ← sendWsMessage ws payload net st;
  Some (stmtMsgMarkDelivered (row_id row) st').

(** The [for] loop of [deliverPending], with [break] in the [catch]. *)
Fixpoint deliver_rows (ws : nat) (net : MessageRow → bool) (rows : list MessageRow) (st : State) : State :=
  match rows with
  | [] => st
  | row :: rest =>
      match push_row ws (net row) row st with
      | Some st' => deliver_rows ws net rest st'
      | None => st
      end
  end.

Definition deliverPending (toId : string) (ws : nat) (net : MessageRow → bool) (st : State) : State :=
  deliver_rows ws net (stmtMsgPending toId st) st.

Definition deliverIfConnected (row : MessageRow) (net : bool) (st : State) : State * bool :=
  match connections st !! to_id row with
  | None => (st, false)
  | Some ws =>
      if negb (is_open ws st) then (st, false)
      else match push_row ws net row st with
           | Some st' => (st', true)
           | None => (st, false)
           end
  end.

(** *** The WebSocket server *)

(** [wss.handleUpgrade] creates the socket object, OPEN, and emits
    [connection] with it in the same turn. *)
Definition accept_socket (st : State) : nat * State :=
  (length (sockets st), set_sockets (λ h, h ++ [mkWebSocket OPEN None None []]) st).

(** [ws.close(code, reason)] of the [ws] package: an OPEN socket starts
    the closing handshake (CLOSING); otherwise nothing changes. *)
Definition ws_close (ws : nat) (code : Z) (reason : string) (st : State) : State :=
  match sockets st !! ws with
  | Some s =>
      if bool_decide (readyState s = OPEN)
      then set_sockets (λ h, <[ws := mkWebSocket CLOSING (boundTo s) (Some (code, reason)) (sent s)]> h) st
      else st
  | None => st
  end.

(** [const existing = connections.get(clientId);
     if (existing && existing !== ws) existing.close(4000, "superseded")]. *)
Definition supersede (clientId : string) (ws : nat) (st : State) : State :=
  match connections st !! clientId with
  | Some existing =>
      if bool_decide (existing ≠ ws) then ws_close existing 4000 "superseded" st else st
  | None => st
  end.

(** [connections.set(clientId, ws)], and the close and error listeners of
    [ws] that capture [clientId]. *)
Definition install (clientId : string) (ws : nat) (st : State) : State :=
  set_connections (insert clientId ws)
    (set_sockets (λ h,
       match h !! ws with
       | Some s => <[ws := mkWebSocket (readyState s) (Some clientId) (closeCall s) (sent s)]> h
       | None => h
       end) st).

(** [wss.on("connection", ...)]. The replay started by
    [void deliverPending(clientId, ws)] is run to its end here. *)
Definition on_connection (clientId : string) (net : MessageRow → bool) (st : State) : State * Response :=
  let '(ws, st1) := accept_socket st in
  let st2 := supersede clientId ws st1 in
  let st3 := install clientId ws st2 in
  (deliverPending clientId ws net st3, WsAccepted ws).

(** [server.on("upgrade", ...)] for the path [/ws]. *)
Definition on_upgrade (clientId : string) (net : MessageRow → bool) (st : State) : State * Response :=
  if negb (min1 clientId) then (st, Ws400)
  else if negb (stmtUserExists clientId st) then (st, Ws401)
  else on_connection clientId net st.

(** The body shared by the close and error listeners:
    [if (connections.get(clientId) === ws) connections.delete(clientId)]. *)
Definition listener (ws : nat) (st : State) : State :=
  match sockets st !! ws ≫= boundTo with
  | Some clientId =>
      if bool_decide (connections st !! clientId = Some ws)
      then set_connections (delete clientId) st
      else st
  | None => st
  end.

Definition set_readyState (ws : nat) (f : ReadyState → ReadyState) (st : State) : State :=
  set_sockets (λ h,
    match h !! ws with
    | Some s => <[ws := mkWebSocket (f (readyState s)) (boundTo s) (closeCall s) (sent s)]> h
    | None => h
    end) st.

(** The socket reached CLOSED and [ws] emits [close]. *)
Definition socket_closed (ws : nat) (st : State) : State :=
  listener ws (set_readyState ws (λ _, CLOSED) st).

(** [ws] emits [error]; the package leaves OPEN before it does so. *)
Definition socket_error (ws : nat) (st : State) : State :=
  listener ws (set_readyState ws (λ r, if bool_decide (r = OPEN) then CLOSING else r) st).

(** *** The HTTP handlers *)

(** [POST /v1/register]. *)
Definition post_register (id : string) (now : Z) (st : State) : State * Response :=
  if negb (min1 id) then (st, Json400_invalid)
  else (stmtUserInsert id now st, Json200_id id).

(** [POST /v1/prekeys]. *)
Definition post_prekeys (id : string) (bundle : Bundle) (now : Z) (st : State) : State * Response :=
  if negb (min1 id && BundleSchema bundle) then (st, Json400_invalid)
  else if negb (stmtUserExists id st) then (st, Json404 "User not registered.")
  else (stmtPrekeyUpsert id (JSON_stringify bundle) now st, Json200_ok).

(** [GET /v1/prekeys/:id]. A stored text that does not parse makes
    [JSON.parse] throw, which the handler answers with 500. *)
Definition get_prekeys (id : string) (st : State) : State * Response :=
  match stmtPrekeyGet id st with
  | None => (st, Json404 "Prekeys not found.")
  | Some text =>
      match JSON_parse text with
      | Some bundle => (st, Json200_bundle id bundle)
      | None => (st, Json500)
      end
  end.

(** [POST /v1/messages]; [uuid] is [randomUUID()] and [now] is
    [Date.now()]. *)
Definition post_messages (from to : string) (envelope : Envelope)
    (uuid : string) (now : Z) (net : bool) (st : State) : State * Response :=
  if negb (min1 from && min1 to && EnvelopeSchema envelope) then (st, Json400_invalid)
  else if negb (stmtUserExists to st) then (st, Json404 "Recipient not registered.")
  else
    let row := mkMessageRow uuid to from (JSON_stringify envelope) now in
    match stmtMsgInsert row st with
    | None => (st, Json500)
    | Some st1 =>
        let '(st2, delivered) := deliverIfConnected row net st1 in
        (st2, Json200_queued delivered)
    end.

(** *** Runs of the server *)

(** What reaches the process, with what the environment decides: the
    clock reading, the random id, and whether a send gets through. *)
Inductive Event :=
| Register (id : string) (now : Z)
| PublishBundle (id : string) (bundle : Bundle) (now : Z)
| FetchBundle (id : string)
| Submit (from to : string) (envelope : Envelope) (uuid : string) (now : Z) (net : bool)
| Connect (clientId : string) (net : MessageRow → bool)
| SocketClosed (ws : nat)
| SocketError (ws : nat).

Definition handle (ev : Event) (st : State) : State * Response :=
  match ev with
  | Register id now => post_register id now st
  | PublishBundle id bundle now => post_prekeys id bundle now st
  | FetchBundle id => get_prekeys id st
  | Submit from to envelope uuid now net => post_messages from to envelope uuid now net st
  | Connect clientId net => on_upgrade clientId net st
  | SocketClosed ws => (socket_closed ws st, NoResponse)
  | SocketError ws => (socket_error ws st, NoResponse)
  end.

Definition run (evs : list Event) (st : State) : State :=
  foldl (λ s ev, fst (handle ev s)) st evs.

(** A socket is a live connection of [id] when it is OPEN and the relay
    installed it for [id]. *)
Definition live (st : State) (id : string) (ws : nat) : Prop :=
  ∃ s, sockets st !! ws = Some s ∧ readyState s = OPEN ∧ boundTo s = Some id.

Definition at_most_one_live (st : State) : Prop :=
  ∀ id ws1 ws2, live st id ws1 → live st id ws2 → ws1 = ws2.

Definition live_is_current (st : State) : Prop :=
  ∀ id ws, live st id ws → connections st !! id = Some ws.

(** *** Sockets and the connection map along the handlers *)

Lemma live_is_current_at_most_one st : live_is_current st → at_most_one_live st.
Proof. intros H id ws1 ws2 H1%H H2%H. congruence. Qed.

Lemma live_is_current_weaken st st' :
  live_is_current st →
  connections st' = connections st →
  (∀ id ws, live st' id ws → live st id ws) →
  live_is_current st'.
Proof. intros H Hc Hl id ws Hlive. rewrite Hc. by apply H, Hl. Qed.

Lemma live_insert_sent st ws s p id ws' :
  sockets st !! ws = Some s →
  live (set_sockets (λ h, <[ws := mkWebSocket (readyState s) (boundTo s) (closeCall s) (sent s ++ [p])]> h) st) id ws' →
  live st id ws'.
Proof.
  intros Hs (s' & Hlook & Hopen & Hbound). simpl in Hlook.
  destruct (decide (ws = ws')) as [->|Hne].
  - rewrite list_lookup_insert_eq in Hlook by (by eapply lookup_lt_Some).
    simplify_eq/=. by exists s.
  - rewrite list_lookup_insert_ne in Hlook by done. by exists s'.
Qed.

Lemma sendWsMessage_connections ws p net st st' :
  sendWsMessage ws p net st = Some st' → connections st' = connections st.
Proof. unfold sendWsMessage. intros; repeat case_match; by simplify_eq/=. Qed.

Lemma sendWsMessage_live ws p net st st' id ws' :
  sendWsMessage ws p net st = Some st' → live st' id ws' → live st id ws'.
Proof.
  unfold sendWsMessage. intros Heq Hl. repeat case_match; simplify_eq/=.
  by eapply live_insert_sent.
Qed.

Lemma push_row_connections ws net row st st' :
  push_row ws net row st = Some st' → connections st' = connections st.
Proof.
  unfold push_row. intros Heq.
  destruct (buildMessagePayload row) as [p|]; simplify_eq/=.
  destruct (sendWsMessage ws p net st) as [st1|] eqn:Hsend; simplify_eq/=.
  by eapply sendWsMessage_connections.
Qed.

Lemma push_row_live ws net row st st' id ws' :
  push_row ws net row st = Some st' → live st' id ws' → live st id ws'.
Proof.
  unfold push_row. intros Heq.
  destruct (buildMessagePayload row) as [p|]; simplify_eq/=.
  destruct (sendWsMessage ws p net st) as [st1|] eqn:Hsend; simplify_eq/=.
  intros Hl. by eapply sendWsMessage_live.
Qed.

Lemma deliver_rows_connections ws net rows st :
  connections (deliver_rows ws net rows st) = connections st.
Proof.
  revert st. induction rows as [|row rest IH]; intros st; simpl; [done|].
  destruct (push_row ws (net row) row st) as [st'|] eqn:Hp; [|done].
  rewrite IH. by eapply push_row_connections.
Qed.

Lemma deliver_rows_live ws net rows st id ws' :
  live (deliver_rows ws net rows st) id ws' → live st id ws'.
Proof.
  revert st. induction rows as [|row rest IH]; intros st; simpl; [done|].
  destruct (push_row ws (net row) row st) as [st'|] eqn:Hp; [|done].
  intros Hl%IH. by eapply push_row_live.
Qed.

Lemma deliverIfConnected_connections row net st :
  connections (deliverIfConnected row net st).1 = connections st.
Proof.
  unfold deliverIfConnected. repeat case_match; simpl; try done.
  by eapply push_row_connections.
Qed.

Lemma deliverIfConnected_live row net st id ws' :
  live (deliverIfConnected row net st).1 id ws' → live st id ws'.
Proof.
  unfold deliverIfConnected. repeat case_match; simpl; try done.
  by eapply push_row_live.
Qed.

Lemma accept_socket_live st id ws' :
  live (accept_socket st).2 id ws' → live st id ws'.
Proof.
  intros (s & Hlook & Hopen & Hbound). simpl in Hlook.
  apply lookup_app_Some in Hlook as [Hlook|[_ Hlook]]; [by exists s|].
  apply list_lookup_singleton_Some in Hlook as [_ <-]. done.
Qed.

Lemma ws_close_live old code reason st id ws' :
  live (ws_close old code reason st) id ws' → live st id ws' ∧ (is_open old st = true → ws' ≠ old).
Proof.
  unfold ws_close, is_open.
  destruct (sockets st !! old) as [s|] eqn:Hold; [|by intros].
  case_bool_decide as Hopen; [|by intros].
  intros (s' & Hlook & Hopen' & Hbound). simpl in Hlook.
  destruct (decide (old = ws')) as [->|Hne].
  - rewrite list_lookup_insert_eq in Hlook by (by eapply lookup_lt_Some). by simplify_eq/=.
  - rewrite list_lookup_insert_ne in Hlook by done. split; [by exists s'|done].
Qed.

Lemma ws_close_not_open old code reason st : is_open old (ws_close old code reason st) = false.
Proof.
  unfold ws_close, is_open.
  destruct (sockets st !! old) as [s|] eqn:Hold; [|by rewrite Hold].
  case_bool_decide as Hopen; simpl.
  - rewrite list_lookup_insert_eq by (by eapply lookup_lt_Some). done.
  - rewrite Hold. by rewrite bool_decide_eq_false_2.
Qed.

Lemma ws_close_closeCall old code reason st :
  is_open old st = true →
  closeCall <$> sockets (ws_close old code reason st) !! old = Some (Some (code, reason)).
Proof.
  unfold ws_close, is_open.
  destruct (sockets st !! old) as [s|] eqn:Hold; [|done].
  intros ->. simpl. by rewrite list_lookup_insert_eq by (by eapply lookup_lt_Some).
Qed.

Lemma supersede_connections clientId ws st :
  connections (supersede clientId ws st) = connections st.
Proof. unfold supersede, ws_close. by repeat case_match. Qed.

Lemma supersede_live clientId ws st id ws' :
  live (supersede clientId ws st) id ws' → live st id ws'.
Proof. unfold supersede. repeat case_match; try done. by intros []%ws_close_live. Qed.

Lemma install_live clientId ws st id ws' :
  live (install clientId ws st) id ws' →
  (ws' = ws ∧ id = clientId) ∨ (ws' ≠ ws ∧ live st id ws').
Proof.
  intros (s & Hlook & Hopen & Hbound). simpl in Hlook.
  destruct (sockets st !! ws) as [s0|] eqn:Hws.
  - destruct (decide (ws = ws')) as [->|Hne].
    + rewrite list_lookup_insert_eq in Hlook by (by eapply lookup_lt_Some).
      simplify_eq/=. by left.
    + rewrite list_lookup_insert_ne in Hlook by done. right. split; [done|by exists s].
  - right. split; [congruence|by exists s].
Qed.

Lemma on_connection_steps clientId st :
  live_is_current st →
  let st1 := (accept_socket st).2 in
  let ws := (accept_socket st).1 in
  let st2 := supersede clientId ws st1 in
  let st3 := install clientId ws st2 in
  live_is_current st1 ∧ live_is_current st2 ∧ live_is_current st3.
Proof.
  intros Hinv st1 ws st2 st3.
  assert (live_is_current st1) as H1.
  { eapply live_is_current_weaken; [done|done|]. intros ??. apply accept_socket_live. }
  assert (live_is_current st2) as H2.
  { eapply live_is_current_weaken; [exact H1|apply supersede_connections|].
    intros ??. apply supersede_live. }
  split_and!; [done..|].
  intros id ws' [[-> ->]|[Hne Hl]]%install_live; simpl.
  { by rewrite lookup_insert_eq. }
  destruct (decide (id = clientId)) as [->|Hid]; [|rewrite lookup_insert_ne by done; by apply H2].
  exfalso. pose proof (H2 _ _ Hl) as Hcur.
  unfold st2 in Hl, Hcur. rewrite supersede_connections in Hcur.
  unfold supersede in Hl. rewrite Hcur in Hl.
  rewrite bool_decide_eq_true_2 in Hl by done.
  apply ws_close_live in Hl as [Hl Hclosed]. apply Hclosed; [|done].
  destruct Hl as (s & Hs & Hopen & _). unfold is_open. rewrite Hs.
  by apply bool_decide_eq_true_2.
Qed.

Lemma set_readyState_live ws f st id ws' :
  (∀ r, f r = OPEN → r = OPEN) →
  live (set_readyState ws f st) id ws' → live st id ws'.
Proof.
  intros Hf (s & Hlook & Hopen & Hbound). simpl in Hlook.
  destruct (sockets st !! ws) as [s0|] eqn:Hws; [|by exists s].
  destruct (decide (ws = ws')) as [->|Hne].
  - rewrite list_lookup_insert_eq in Hlook by (by eapply lookup_lt_Some).
    simplify_eq/=. exists s0. split_and!; [done|by apply Hf|done].
  - rewrite list_lookup_insert_ne in Hlook by done. by exists s.
Qed.

Lemma set_readyState_not_live ws f st id :
  (∀ r, f r ≠ OPEN) → ¬ live (set_readyState ws f st) id ws.
Proof.
  intros Hf (s & Hlook & Hopen & Hbound). simpl in Hlook.
  destruct (sockets st !! ws) as [s0|] eqn:Hws; [|congruence].
  rewrite list_lookup_insert_eq in Hlook by (by eapply lookup_lt_Some).
  simplify_eq/=. by eapply Hf.
Qed.

Lemma listener_live_is_current ws st :
  live_is_current st → (∀ id, ¬ live st id ws) → live_is_current (listener ws st).
Proof.
  intros Hinv Hdead. unfold listener.
  destruct (sockets st !! ws ≫= boundTo) as [clientId|]; [|done].
  case_bool_decide as Hcur; [|done].
  intros id ws' Hl. simpl.
  assert (live st id ws') as Hl' by done.
  destruct (decide (id = clientId)) as [->|Hne]; [|rewrite lookup_delete_ne by done; by apply Hinv].
  exfalso. apply Hinv in Hl'. rewrite Hcur in Hl'. simplify_eq. by eapply Hdead.
Qed.

Lemma handle_live_is_current ev st :
  live_is_current st → live_is_current (handle ev st).1.
Proof.
  intros Hinv. destruct ev as [id now|id b now|id|from to e uuid now net|clientId net|ws|ws]; simpl.
  - unfold post_register, stmtUserInsert. by repeat case_match.
  - unfold post_prekeys. by repeat case_match.
  - unfold get_prekeys. by repeat case_match.
  - unfold post_messages. repeat case_match; simplify_eq/=; try done.
    match goal with H : deliverIfConnected ?r ?n ?s = (?s2, _) |- _ =>
      assert (s2 = (deliverIfConnected r n s).1) as -> by (by rewrite H) end.
    match goal with H : stmtMsgInsert _ _ = Some _ |- _ =>
      unfold stmtMsgInsert in H; case_bool_decide; simplify_eq/= end.
    eapply live_is_current_weaken; [exact Hinv| |].
    + by rewrite deliverIfConnected_connections.
    + by intros ?? ?%deliverIfConnected_live.
  - unfold on_upgrade. repeat case_match; try done.
    unfold on_connection. simpl.
    destruct (on_connection_steps clientId st Hinv) as (_ & _ & H3).
    eapply live_is_current_weaken; [exact H3| |].
    + apply deliver_rows_connections.
    + intros ??. apply deliver_rows_live.
  - unfold socket_closed. apply listener_live_is_current.
    + eapply live_is_current_weaken; [exact Hinv|done|].
      intros ??. by apply set_readyState_live.
    + intros id. by apply set_readyState_not_live.
  - unfold socket_error. apply listener_live_is_current.
    + eapply live_is_current_weaken; [exact Hinv|done|].
      intros ??. apply set_readyState_live. intros r. by case_bool_decide.
    + intros id. apply set_readyState_not_live. intros r. by case_bool_decide.
Qed.

Lemma run_snoc evs ev st : run (evs ++ [ev]) st = (handle ev (run evs st)).1.
Proof. unfold run. by rewrite foldl_app. Qed.

Lemma run_live_is_current evs : live_is_current (run evs init).
Proof.
  induction evs as [|ev evs IH] using rev_ind.
  - intros id ws (s & Hs & _). done.
  - rewrite run_snoc. by apply handle_live_is_current.
Qed.

(** Every socket in [connections] is one [accept_socket] created. *)
Definition connections_allocated (st : State) : Prop :=
  ∀ id ws, connections st !! id = Some ws → (ws < length (sockets st))%nat.

Lemma push_row_sockets_length ws net row st st' :
  push_row ws net row st = Some st' → length (sockets st') = length (sockets st).
Proof.
  unfold push_row, sendWsMessage. intros Heq.
  destruct (buildMessagePayload row) as [p|]; simplify_eq/=.
  repeat case_match; simplify_eq/=. by rewrite length_insert.
Qed.

Lemma deliver_rows_sockets_length ws net rows st :
  length (sockets (deliver_rows ws net rows st)) = length (sockets st).
Proof.
  revert st. induction rows as [|row rest IH]; intros st; simpl; [done|].
  destruct (push_row ws (net row) row st) as [st'|] eqn:Hp; [|done].
  rewrite IH. by eapply push_row_sockets_length.
Qed.

Lemma deliverIfConnected_sockets_length row net st :
  length (sockets (deliverIfConnected row net st).1) = length (sockets st).
Proof.
  unfold deliverIfConnected. repeat case_match; simpl; try done.
  by eapply push_row_sockets_length.
Qed.

Lemma supersede_sockets_length clientId ws st :
  length (sockets (supersede clientId ws st)) = length (sockets st).
Proof. unfold supersede, ws_close. repeat case_match; simpl; by rewrite ?length_insert. Qed.

Lemma set_readyState_sockets_length ws f st :
  length (sockets (set_readyState ws f st)) = length (sockets st).
Proof. unfold set_readyState. simpl. case_match; by rewrite ?length_insert. Qed.

Lemma listener_connections_allocated ws st :
  connections_allocated st → connections_allocated (listener ws st).
Proof.
  intros H. unfold listener. repeat case_match; try done.
  intros id w Hl. simpl in *. apply lookup_delete_Some in Hl as [_ Hl]. by eapply H.
Qed.

Lemma handle_connections_allocated ev st :
  connections_allocated st → connections_allocated (handle ev st).1.
Proof.
  intros Hinv. destruct ev as [id now|id b now|id|from to e uuid now net|clientId net|ws|ws]; simpl.
  - unfold post_register, stmtUserInsert. by repeat case_match.
  - unfold post_prekeys. by repeat case_match.
  - unfold get_prekeys. by repeat case_match.
  - unfold post_messages. repeat case_match; simplify_eq/=; try done.
    match goal with H : deliverIfConnected ?r ?n ?s = (?s2, _) |- _ =>
      assert (s2 = (deliverIfConnected r n s).1) as -> by (by rewrite H) end.
    match goal with H : stmtMsgInsert _ _ = Some _ |- _ =>
      unfold stmtMsgInsert in H; case_bool_decide; simplify_eq/= end.
    intros id w. rewrite deliverIfConnected_connections, deliverIfConnected_sockets_length.
    apply Hinv.
  - unfold on_upgrade. repeat case_match; try done.
    unfold on_connection. simpl. intros id w.
    unfold deliverPending.
    rewrite deliver_rows_connections, deliver_rows_sockets_length. simpl.
    rewrite supersede_connections. simpl.
    destruct (sockets _ !! _); rewrite ?length_insert, supersede_sockets_length; simpl;
      rewrite length_app; simpl;
      (destruct (decide (id = clientId)) as [->|Hne];
       [rewrite lookup_insert_eq; intros [= <-]; lia
       |rewrite lookup_insert_ne by done; intros ?%Hinv; lia]).
  - unfold socket_closed. apply listener_connections_allocated.
    intros id w. rewrite set_readyState_sockets_length. apply Hinv.
  - unfold socket_error. apply listener_connections_allocated.
    intros id w. rewrite set_readyState_sockets_length. apply Hinv.
Qed.

Lemma run_connections_allocated evs : connections_allocated (run evs init).
Proof.
  induction evs as [|ev evs IH] using rev_ind; [done|].
  rewrite run_snoc. by apply handle_connections_allocated.
Qed.

(** C2. In every state the server reaches, each identity has at most one
    live connection, and it is the one [connections] holds for it. Inside
    the connection handler the same is true after each of its steps: when
    [clientId] already has a connection [old], [close(4000, "superseded")]
    has been called on it (it is no longer OPEN) while [connections] still
    holds [old]; only then does [connections.set] make the new socket the
    connection of [clientId]. *)
Theorem at_most_one_live_connection (evs : list Event) (clientId : string) :
  let st := run evs init in
  let ws := (accept_socket st).1 in
  let st1 := (accept_socket st).2 in
  let st2 := supersede clientId ws st1 in
  let st3 := install clientId ws st2 in
  (at_most_one_live st ∧ live_is_current st) ∧
  (∀ old, connections st !! clientId = Some old →
     connections st2 !! clientId = Some old ∧
     is_open old st2 = false ∧
     (is_open old st = true →
      closeCall <$> sockets st2 !! old = Some (Some (4000, "superseded")))) ∧
  at_most_one_live st1 ∧ at_most_one_live st2 ∧
  connections st3 !! clientId = Some ws ∧ live st3 clientId ws ∧
  at_most_one_live st3 ∧ live_is_current st3.
Proof.
  intros st ws st1 st2 st3.
  pose proof (run_live_is_current evs) as Hinv. fold st in Hinv.
  pose proof (run_connections_allocated evs) as Halloc. fold st in Halloc.
  destruct (on_connection_steps clientId st Hinv) as (H1 & H2 & H3).
  fold st1 ws st2 st3 in H1, H2, H3.
  split; [split; [by apply live_is_current_at_most_one|done]|].
  split.
  { intros old Hold. pose proof (Halloc _ _ Hold) as Hlt.
    assert (old ≠ ws) as Hne by (unfold ws; simpl; lia).
    assert (sockets st1 !! old = sockets st !! old) as Hsame.
    { unfold st1. simpl. by rewrite lookup_app_l. }
    unfold st2, supersede. unfold st1 at 1 3 5. simpl. rewrite Hold.
    rewrite bool_decide_eq_true_2 by done.
    split_and!.
    - unfold ws_close. by repeat case_match.
    - apply ws_close_not_open.
    - intros Hopen. apply ws_close_closeCall. unfold is_open in *. fold st1. by rewrite Hsame. }
  split_and!; try by apply live_is_current_at_most_one.
  - unfold st3. simpl. by rewrite lookup_insert_eq.
  - unfold st3, install, live. simpl.
    assert (sockets st2 !! ws = Some (mkWebSocket OPEN None None [])) as Hws.
    { unfold st2, supersede. fold st1.
      assert (sockets st1 !! ws = Some (mkWebSocket OPEN None None [])) as Hnew.
      { unfold st1, ws. simpl. rewrite lookup_app_r by done.
        by rewrite Nat.sub_diag. }
      destruct (connections st1 !! clientId) as [old|] eqn:Hold; [|done].
      case_bool_decide as Hne; [|done].
      unfold ws_close. repeat case_match; try done. simpl.
      by rewrite list_lookup_insert_ne. }
    rewrite Hws. eexists. rewrite list_lookup_insert_eq by (by eapply lookup_lt_Some).
    done.
  - done.
Qed.

(** *** The pending query *)

Definition le_created (r1 r2 : MessageRow) : Prop := created_at r1 ≤ created_at r2.

Lemma insert_by_created_at_perm r l : insert_by_created_at r l ≡ₚ r :: l.
Proof.
  induction l as [|r' l IH]; simpl; [done|].
  case_match; [done|]. rewrite IH. apply Permutation_swap.
Qed.

Lemma order_by_created_at_perm l : order_by_created_at l ≡ₚ l.
Proof.
  induction l as [|r l IH]; simpl; [done|].
  by rewrite insert_by_created_at_perm, IH.
Qed.



Lemma insert_by_created_at_head r l :
  Forall (le_created r) l → insert_by_created_at r l = r :: l.
Proof.
  destruct 1 as [|r' l Hle _]; simpl; [done|].
  unfold le_created in Hle. by rewrite (proj2 (Z.leb_le _ _) Hle).
Qed.

(** A list already in [created_at] order comes back as it is. *)
Lemma order_by_created_at_id l :
  StronglySorted le_created l → order_by_created_at l = l.
Proof.
  induction 1 as [|r l Hs IH Hall]; simpl; [done|].
  rewrite IH. by apply insert_by_created_at_head.
Qed.




(** *** The replay loop *)

Fixpoint take_while {A} (f : A → bool) (l : list A) : list A :=
  match l with
  | [] => []
  | x :: l' => if f x then x :: take_while f l' else []
  end.

Fixpoint drop_while {A} (f : A → bool) (l : list A) : list A :=
  match l with
  | [] => []
  | x :: l' => if f x then drop_while f l' else l
  end.


Lemma take_while_ext {A} (f g : A → bool) l :
  (∀ x, f x = g x) → take_while f l = take_while g l.
Proof. intros Hfg. induction l as [|x l IH]; simpl; [done|]. by rewrite Hfg, IH. Qed.

Lemma drop_while_ext {A} (f g : A → bool) l :
  (∀ x, f x = g x) → drop_while f l = drop_while g l.
Proof. intros Hfg. induction l as [|x l IH]; simpl; [done|]. by rewrite Hfg, IH. Qed.



(** Whether the push of [row] on [ws] goes through: the stored text
    parses, the socket is OPEN and the transport accepts the frame. *)
Definition pushes (ws : nat) (net : MessageRow → bool) (st : State) (row : MessageRow) : bool :=
  bool_decide (is_Some (buildMessagePayload row)) && is_open ws st && net row.

Definition sent_on (ws : nat) (st : State) : list Payload :=
  default [] (sent <$> sockets st !! ws).

(** [delivered = 1] for the ids in [ids]. *)
Definition mark_all (ids : list string) (m : StoredMessage) : StoredMessage :=
  if bool_decide (row_id (stored_row m) ∈ ids) then mkStored (stored_row m) true else m.

Lemma mark_all_nil (ms : list StoredMessage) : mark_all [] <$> ms = ms.
Proof.
  rewrite <-(list_fmap_id ms) at 2. apply list_fmap_ext. intros _ m _.
  unfold mark_all. rewrite bool_decide_eq_false_2; [done|]. apply not_elem_of_nil.
Qed.

Lemma mark_all_mark mid ids m : mark_all ids (mark mid m) = mark_all (mid :: ids) m.
Proof.
  unfold mark_all, mark. destruct m as [r d]; simpl.
  destruct (decide (row_id r = mid)) as [Heq|Hne].
  - rewrite (bool_decide_eq_true_2 _ Heq). simpl.
    rewrite (bool_decide_eq_true_2 (row_id r ∈ mid :: ids)) by (rewrite elem_of_cons; auto).
    by case_bool_decide.
  - rewrite (bool_decide_eq_false_2 _ Hne). simpl.
    destruct (decide (row_id r ∈ ids)) as [Hin|Hnin].
    + rewrite (bool_decide_eq_true_2 _ Hin).
      by rewrite bool_decide_eq_true_2 by (rewrite elem_of_cons; auto).
    + rewrite (bool_decide_eq_false_2 _ Hnin).
      by rewrite bool_decide_eq_false_2 by (rewrite elem_of_cons; tauto).
Qed.

Lemma mark_all_cons mid ids (ms : list StoredMessage) :
  mark_all ids <$> (mark mid <$> ms) = mark_all (mid :: ids) <$> ms.
Proof.
  rewrite <-list_fmap_compose. apply list_fmap_ext. intros _ m _. apply mark_all_mark.
Qed.

Lemma push_row_Some ws net row st :
  pushes ws (λ _, net) st row = true →
  ∃ p s, buildMessagePayload row = Some p ∧ sockets st !! ws = Some s ∧
    push_row ws net row st =
    Some (stmtMsgMarkDelivered (row_id row)
            (set_sockets (λ h, <[ws := mkWebSocket (readyState s) (boundTo s) (closeCall s) (sent s ++ [p])]> h) st)).
Proof.
  unfold pushes, push_row, sendWsMessage, is_open.
  intros [[Hp Ho]%andb_true_iff Hnet]%andb_true_iff.
  apply bool_decide_eq_true in Hp as [p Hp].
  destruct (sockets st !! ws) as [s|]; [|done].
  exists p, s. rewrite Hp. simpl. by rewrite Ho, Hnet.
Qed.

Lemma push_row_None ws net row st :
  pushes ws (λ _, net) st row = false → push_row ws net row st = None.
Proof.
  unfold pushes, push_row, sendWsMessage, is_open. intros Hf.
  destruct (buildMessagePayload row) as [p|] eqn:Hp; simpl; [|done].
  rewrite bool_decide_eq_true_2 in Hf by eauto. simpl in Hf.
  destruct (sockets st !! ws) as [s|]; [|done]. by rewrite Hf.
Qed.

Lemma push_row_is_open ws net row st st' w :
  push_row ws net row st = Some st' → is_open w st' = is_open w st.
Proof.
  intros Hp. destruct (pushes ws (λ _, net) st row) eqn:Hpush.
  - destruct (push_row_Some _ _ _ _ Hpush) as (p & s & _ & Hs & Heq).
    rewrite Heq in Hp. simplify_eq/=. unfold is_open. simpl.
    destruct (decide (ws = w)) as [->|Hne].
    + rewrite list_lookup_insert_eq by (by eapply lookup_lt_Some). by rewrite Hs.
    + by rewrite list_lookup_insert_ne.
  - by rewrite push_row_None in Hp.
Qed.

(** The loop pushes the rows up to the first one whose push fails, in
    order, marks exactly those, and touches nothing else. *)
Lemma deliver_rows_spec ws net rows st :
  let out := take_while (pushes ws net st) rows in
  let st' := deliver_rows ws net rows st in
  messages st' = mark_all (row_id <$> out) <$> messages st ∧
  sent_on ws st' = sent_on ws st ++ omap buildMessagePayload out ∧
  (∀ w, w ≠ ws → sockets st' !! w = sockets st !! w) ∧
  (∀ w, is_open w st' = is_open w st) ∧
  users st' = users st ∧ prekeys st' = prekeys st ∧ connections st' = connections st.
Proof.
  revert st. induction rows as [|row rest IH]; intros st; simpl.
  { rewrite mark_all_nil, app_nil_r. done. }
  destruct (pushes ws net st row) eqn:Hpush.
  - assert (pushes ws (λ _, net row) st row = true) as Hpush' by done.
    destruct (push_row_Some _ _ _ _ Hpush') as (p & s & Hp & Hs & Heq).
    rewrite Heq. set (st1 := stmtMsgMarkDelivered _ _).
    assert (∀ w, is_open w st1 = is_open w st) as Hopen.
    { intros w. by eapply push_row_is_open. }
    destruct (IH st1) as (Hm & Hsent & Hother & Ho & Hu & Hk & Hc).
    rewrite (take_while_ext (pushes ws net st1) (pushes ws net st)) in Hm, Hsent
      by (intros r; unfold pushes; by rewrite Hopen).
    split_and!.
    + rewrite Hm. unfold st1. simpl. apply mark_all_cons.
    + rewrite Hsent. simpl. rewrite Hp. simpl.
      unfold sent_on, st1. simpl.
      rewrite list_lookup_insert_eq by (by eapply lookup_lt_Some).
      rewrite Hs. simpl. by rewrite <-app_assoc.
    + intros w Hne. rewrite Hother by done. unfold st1. simpl.
      by rewrite list_lookup_insert_ne.
    + intros w. by rewrite Ho.
    + by rewrite Hu.
    + by rewrite Hk.
    + by rewrite Hc.
  - assert (pushes ws (λ _, net row) st row = false) as Hpush' by done.
    rewrite (push_row_None _ _ _ _ Hpush'). simpl.
    rewrite mark_all_nil, app_nil_r. done.
Qed.

(** *** The message table along a run *)

Definition ids (st : State) : list string := (row_id ∘ stored_row) <$> messages st.




Lemma mark_all_stored_row l (ms : list StoredMessage) :
  stored_row <$> (mark_all l <$> ms) = stored_row <$> ms.
Proof.
  rewrite <-list_fmap_compose. apply list_fmap_ext. intros _ m _. simpl.
  unfold mark_all. by case_bool_decide.
Qed.

(** A single push is the loop on one row. *)
Lemma push_row_deliver_rows ws net row st :
  deliver_rows ws (λ _, net) [row] st = default st (push_row ws net row st).
Proof. simpl. by destruct (push_row ws net row st). Qed.

(** [id] has no open push connection: [connections] has no socket for it,
    or one that is not OPEN. *)
Definition offline (id : string) (st : State) : Prop :=
  ∀ ws, connections st !! id = Some ws → is_open ws st = false.

Definition connects (id : string) (ev : Event) : Prop := ∃ net, ev = Connect id net.

Lemma deliverIfConnected_messages row net st :
  ∃ l, messages (deliverIfConnected row net st).1 = mark_all l <$> messages st ∧
       (∀ x, x ∈ l → x = row_id row ∧ ¬ offline (to_id row) st).
Proof.
  assert (∃ l, messages st = mark_all l <$> messages st ∧
               ∀ x, x ∈ l → x = row_id row ∧ ¬ offline (to_id row) st) as Hnil.
  { exists []. rewrite mark_all_nil. split; [done|]. by intros ? ?%not_elem_of_nil. }
  unfold deliverIfConnected.
  destruct (connections st !! to_id row) as [ws|] eqn:Hc; [|done].
  destruct (is_open ws st) eqn:Ho; simpl; [|done].
  pose proof (push_row_deliver_rows ws net row st) as Heq.
  destruct (deliver_rows_spec ws (λ _, net) [row] st) as (Hm & _).
  rewrite Heq in Hm. destruct (push_row ws net row st) as [st'|]; simpl in *; [|done].
  eexists. split; [exact Hm|]. intros x. case_match; simpl.
  - intros ->%list_elem_of_singleton. split; [done|].
    intros Hoff. specialize (Hoff _ Hc). congruence.
  - by intros ?%not_elem_of_nil.
Qed.

Lemma before_replay_messages clientId ws st :
  messages (install clientId ws (supersede clientId ws st)) = messages st.
Proof. unfold install, supersede, ws_close. simpl. by repeat case_match. Qed.

Lemma elem_of_stmtMsgPending toId st r :
  r ∈ stmtMsgPending toId st ↔ to_id r = toId ∧ mkStored r false ∈ messages st.
Proof.
  unfold stmtMsgPending. rewrite order_by_created_at_perm.
  rewrite list_elem_of_fmap. setoid_rewrite list_elem_of_filter.
  unfold is_pending. split.
  - intros ([r' d] & -> & [Hp%bool_decide_eq_true Hd%negb_true_iff]%andb_true_iff & Hin).
    simpl in *. by subst.
  - intros [Hto Hin]. exists (mkStored r false). simpl.
    by rewrite bool_decide_eq_true_2.
Qed.

Lemma elem_of_take_while {A} (f : A → bool) l x : x ∈ take_while f l → x ∈ l.
Proof.
  induction l as [|y l IH]; simpl; [done|].
  case_match; [|by intros ?%not_elem_of_nil].
  rewrite !elem_of_cons. intros [->|Hx]; [by left|right; by apply IH].
Qed.

(** What a handler does to the message table: it may append one row with
    a new id, and it may mark delivered rows it pushed, which are rows of
    a recipient that connects or has an open connection. *)
Lemma handle_messages ev st :
  ∃ new l, messages (handle ev st).1 = (mark_all l <$> (messages st ++ new)) ∧
    (new = [] ∨ ∃ from to e uuid now net,
        ev = Submit from to e uuid now net ∧ (uuid ∉ ids st) ∧
        new = [mkStored (mkMessageRow uuid to from (JSON_stringify e) now) false]) ∧
    (∀ x, x ∈ l → ∃ m, m ∈ messages st ++ new ∧ row_id (stored_row m) = x ∧
        (connects (to_id (stored_row m)) ev ∨ ¬ offline (to_id (stored_row m)) st)).
Proof.
  assert (∃ new l, messages st = (mark_all l <$> (messages st ++ new)) ∧
    (new = [] ∨ ∃ from to e uuid now net,
        ev = Submit from to e uuid now net ∧ (uuid ∉ ids st) ∧
        new = [mkStored (mkMessageRow uuid to from (JSON_stringify e) now) false]) ∧
    (∀ x, x ∈ l → ∃ m, m ∈ messages st ++ new ∧ row_id (stored_row m) = x ∧
        (connects (to_id (stored_row m)) ev ∨ ¬ offline (to_id (stored_row m)) st))) as Hnil.
  { exists [], []. rewrite mark_all_nil, app_nil_r. split_and!; [done|by left|].
    by intros ? ?%not_elem_of_nil. }
  destruct ev as [id now|id b now|id|from to e uuid now net|clientId net|ws|ws]; simpl.
  - unfold post_register, stmtUserInsert. by repeat case_match.
  - unfold post_prekeys. by repeat case_match.
  - unfold get_prekeys. by repeat case_match.
  - unfold post_messages.
    destruct (negb _); [done|]. destruct (negb _); [done|].
    unfold stmtMsgInsert. case_bool_decide as Hin; [done|].
    set (row := mkMessageRow _ _ _ _ _). set (st1 := set_messages _ _).
    destruct (deliverIfConnected_messages row net st1) as (l & Hm & Hl).
    destruct (deliverIfConnected row net st1) as [st2 d]. simpl in *.
    exists [mkStored row false], l. split_and!; [done| |].
    + right. by exists from, to, e, uuid, now, net.
    + intros x [-> Hoff]%Hl. exists (mkStored row false). split_and!; [|done|by right].
      apply elem_of_app. right. by apply list_elem_of_singleton.
  - unfold on_upgrade.
    destruct (negb _); [done|]. destruct (negb _); [done|].
    unfold on_connection, deliverPending, accept_socket.
    cbv beta iota zeta delta [fst snd].
    match goal with |- context [deliver_rows ?w ?n ?r ?s] =>
      destruct (deliver_rows_spec w n r s) as (Hm & _);
      set (st3 := s) in *; set (out := take_while (pushes w n s) r) in * end.
    assert (messages st3 = messages st) as Hst3
      by (unfold st3; by rewrite before_replay_messages).
    rewrite Hst3 in Hm.
    eexists [], _. rewrite app_nil_r. split_and!; [exact Hm|by left|].
    intros x (r & -> & Hr)%list_elem_of_fmap.
    apply elem_of_take_while, elem_of_stmtMsgPending in Hr as [Hto Hin].
    rewrite Hst3 in Hin.
    exists (mkStored r false). split_and!; [done..|]. left. simpl. rewrite Hto. by exists net.
  - unfold socket_closed, listener. by repeat case_match.
  - unfold socket_error, listener. by repeat case_match.
Qed.



Lemma buildMessagePayload_stringify uuid to from e now :
  buildMessagePayload (mkMessageRow uuid to from (JSON_stringify e) now) = Some (mkPayload from to e).
Proof. unfold buildMessagePayload. simpl. by rewrite JSON_roundtrip. Qed.



(** *** What stays queued *)



Lemma stored_row_mark_all l m : stored_row (mark_all l m) = stored_row m.
Proof. unfold mark_all. by case_bool_decide. Qed.







Lemma push_row_is_open_eq ws net row st w :
  is_open w (default st (push_row ws net row st)) = is_open w st.
Proof.
  destruct (push_row ws net row st) as [st'|] eqn:Hp; simpl; [|done].
  by eapply push_row_is_open.
Qed.













Lemma push_row_users ws net row st st' :
  push_row ws net row st = Some st' → users st' = users st.
Proof.
  unfold push_row, sendWsMessage. intros Heq.
  destruct (buildMessagePayload row) as [p|]; simplify_eq/=.
  by repeat case_match; simplify_eq/=.
Qed.

Lemma deliverIfConnected_users row net st :
  users (deliverIfConnected row net st).1 = users st.
Proof.
  unfold deliverIfConnected. repeat case_match; simpl; try done.
  by eapply push_row_users.
Qed.

Lemma handle_registered ev id st :
  stmtUserExists id st = true → stmtUserExists id (handle ev st).1 = true.
Proof.
  unfold stmtUserExists. intros Hreg%bool_decide_eq_true. apply bool_decide_eq_true.
  destruct ev as [i now|i b now|i|from to e uuid now net|clientId net|ws|ws]; simpl.
  - unfold post_register, stmtUserInsert. repeat case_match; try done. simpl.
    destruct (decide (i = id)) as [->|Hne]; [by rewrite lookup_insert_eq|].
    by rewrite lookup_insert_ne.
  - unfold post_prekeys. by repeat case_match.
  - unfold get_prekeys. by repeat case_match.
  - unfold post_messages. repeat case_match; simplify_eq/=; try done.
    match goal with H : deliverIfConnected ?r ?n ?s = (?s2, _) |- _ =>
      assert (s2 = (deliverIfConnected r n s).1) as -> by (by rewrite H) end.
    rewrite deliverIfConnected_users.
    match goal with H : stmtMsgInsert _ _ = Some _ |- _ =>
      unfold stmtMsgInsert in H; case_bool_decide; by simplify_eq/= end.
  - unfold on_upgrade. repeat case_match; try done.
    unfold on_connection, deliverPending, accept_socket.
    cbv beta iota zeta delta [fst snd].
    match goal with |- context [deliver_rows ?w' ?n ?r ?s] =>
      destruct (deliver_rows_spec w' n r s) as (_ & _ & _ & _ & Hu & _) end.
    rewrite Hu. unfold install, supersede, ws_close. simpl. by repeat case_match.
  - unfold socket_closed, listener. by repeat case_match.
  - unfold socket_error, listener. by repeat case_match.
Qed.






(** *** Submission *)

Lemma mark_not_in mid (ms : list StoredMessage) :
  mid ∉ (row_id ∘ stored_row) <$> ms → mark mid <$> ms = ms.
Proof.
  intros Hnin. rewrite <-(list_fmap_id ms) at 2. apply list_fmap_ext.
  intros i m Hm. unfold mark. rewrite bool_decide_eq_false_2; [done|].
  intros <-. apply Hnin. apply list_elem_of_fmap. exists m. split; [done|].
  by eapply list_elem_of_lookup_2.
Qed.

(** C3. A submit that passes [MessageSchema] and names a recipient that is
    not registered is answered 404 and changes nothing. For a registered
    recipient (and an id that [randomUUID] has not given before) exactly
    one row is appended to [messages]; the answer says [queued] and
    whether the push went through, which it does exactly when the
    recipient has an OPEN socket in [connections] and the send succeeds;
    the row is marked delivered exactly then. *)
Theorem submit_not_registered_or_queued (st : State) (from to : string) (e : Envelope)
    (uuid : string) (now : Z) (net : bool) :
  min1 from && min1 to && EnvelopeSchema e = true →
  let r := post_messages from to e uuid now net st in
  (stmtUserExists to st = false → r = (st, Json404 "Recipient not registered.")) ∧
  (stmtUserExists to st = true → uuid ∉ ids st →
   ∃ delivered : bool,
     r.2 = Json200_queued delivered ∧
     messages r.1 =
       messages st ++ [mkStored (mkMessageRow uuid to from (JSON_stringify e) now) delivered] ∧
     (delivered = true ↔
        ∃ ws, connections st !! to = Some ws ∧ is_open ws st = true ∧ net = true) ∧
     (∀ ws, connections st !! to = Some ws →
        sent_on ws r.1 = sent_on ws st ++ (if delivered then [mkPayload from to e] else [])) ∧
     users r.1 = users st ∧ prekeys r.1 = prekeys st ∧ connections r.1 = connections st).
Proof.
  intros Hvalid r. unfold r, post_messages. rewrite Hvalid. simpl.
  split; [by intros ->|]. intros -> Hfresh. simpl.
  unfold stmtMsgInsert. rewrite bool_decide_eq_false_2 by done.
  set (row := mkMessageRow _ _ _ _ _). set (st1 := set_messages _ st).
  unfold deliverIfConnected. simpl.
  destruct (connections st !! to) as [ws|] eqn:Hc.
  2:{ exists false. simpl. split_and!; try done. split; [done|]. by intros (? & ? & _). }
  change (is_open ws st1) with (is_open ws st).
  destruct (is_open ws st) eqn:Ho; simpl.
  2:{ exists false. simpl. split_and!; try done.
      - split; [done|]. intros (? & ? & ? & _). congruence.
      - intros ? [= <-]. by rewrite app_nil_r. }
  destruct net.
  - assert (pushes ws (λ _, true) st1 row = true) as Hpush.
    { unfold pushes. change (is_open ws st1) with (is_open ws st). rewrite Ho.
      unfold row. rewrite buildMessagePayload_stringify.
      by rewrite bool_decide_eq_true_2. }
    destruct (push_row_Some _ _ _ _ Hpush) as (p & sk & Hp & Hs & ->).
    unfold row in Hp. rewrite buildMessagePayload_stringify in Hp. simplify_eq.
    exists true. simpl. split_and!; try done.
    + rewrite fmap_app. rewrite mark_not_in by done. simpl. unfold mark. simpl.
      by rewrite bool_decide_eq_true_2.
    + split; [|done]. intros _. by exists ws.
    + intros ? [= <-]. unfold sent_on. simpl.
      rewrite list_lookup_insert_eq by (by eapply lookup_lt_Some).
      change (sockets st1) with (sockets st) in Hs. by rewrite Hs.
  - assert (pushes ws (λ _, false) st1 row = false) as Hpush.
    { unfold pushes. by rewrite andb_false_r. }
    rewrite (push_row_None _ _ _ _ Hpush). exists false. simpl. split_and!; try done.
    + split; [done|]. by intros (? & ? & ? & ?).
    + intros ? [= <-]. by rewrite app_nil_r.
Qed.

(** *** Bundles *)

Global Instance Response_eq_dec : EqDecision Response.
Proof. solve_decision. Defined.

(** The bundle a publish event stores under [id], if the relay accepts it. *)
Definition accepted_publish (id : string) (ev : Event) (st : State) : option Bundle :=
  match ev with
  | PublishBundle id' bundle now =>
      if bool_decide (id' = id) && bool_decide ((handle ev st).2 = Json200_ok)
      then Some bundle else None
  | _ => None
  end.

(** The bundle of the last accepted publish for [id] in a run from [st]. *)
Fixpoint latest_published (id : string) (evs : list Event) (st : State) : option Bundle :=
  match evs with
  | [] => None
  | ev :: evs' =>
      match latest_published id evs' (handle ev st).1 with
      | Some bundle => Some bundle
      | None => accepted_publish id ev st
      end
  end.

Lemma deliverIfConnected_prekeys row net st :
  prekeys (deliverIfConnected row net st).1 = prekeys st.
Proof.
  unfold deliverIfConnected.
  destruct (connections st !! to_id row) as [ws|]; [|done].
  destruct (negb (is_open ws st)); [done|].
  pose proof (push_row_deliver_rows ws net row st) as Heq.
  destruct (deliver_rows_spec ws (λ _, net) [row] st) as (_ & _ & _ & _ & _ & Hk & _).
  rewrite Heq in Hk. by destruct (push_row ws net row st).
Qed.

Lemma handle_prekeys ev id st :
  stmtPrekeyGet id (handle ev st).1 =
  match accepted_publish id ev st with
  | Some bundle => Some (JSON_stringify bundle)
  | None => stmtPrekeyGet id st
  end.
Proof.
  unfold stmtPrekeyGet.
  destruct ev as [i now|i b now|i|from to e uuid now net|clientId net|ws|ws]; simpl.
  - unfold post_register, stmtUserInsert. by repeat case_match.
  - unfold post_prekeys.
    destruct (negb (min1 i && BundleSchema b)); simpl; [by rewrite andb_false_r|].
    destruct (negb (stmtUserExists i st)); simpl; [by rewrite andb_false_r|].
    rewrite andb_true_r. case_bool_decide as Hid.
    + subst. by rewrite lookup_insert_eq.
    + by rewrite lookup_insert_ne.
  - unfold get_prekeys. by repeat case_match.
  - unfold post_messages. repeat case_match; simplify_eq/=; try done.
    match goal with H : deliverIfConnected ?r ?n ?s = (?s2, _) |- _ =>
      assert (s2 = (deliverIfConnected r n s).1) as -> by (by rewrite H) end.
    match goal with H : stmtMsgInsert _ _ = Some _ |- _ =>
      unfold stmtMsgInsert in H; case_bool_decide; simplify_eq/= end.
    by rewrite deliverIfConnected_prekeys.
  - unfold on_upgrade. repeat case_match; try done.
    unfold on_connection, deliverPending, accept_socket.
    cbv beta iota zeta delta [fst snd].
    match goal with |- context [deliver_rows ?w' ?n ?r ?s] =>
      destruct (deliver_rows_spec w' n r s) as (_ & _ & _ & _ & _ & Hk & _) end.
    rewrite Hk. unfold install, supersede, ws_close. simpl. by repeat case_match.
  - unfold socket_closed, listener. by repeat case_match.
  - unfold socket_error, listener. by repeat case_match.
Qed.

Lemma run_prekeys evs id st :
  stmtPrekeyGet id (run evs st) =
  match latest_published id evs st with
  | Some bundle => Some (JSON_stringify bundle)
  | None => stmtPrekeyGet id st
  end.
Proof.
  revert st. induction evs as [|ev evs IH]; intros st; [done|].
  change (run (ev :: evs) st) with (run evs (handle ev st).1).
  rewrite IH. simpl. destruct (latest_published id evs _); [done|].
  apply handle_prekeys.
Qed.

(** C4. After any run of the server, [GET /v1/prekeys/:id] answers with
    the bundle of the last publish the relay accepted for [id], and with
    404 when there was none; it changes nothing. In particular, two
    accepted publishes of [B1] then [B2] for [id] leave [B2]. *)
Theorem fetch_returns_latest_bundle (evs : list Event) (id : string) :
  let st := run evs init in
  get_prekeys id st =
    (st, match latest_published id evs init with
         | Some bundle => Json200_bundle id bundle
         | None => Json404 "Prekeys not found."
         end) ∧
  ∀ B1 B2 t1 t2,
    let st1 := (post_prekeys id B1 t1 st).1 in
    let st2 := (post_prekeys id B2 t2 st1).1 in
    (post_prekeys id B2 t2 st1).2 = Json200_ok →
    get_prekeys id st2 = (st2, Json200_bundle id B2).
Proof.
  intros st. split.
  - unfold get_prekeys, st. rewrite run_prekeys.
    destruct (latest_published id evs init); [by rewrite JSON_roundtrip|done].
  - intros B1 B2 t1 t2 st1 st2 Hok.
    pose proof (handle_prekeys (PublishBundle id B2 t2) id st1) as Hget.
    simpl in Hget. rewrite Hok in Hget.
    rewrite !bool_decide_eq_true_2 in Hget by done. simpl in Hget.
    unfold get_prekeys. fold st2 in Hget. by rewrite Hget, JSON_roundtrip.
Qed.

(** *** What the relay keeps *)

(** The rows of [ms] are those of [ms'], position by position, and what
    was delivered stays delivered. *)
Definition kept (ms ms' : list StoredMessage) : Prop :=
  ∀ i m, ms !! i = Some m →
    ∃ m', ms' !! i = Some m' ∧ stored_row m' = stored_row m ∧
          (delivered m = true → delivered m' = true).

Lemma kept_refl ms : kept ms ms.
Proof. intros i m Hm. by exists m. Qed.

Lemma kept_trans ms1 ms2 ms3 : kept ms1 ms2 → kept ms2 ms3 → kept ms1 ms3.
Proof.
  intros H12 H23 i m Hm.
  destruct (H12 i m Hm) as (m2 & Hm2 & Hrow2 & Hd2).
  destruct (H23 i m2 Hm2) as (m3 & Hm3 & Hrow3 & Hd3).
  exists m3. split_and!; [done|congruence|auto].
Qed.

Lemma handle_kept ev st : kept (messages st) (messages (handle ev st).1).
Proof.
  destruct (handle_messages ev st) as (new & l & -> & _).
  intros i m Hm. exists (mark_all l m). split_and!.
  - rewrite list_lookup_fmap, lookup_app_l by (by eapply lookup_lt_Some). by rewrite Hm.
  - apply stored_row_mark_all.
  - unfold mark_all. by case_bool_decide.
Qed.

(** X1. The relay never deletes or rewrites a message: over any run,
    from any state, every row of table [messages] stays where it is with
    the same id, sender, recipient, envelope text and timestamp, and a
    row that was marked delivered stays marked. *)
Theorem messages_are_never_removed (evs : list Event) (st : State) :
  kept (messages st) (messages (run evs st)) ∧
  (length (messages st) ≤ length (messages (run evs st)))%nat.
Proof.
  assert (Hkept : kept (messages st) (messages (run evs st))).
  { revert st. induction evs as [|ev evs IH]; intros st; [apply kept_refl|].
    change (run (ev :: evs) st) with (run evs (handle ev st).1).
    eapply kept_trans; [apply handle_kept|apply IH]. }
  split; [done|].
  destruct (messages st) as [|m0 ms] eqn:Hms using rev_ind; [simpl; lia|].
  destruct (Hkept (length ms) m0) as (m' & Hm' & _).
  { by rewrite lookup_app_r, Nat.sub_diag by lia. }
  apply lookup_lt_Some in Hm'. rewrite length_app. simpl. lia.
Qed.

Lemma handle_users ev st : users st ⊆ users (handle ev st).1.
Proof.
  destruct ev as [i now|i b now|i|from to e uuid now net|clientId net|ws|ws]; simpl.
  - unfold post_register, stmtUserInsert. repeat case_match; try done. simpl.
    by apply insert_subseteq.
  - unfold post_prekeys. by repeat case_match.
  - unfold get_prekeys. by repeat case_match.
  - unfold post_messages. repeat case_match; simplify_eq/=; try done.
    match goal with H : deliverIfConnected ?r ?n ?s = (?s2, _) |- _ =>
      assert (s2 = (deliverIfConnected r n s).1) as -> by (by rewrite H) end.
    rewrite deliverIfConnected_users.
    match goal with H : stmtMsgInsert _ _ = Some _ |- _ =>
      unfold stmtMsgInsert in H; case_bool_decide; by simplify_eq/= end.
  - unfold on_upgrade. repeat case_match; try done.
    unfold on_connection, deliverPending, accept_socket.
    cbv beta iota zeta delta [fst snd].
    match goal with |- context [deliver_rows ?w' ?n ?r ?s] =>
      destruct (deliver_rows_spec w' n r s) as (_ & _ & _ & _ & Hu & _) end.
    rewrite Hu. unfold install, supersede, ws_close. simpl. by repeat case_match.
  - unfold socket_closed, listener. by repeat case_match.
  - unfold socket_error, listener. by repeat case_match.
Qed.

Lemma run_users evs st : users st ⊆ users (run evs st).
Proof.
  revert st. induction evs as [|ev evs IH]; intros st; [done|].
  change (run (ev :: evs) st) with (run evs (handle ev st).1).
  etrans; [apply handle_users|apply IH].
Qed.

(** X2. Registration is permanent and keeps its first timestamp: over
    any run, from any state, table [users] only grows (no id is removed,
    no [created_at] is rewritten), and registering an id again answers
    200 with the id and changes nothing. *)
Theorem registration_is_permanent (evs : list Event) (st : State) (id : string) (t now : Z) :
  users st ⊆ users (run evs st) ∧
  (users st !! id = Some t → id ≠ EmptyString →
   post_register id now (run evs st) = (run evs st, Json200_id id)).
Proof.
  split; [apply run_users|]. intros Hid Hne.
  assert (Hid' : users (run evs st) !! id = Some t).
  { by eapply lookup_weaken; [|apply run_users]. }
  unfold post_register, stmtUserInsert, min1.
  rewrite bool_decide_eq_true_2 by done. simpl. by rewrite Hid'.
Qed.


(** *** Whom the relay pushes to *)

(** A stored row that went through [MessageSchema]. *)
Definition valid_row (r : MessageRow) : Prop :=
  from_id r ≠ EmptyString ∧ to_id r ≠ EmptyString ∧
  ∃ e, JSON_parse (envelope_json r) = Some e ∧ EnvelopeSchema e = true.

(** The sockets, the connection map and the tables fit together: an
    entry of [connections] is a socket installed for that id; a socket is
    installed only for a registered id; what was sent on a socket is the
    payload of a delivered row addressed to the socket's id; every row is
    valid and addressed to a registered id. *)
Record consistent (st : State) : Prop := mkConsistent {
  entries_bound :
    ∀ id ws, connections st !! id = Some ws → boundTo <$> sockets st !! ws = Some (Some id);
  bound_registered :
    ∀ ws s id, sockets st !! ws = Some s → boundTo s = Some id →
      id ≠ EmptyString ∧ is_Some (users st !! id);
  sent_addressed :
    ∀ ws s p, sockets st !! ws = Some s → p ∈ sent s →
      boundTo s = Some (p_to p) ∧
      ∃ m, m ∈ messages st ∧ delivered m = true ∧ buildMessagePayload (stored_row m) = Some p;
  rows_valid :
    ∀ m, m ∈ messages st →
      valid_row (stored_row m) ∧ is_Some (users st !! to_id (stored_row m))
}.

Definition same_binding (s s' : WebSocket) : Prop :=
  boundTo s' = boundTo s ∧ sent s' = sent s.

Definition same_row (m m' : StoredMessage) : Prop :=
  stored_row m' = stored_row m ∧ (delivered m = true → delivered m' = true).

Lemma same_binding_insert (h : list WebSocket) ws s s' :
  h !! ws = Some s → same_binding s s' → Forall2 same_binding h (<[ws := s']> h).
Proof.
  intros Hs Hsame. apply Forall2_same_length_lookup_2; [by rewrite length_insert|].
  intros i x y Hx Hy. destruct (decide (ws = i)) as [->|Hne].
  - rewrite list_lookup_insert_eq in Hy by (by eapply lookup_lt_Some). by simplify_eq.
  - rewrite list_lookup_insert_ne in Hy by done. by simplify_eq.
Qed.

Lemma same_binding_refl (h : list WebSocket) : Forall2 same_binding h h.
Proof. induction h; by constructor. Qed.

Lemma same_row_refl (ms : list StoredMessage) : Forall2 same_row ms ms.
Proof. induction ms; by constructor. Qed.

Lemma same_row_mark mid (ms : list StoredMessage) : Forall2 same_row ms (mark mid <$> ms).
Proof.
  induction ms as [|m ms IH]; simpl; constructor; [|done].
  unfold same_row, mark. by case_bool_decide.
Qed.

(** A step that leaves the bindings and the payloads of all sockets, adds
    no entry to [connections], keeps the rows and removes no user. *)
Lemma consistent_quiet st st' :
  consistent st →
  connections st' ⊆ connections st →
  Forall2 same_binding (sockets st) (sockets st') →
  Forall2 same_row (messages st) (messages st') →
  users st ⊆ users st' →
  consistent st'.
Proof.
  intros [Hbound Hreg Hsent Hrows] Hconn Hsock Hmsg Husers.
  assert (Hback : ∀ ws s', sockets st' !! ws = Some s' →
                  ∃ s, sockets st !! ws = Some s ∧ same_binding s s').
  { intros ws s' Hs'. destruct (Forall2_lookup_r _ _ _ _ _ Hsock Hs') as (s & Hs & Hsame).
    by exists s. }
  assert (Hrow : ∀ m, m ∈ messages st → ∃ m', m' ∈ messages st' ∧ same_row m m').
  { intros m (i & Hi)%list_elem_of_lookup.
    destruct (Forall2_lookup_l _ _ _ _ _ Hmsg Hi) as (m' & Hi' & Hsame).
    exists m'. split; [by eapply list_elem_of_lookup_2|done]. }
  assert (Hrow' : ∀ m', m' ∈ messages st' → ∃ m, m ∈ messages st ∧ same_row m m').
  { intros m' (i & Hi)%list_elem_of_lookup.
    destruct (Forall2_lookup_r _ _ _ _ _ Hmsg Hi) as (m & Hi' & Hsame).
    exists m. split; [by eapply list_elem_of_lookup_2|done]. }
  split.
  - intros id ws Hc. eapply lookup_weaken in Hc; [|exact Hconn].
    specialize (Hbound _ _ Hc).
    destruct (sockets st !! ws) as [s|] eqn:Hs; [|done].
    destruct (Forall2_lookup_l _ _ _ _ _ Hsock Hs) as (s' & -> & [Hb _]).
    simpl in *. congruence.
  - intros ws s' id (s & Hs & [Hb _])%Hback Hid. rewrite Hb in Hid.
    destruct (Hreg _ _ _ Hs Hid) as [Hne [t Ht]]. split; [done|].
    exists t. by eapply lookup_weaken.
  - intros ws s' p (s & Hs & [Hb Hp])%Hback Hin. rewrite Hp in Hin.
    destruct (Hsent _ _ _ Hs Hin) as (Hto & m & Hm & Hd & Hbuild).
    split; [congruence|].
    destruct (Hrow _ Hm) as (m' & Hm' & Hrow'' & Hd'). exists m'.
    split_and!; [done|auto|by rewrite Hrow''].
  - intros m' (m & Hm & Hrow'' & _)%Hrow'. rewrite Hrow''.
    destruct (Hrows _ Hm) as [Hvalid [t Ht]]. split; [done|].
    exists t. by eapply lookup_weaken.
Qed.


Lemma push_row_inv ws net row st st' :
  push_row ws net row st = Some st' →
  ∃ p s, buildMessagePayload row = Some p ∧ sockets st !! ws = Some s ∧
    st' = stmtMsgMarkDelivered (row_id row)
            (set_sockets (λ h, <[ws := mkWebSocket (readyState s) (boundTo s) (closeCall s)
                                         (sent s ++ [p])]> h) st).
Proof.
  unfold push_row, sendWsMessage. intros Hpush.
  destruct (buildMessagePayload row) as [p|]; [|done]. simpl in Hpush.
  destruct (sockets st !! ws) as [s|]; [|done].
  destruct (_ && _); [|done]. simpl in Hpush. injection Hpush as <-. by exists p, s.
Qed.

(** A push of a stored row on a socket installed for its recipient. *)
Lemma push_row_consistent ws net row st st' :
  consistent st →
  boundTo <$> sockets st !! ws = Some (Some (to_id row)) →
  row ∈ stored_row <$> messages st →
  push_row ws net row st = Some st' →
  consistent st'.
Proof.
  intros Hst Hws Hrow (p & s & Hp & Hs & ->)%push_row_inv.
  pose proof Hst as [Hbound Hreg Hsent Hrows].
  rewrite Hs in Hws. simpl in Hws. injection Hws as Hws.
  assert (Hto : p_to p = to_id row).
  { unfold buildMessagePayload in Hp.
    destruct (JSON_parse (envelope_json row)); [|done]. by injection Hp as <-. }
  split; simpl.
  - intros id w Hc. specialize (Hbound _ _ Hc).
    destruct (decide (ws = w)) as [<-|Hne].
    + rewrite list_lookup_insert_eq by (by eapply lookup_lt_Some).
      by rewrite Hs in Hbound.
    + by rewrite list_lookup_insert_ne.
  - intros w s' id Hs' Hid. destruct (decide (ws = w)) as [<-|Hne].
    + rewrite list_lookup_insert_eq in Hs' by (by eapply lookup_lt_Some).
      injection Hs' as <-. by eapply Hreg.
    + rewrite list_lookup_insert_ne in Hs' by done. by eapply Hreg.
  - assert (Hold : ∀ w s0 p0, sockets st !! w = Some s0 → p0 ∈ sent s0 →
              boundTo s0 = Some (p_to p0) ∧
              ∃ m, m ∈ mark (row_id row) <$> messages st ∧ delivered m = true ∧
                   buildMessagePayload (stored_row m) = Some p0).
    { intros w s0 p0 Hs0 Hin.
      destruct (Hsent _ _ _ Hs0 Hin) as (Hto0 & m & Hm & Hd & Hbuild). split; [done|].
      exists (mark (row_id row) m). split_and!.
      - by apply list_elem_of_fmap_2.
      - unfold mark. by case_bool_decide.
      - unfold mark. by case_bool_decide. }
    intros w s' p0 Hs' Hin. destruct (decide (ws = w)) as [<-|Hne].
    + rewrite list_lookup_insert_eq in Hs' by (by eapply lookup_lt_Some).
      injection Hs' as <-. simpl in *.
      apply elem_of_app in Hin as [Hin|Hin%list_elem_of_singleton]; [by eapply Hold|].
      subst p0.
      split; [congruence|].
      apply list_elem_of_fmap in Hrow as (m & -> & Hm).
      exists (mark (row_id (stored_row m)) m). split_and!.
      * by apply list_elem_of_fmap_2.
      * unfold mark. by rewrite bool_decide_eq_true_2.
      * unfold mark. by case_bool_decide.
    + rewrite list_lookup_insert_ne in Hs' by done. by eapply Hold.
  - intros m' (m & -> & Hm)%list_elem_of_fmap.
    replace (stored_row (mark (row_id row) m)) with (stored_row m)
      by (unfold mark; by case_bool_decide).
    by apply Hrows.
Qed.

Lemma push_row_bound ws net row st st' w :
  push_row ws net row st = Some st' →
  boundTo <$> sockets st' !! w = boundTo <$> sockets st !! w.
Proof.
  intros (p & s & Hp & Hs & ->)%push_row_inv. simpl.
  destruct (decide (ws = w)) as [<-|Hne].
  - rewrite list_lookup_insert_eq by (by eapply lookup_lt_Some). by rewrite Hs.
  - by rewrite list_lookup_insert_ne.
Qed.

Lemma push_row_rows ws net row st st' :
  push_row ws net row st = Some st' →
  stored_row <$> messages st' = stored_row <$> messages st.
Proof.
  intros (p & s & Hp & Hs & ->)%push_row_inv. simpl.
  rewrite <- list_fmap_compose. apply list_fmap_ext. intros _ m _. simpl.
  unfold mark. by case_bool_decide.
Qed.

Lemma deliver_rows_consistent ws net rows st :
  consistent st →
  (∀ row, row ∈ rows →
     boundTo <$> sockets st !! ws = Some (Some (to_id row)) ∧
     row ∈ stored_row <$> messages st) →
  consistent (deliver_rows ws net rows st).
Proof.
  revert st. induction rows as [|row rest IH]; intros st Hst Hrows; simpl; [done|].
  destruct (push_row ws (net row) row st) as [st'|] eqn:Hpush; [|done].
  destruct (Hrows row) as [Hws Hin]; [by left|].
  apply IH; [by eapply push_row_consistent|].
  intros r Hr. destruct (Hrows r) as [Hws' Hin']; [by right|].
  by rewrite (push_row_bound _ _ _ _ _ _ Hpush), (push_row_rows _ _ _ _ _ Hpush).
Qed.


Lemma append_row_consistent row st :
  consistent st →
  valid_row row → is_Some (users st !! to_id row) →
  consistent (set_messages (λ ms, ms ++ [mkStored row false]) st).
Proof.
  intros [Hbound Hreg Hsent Hrows] Hvalid Hto. split; simpl; [done..| |].
  - intros ws s p Hs Hin. destruct (Hsent _ _ _ Hs Hin) as (Hp & m & Hm & Hd & Hbuild).
    split; [done|]. exists m. split_and!; [|done..]. apply elem_of_app. by left.
  - intros m [Hm|Hm%list_elem_of_singleton]%elem_of_app; [by apply Hrows|by subst m].
Qed.

Lemma deliverIfConnected_consistent row net st :
  consistent st → row ∈ stored_row <$> messages st →
  consistent (deliverIfConnected row net st).1.
Proof.
  intros Hst Hrow. unfold deliverIfConnected.
  destruct (connections st !! to_id row) as [ws|] eqn:Hc; [|done].
  destruct (negb (is_open ws st)); [done|].
  destruct (push_row ws net row st) as [st'|] eqn:Hpush; [|done]. simpl.
  eapply push_row_consistent; [done| |done..]. by apply (entries_bound _ Hst).
Qed.

Lemma accept_socket_consistent st : consistent st → consistent (accept_socket st).2.
Proof.
  intros [Hbound Hreg Hsent Hrows]. split; simpl; [| | |done].
  - intros id ws Hc. specialize (Hbound _ _ Hc).
    destruct (sockets st !! ws) as [s|] eqn:Hs; [|done].
    by rewrite (lookup_app_l_Some _ _ _ _ Hs).
  - intros ws s id [Hs|[_ Hs]]%lookup_app_Some Hid; [by eapply Hreg|].
    apply list_lookup_singleton_Some in Hs as [_ <-]. done.
  - intros ws s p [Hs|[_ Hs]]%lookup_app_Some Hin; [by eapply Hsent|].
    apply list_lookup_singleton_Some in Hs as [_ <-]. by apply elem_of_nil in Hin.
Qed.

Lemma ws_close_quiet old code reason st :
  connections (ws_close old code reason st) = connections st ∧
  Forall2 same_binding (sockets st) (sockets (ws_close old code reason st)) ∧
  messages (ws_close old code reason st) = messages st ∧
  users (ws_close old code reason st) = users st.
Proof.
  unfold ws_close. destruct (sockets st !! old) as [s|] eqn:Hs.
  - case_bool_decide; simpl; split_and!; try done; [|apply same_binding_refl].
    by eapply same_binding_insert.
  - split_and!; try done. apply same_binding_refl.
Qed.

Lemma supersede_consistent clientId ws st : consistent st → consistent (supersede clientId ws st).
Proof.
  intros Hst. unfold supersede.
  destruct (connections st !! clientId) as [existing|]; [|done].
  case_bool_decide; [|done].
  destruct (ws_close_quiet existing 4000 "superseded" st) as (Hc & Hs & Hm & Hu).
  eapply consistent_quiet; [done|by rewrite Hc|done|rewrite Hm; apply same_row_refl|by rewrite Hu].
Qed.

Lemma supersede_fresh_socket clientId ws st s :
  sockets st !! ws = Some s → boundTo s = None → sent s = [] →
  ∃ s', sockets (supersede clientId ws st) !! ws = Some s' ∧ boundTo s' = None ∧ sent s' = [].
Proof.
  intros Hs Hb Hsent. unfold supersede.
  destruct (connections st !! clientId) as [existing|]; [|by exists s].
  case_bool_decide; [|by exists s].
  destruct (ws_close_quiet existing 4000 "superseded" st) as (_ & Hall & _).
  destruct (Forall2_lookup_l _ _ _ _ _ Hall Hs) as (s' & Hs' & Hb' & Hsent').
  exists s'. split_and!; [done|congruence..].
Qed.

(** Installing a socket that is bound to no id yet and has sent nothing. *)
Lemma install_consistent clientId ws st s :
  consistent st →
  sockets st !! ws = Some s → boundTo s = None → sent s = [] →
  clientId ≠ EmptyString → is_Some (users st !! clientId) →
  consistent (install clientId ws st) ∧
  boundTo <$> sockets (install clientId ws st) !! ws = Some (Some clientId).
Proof.
  intros [Hbound Hreg Hsent Hrows] Hs Hb Hnone Hne Huser.
  assert (Hlt : (ws < length (sockets st))%nat) by (by eapply lookup_lt_Some).
  set (s' := mkWebSocket (readyState s) (Some clientId) (closeCall s) (sent s)).
  assert (Hsock : sockets (install clientId ws st) = <[ws := s']> (sockets st))
    by (unfold install; simpl; by rewrite Hs).
  assert (Hconn : connections (install clientId ws st) = <[clientId := ws]> (connections st))
    by done.
  assert (Hmsg : messages (install clientId ws st) = messages st) by done.
  assert (Husers : users (install clientId ws st) = users st) by done.
  split; [split; rewrite ?Hsock, ?Hconn, ?Hmsg, ?Husers|].
  - intros id w Hc. destruct (decide (id = clientId)) as [->|Hid].
    + rewrite lookup_insert_eq in Hc. injection Hc as <-.
      by rewrite list_lookup_insert_eq.
    + rewrite lookup_insert_ne in Hc by done. specialize (Hbound _ _ Hc).
      destruct (decide (ws = w)) as [<-|Hw].
      * rewrite Hs in Hbound. simpl in Hbound. congruence.
      * by rewrite list_lookup_insert_ne.
  - intros w s0 id Hs0 Hid. destruct (decide (ws = w)) as [<-|Hw].
    + rewrite list_lookup_insert_eq in Hs0 by done. injection Hs0 as <-.
      simpl in Hid. by injection Hid as <-.
    + rewrite list_lookup_insert_ne in Hs0 by done. by eapply Hreg.
  - intros w s0 p Hs0 Hin. destruct (decide (ws = w)) as [<-|Hw].
    + rewrite list_lookup_insert_eq in Hs0 by done. injection Hs0 as <-.
      simpl in Hin. rewrite Hnone in Hin. by apply elem_of_nil in Hin.
    + rewrite list_lookup_insert_ne in Hs0 by done. by eapply Hsent.
  - done.
  - rewrite Hsock. by rewrite list_lookup_insert_eq.
Qed.


Lemma supersede_users clientId ws st : users (supersede clientId ws st) = users st.
Proof. unfold supersede, ws_close. by repeat case_match. Qed.

Lemma set_readyState_quiet ws f st :
  connections (set_readyState ws f st) = connections st ∧
  Forall2 same_binding (sockets st) (sockets (set_readyState ws f st)) ∧
  messages (set_readyState ws f st) = messages st ∧
  users (set_readyState ws f st) = users st.
Proof.
  unfold set_readyState. simpl. split_and!; try done.
  destruct (sockets st !! ws) as [s|] eqn:Hs; [|apply same_binding_refl].
  by eapply same_binding_insert.
Qed.

Lemma listener_consistent ws st : consistent st → consistent (listener ws st).
Proof.
  intros Hst. unfold listener.
  destruct (sockets st !! ws ≫= boundTo) as [clientId|]; [|done].
  case_bool_decide; [|done].
  eapply consistent_quiet; [done|apply delete_subseteq|apply same_binding_refl|
                            apply same_row_refl|done].
Qed.

Lemma set_readyState_consistent ws f st : consistent st → consistent (set_readyState ws f st).
Proof.
  intros Hst. destruct (set_readyState_quiet ws f st) as (Hc & Hs & Hm & Hu).
  eapply consistent_quiet; [done|by rewrite Hc|done|rewrite Hm; apply same_row_refl|by rewrite Hu].
Qed.

Lemma on_connection_consistent clientId net st :
  consistent st → clientId ≠ EmptyString → is_Some (users st !! clientId) →
  consistent (on_connection clientId net st).1.
Proof.
  intros Hst Hne Huser. unfold on_connection, accept_socket, deliverPending.
  cbv beta iota zeta delta [fst snd].
  set (ws := length (sockets st)).
  set (st1 := set_sockets _ st).
  assert (H1 : consistent st1) by apply (accept_socket_consistent st Hst).
  assert (Hs1 : sockets st1 !! ws = Some (mkWebSocket OPEN None None [])).
  { unfold st1, ws. simpl. by rewrite lookup_app_r, Nat.sub_diag by lia. }
  destruct (supersede_fresh_socket clientId ws st1 _ Hs1 eq_refl eq_refl)
    as (s2 & Hs2 & Hb2 & Hsent2).
  pose proof (supersede_consistent clientId ws st1 H1) as H2.
  set (st2 := supersede clientId ws st1) in *.
  assert (Huser2 : is_Some (users st2 !! clientId)).
  { unfold st2. by rewrite supersede_users. }
  destruct (install_consistent clientId ws st2 s2 H2 Hs2 Hb2 Hsent2 Hne Huser2) as [H3 Hb3].
  set (st3 := install clientId ws st2) in *.
  apply deliver_rows_consistent; [done|].
  intros row [Hto Hin]%elem_of_stmtMsgPending. split; [by rewrite Hto|].
  apply list_elem_of_fmap. by exists (mkStored row false).
Qed.

Lemma handle_consistent ev st : consistent st → consistent (handle ev st).1.
Proof.
  intros Hst.
  destruct ev as [i now|i b now|i|from to e uuid now net|clientId net|ws|ws]; simpl.
  - eapply consistent_quiet; [done| | | |apply (handle_users (Register i now))];
      unfold post_register, stmtUserInsert; repeat case_match; simpl;
      first [done|apply same_binding_refl|apply same_row_refl].
  - unfold post_prekeys. repeat case_match; try done. by destruct Hst.
  - unfold get_prekeys. by repeat case_match.
  - unfold post_messages.
    destruct (negb _) eqn:Hschema; [done|].
    destruct (negb (stmtUserExists to st)) eqn:Hreg; [done|].
    unfold stmtMsgInsert. case_bool_decide as Hin; [done|].
    set (row := mkMessageRow _ _ _ _ _). set (st1 := set_messages _ _).
    assert (H1 : consistent st1).
    { apply append_row_consistent; [done| |].
      - apply negb_false_iff in Hschema.
        apply andb_true_iff in Hschema as [[Hfrom Hto]%andb_true_iff Henv].
        unfold min1 in *. apply bool_decide_eq_true in Hfrom, Hto.
        split_and!; [done..|]. exists e. simpl. by rewrite JSON_roundtrip.
      - apply negb_false_iff in Hreg. by apply bool_decide_eq_true in Hreg. }
    pose proof (deliverIfConnected_consistent row net st1 H1) as H2.
    destruct (deliverIfConnected row net st1) as [st2 d]. simpl in *.
    apply H2. unfold st1. simpl. rewrite fmap_app. apply elem_of_app. right.
    by apply list_elem_of_singleton.
  - unfold on_upgrade.
    destruct (negb (min1 clientId)) eqn:Hmin; [done|].
    destruct (negb (stmtUserExists clientId st)) eqn:Hreg; [done|].
    apply on_connection_consistent; [done| |].
    + apply negb_false_iff in Hmin. by apply bool_decide_eq_true in Hmin.
    + apply negb_false_iff in Hreg. by apply bool_decide_eq_true in Hreg.
  - by apply listener_consistent, set_readyState_consistent.
  - by apply listener_consistent, set_readyState_consistent.
Qed.

Lemma run_consistent evs : consistent (run evs init).
Proof.
  induction evs as [|ev evs IH] using rev_ind.
  - split; simpl.
    + intros id ws Hc. by rewrite lookup_empty in Hc.
    + intros ws s p Hs. by rewrite lookup_nil in Hs.
    + intros ws s p Hs. by rewrite lookup_nil in Hs.
    + intros m Hm. by apply elem_of_nil in Hm.
  - rewrite run_snoc. by apply handle_consistent.
Qed.


(** X3. The relay pushes a message only to its recipient: after any run,
    every payload sent on a socket is addressed to the id the socket was
    opened for, that id is registered, and the payload is the sender,
    recipient and envelope of a row of table [messages] that is now
    marked delivered; the envelope passed [EnvelopeSchema]. *)
Theorem pushes_reach_the_recipient (evs : list Event) (ws : nat) (s : WebSocket) (p : Payload) :
  sockets (run evs init) !! ws = Some s →
  p ∈ sent s →
  boundTo s = Some (p_to p) ∧
  stmtUserExists (p_to p) (run evs init) = true ∧
  p_from p ≠ EmptyString ∧ p_to p ≠ EmptyString ∧
  EnvelopeSchema (p_envelope p) = true ∧
  ∃ m, m ∈ messages (run evs init) ∧ delivered m = true ∧
       from_id (stored_row m) = p_from p ∧ to_id (stored_row m) = p_to p ∧
       JSON_parse (envelope_json (stored_row m)) = Some (p_envelope p).
Proof.
  intros Hs Hin. pose proof (run_consistent evs) as Hst.
  destruct (sent_addressed _ Hst _ _ _ Hs Hin) as (Hbound & m & Hm & Hd & Hbuild).
  destruct (rows_valid _ Hst m Hm) as [(Hfrom & Hto & e & He & Hschema) Huser].
  unfold buildMessagePayload in Hbuild. rewrite He in Hbuild. injection Hbuild as <-.
  simpl in *. split_and!; [done|by apply bool_decide_eq_true|done..|].
  exists m. by split_and!.
Qed.

(** X4. A push connection exists only for a registered id: after any
    run, every entry of [connections] has a non-empty, registered id and
    points to a socket the relay installed for that very id. *)
Theorem connections_are_of_registered_ids (evs : list Event) (id : string) (ws : nat) :
  connections (run evs init) !! id = Some ws →
  id ≠ EmptyString ∧
  stmtUserExists id (run evs init) = true ∧
  ∃ s, sockets (run evs init) !! ws = Some s ∧ boundTo s = Some id.
Proof.
  intros Hc. pose proof (run_consistent evs) as Hst.
  pose proof (entries_bound _ Hst _ _ Hc) as Hbound.
  destruct (sockets (run evs init) !! ws) as [s|] eqn:Hs; [|done].
  injection Hbound as Hbound.
  destruct (bound_registered _ Hst _ _ _ Hs Hbound) as [Hne Huser].
  split_and!; [done|by apply bool_decide_eq_true|by exists s].
Qed.

Lemma listener_connections ws st id :
  connections (listener ws st) !! id =
  if bool_decide (sockets st !! ws ≫= boundTo = Some id ∧ connections st !! id = Some ws)
  then None else connections st !! id.
Proof.
  unfold listener. destruct (sockets st !! ws ≫= boundTo) as [clientId|] eqn:Hb.
  - case_bool_decide as Hcur; simpl.
    + destruct (decide (clientId = id)) as [->|Hne].
      * rewrite lookup_delete_eq. by rewrite bool_decide_eq_true_2.
      * rewrite lookup_delete_ne by done.
        rewrite bool_decide_eq_false_2; [done|]. intros [[=] _]. done.
    + rewrite bool_decide_eq_false_2; [done|]. intros [[= ->] ?]. done.
  - rewrite bool_decide_eq_false_2; [done|]. by intros [? _].
Qed.

Lemma set_readyState_bound ws f st w :
  sockets (set_readyState ws f st) !! w ≫= boundTo = sockets st !! w ≫= boundTo.
Proof.
  destruct (set_readyState_quiet ws f st) as (_ & Hall & _).
  destruct (sockets st !! w) as [s|] eqn:Hs.
  - destruct (Forall2_lookup_l _ _ _ _ _ Hall Hs) as (s' & -> & Hb & _). simpl. done.
  - apply Forall2_length in Hall. apply lookup_ge_None in Hs.
    rewrite (proj2 (lookup_ge_None _ _)); [done|]. lia.
Qed.

(** X5. The close and error listeners of a socket remove the entry of
    [connections] only when it is that socket's: after any run, when the
    socket that is current for [id] closes or fails, [id] has no entry
    any more (later messages are queued); when any other socket closes or
    fails, for instance the one [id]'s current socket superseded, the
    entry of [id] stays. *)
Theorem close_unregisters_only_the_current_socket
    (evs : list Event) (id : string) (ws other : nat) :
  connections (run evs init) !! id = Some ws →
  connections (socket_closed ws (run evs init)) !! id = None ∧
  connections (socket_error ws (run evs init)) !! id = None ∧
  (other ≠ ws →
   connections (socket_closed other (run evs init)) !! id = Some ws ∧
   connections (socket_error other (run evs init)) !! id = Some ws).
Proof.
  intros Hc. pose proof (run_consistent evs) as Hst.
  pose proof (entries_bound _ Hst _ _ Hc) as Hbound.
  assert (Hb : sockets (run evs init) !! ws ≫= boundTo = Some id).
  { destruct (sockets (run evs init) !! ws) as [s|]; [|done]. simpl in *. congruence. }
  unfold socket_closed, socket_error. rewrite !listener_connections, !set_readyState_bound.
  split_and!.
  - by rewrite bool_decide_eq_true_2.
  - by rewrite bool_decide_eq_true_2.
  - intros Hne. rewrite !bool_decide_eq_false_2; [done|..]; intros [_ Hcur];
      simpl in Hcur; congruence.
Qed.


(** *** Refusals *)

(** The answers with which a handler turns a request down. *)
Definition refused (r : Response) : bool :=
  match r with
  | Json400_invalid | Json404 _ | Json500 | Ws400 | Ws401 => true
  | _ => false
  end.

(** X6. A request the relay turns down has no effect: whenever a handler
    answers 400, 401, 404 or 500 (schema failure, unknown user or
    recipient, nothing stored, a primary key taken), the tables, the
    connection map and the sockets are what they were. *)
Theorem refused_requests_change_nothing (ev : Event) (st : State) :
  refused (handle ev st).2 = true → (handle ev st).1 = st.
Proof.
  destruct ev as [i now|i b now|i|from to e uuid now net|clientId net|ws|ws]; simpl.
  - unfold post_register. by destruct (negb (min1 i)).
  - unfold post_prekeys. destruct (negb _); [done|]. by destruct (negb _).
  - unfold get_prekeys. by repeat case_match.
  - unfold post_messages. destruct (negb _); [done|]. destruct (negb _); [done|].
    destruct (stmtMsgInsert _ st) as [st1|]; [|done].
    by destruct (deliverIfConnected _ net st1).
  - unfold on_upgrade. destruct (negb _); [done|]. by destruct (negb _).
  - done.
  - done.
Qed.

(** What is stored in [prekeys] passed [PreKeyUploadSchema] for a
    registered id. *)
Definition prekeys_valid (st : State) : Prop :=
  ∀ id text, stmtPrekeyGet id st = Some text →
    id ≠ EmptyString ∧ stmtUserExists id st = true ∧
    ∃ b, text = JSON_stringify b ∧ BundleSchema b = true.

Lemma handle_prekeys_valid ev st : prekeys_valid st → prekeys_valid (handle ev st).1.
Proof.
  intros Hst id text. rewrite handle_prekeys.
  destruct (accepted_publish id ev st) as [b|] eqn:Hacc.
  - intros [= <-]. destruct ev as [| i b' now | | | | |]; try done.
    simpl in Hacc. case_bool_decide as Hid; [|done]. subst i.
    case_bool_decide as Hok; [|done]. injection Hacc as ->.
    unfold post_prekeys in *.
    destruct (negb (min1 id && BundleSchema b)) eqn:Hschema; [done|].
    destruct (negb (stmtUserExists id st)) eqn:Hreg; [done|].
    apply negb_false_iff, andb_true_iff in Hschema as [Hmin Hb].
    apply negb_false_iff in Hreg. apply bool_decide_eq_true in Hmin.
    split_and!; [done|by apply handle_registered|by exists b].
  - intros Htext. destruct (Hst _ _ Htext) as (Hne & Hreg & Hb).
    split_and!; [done| |done]. by apply handle_registered.
Qed.

Lemma run_prekeys_valid evs : prekeys_valid (run evs init).
Proof.
  induction evs as [|ev evs IH] using rev_ind.
  - intros id text. unfold stmtPrekeyGet. simpl. by rewrite lookup_empty.
  - rewrite run_snoc. by apply handle_prekeys_valid.
Qed.

(** X7. Only validated bundles of registered users are served: after any
    run, a bundle that [GET /v1/prekeys/:id] returns passed
    [BundleSchema] when it was published, and [id] is a non-empty,
    registered id. The relay does not compare [id] with the id inside
    the bundle. *)
Theorem served_bundles_are_valid (evs : list Event) (id : string) (b : Bundle) :
  (get_prekeys id (run evs init)).2 = Json200_bundle id b →
  BundleSchema b = true ∧ id ≠ EmptyString ∧ stmtUserExists id (run evs init) = true.
Proof.
  unfold get_prekeys. pose proof (run_prekeys_valid evs id) as Hvalid.
  destruct (stmtPrekeyGet id (run evs init)) as [text|]; [|done].
  destruct (Hvalid text eq_refl) as (Hne & Hreg & b' & -> & Hb).
  rewrite JSON_roundtrip. simpl. by intros [= <-].
Qed.


(** *** [GET /diagnostics] *)

(** [SELECT COUNT(1) FROM users], [... FROM prekeys],
    [... FROM messages WHERE delivered = 0]. *)
Definition stmtUserCount (st : State) : Z := Z.of_nat (size (users st)).
Definition stmtPrekeyCount (st : State) : Z := Z.of_nat (size (prekeys st)).

Definition undelivered (st : State) : list StoredMessage :=
  filter (λ m, delivered m = false) (messages st).

Definition stmtQueuedCount (st : State) : Z := Z.of_nat (length (undelivered st)).

(** One more row for the group of [toId]. *)
Fixpoint count_into (toId : string) (groups : list (string * Z)) : list (string * Z) :=
  match groups with
  | [] => [(toId, 1)]
  | (k, c) :: rest =>
      if bool_decide (k = toId) then (k, c + 1) :: rest else (k, c) :: count_into toId rest
  end.

(** [SELECT to_id, COUNT(1) as count FROM messages WHERE delivered = 0
    GROUP BY to_id]. The groups are listed by first row (SQL leaves
    their order open; the handler's loop does not depend on it). *)
Definition stmtQueueByRecipient (st : State) : list (string * Z) :=
  foldl (λ groups m, count_into (to_id (stored_row m)) groups) [] (undelivered st).

(** [histogram]: the buckets "0", "1-5", "6-20" and "21+". *)
Record Histogram := mkHistogram {
  bucket_0 : Z; bucket_1_5 : Z; bucket_6_20 : Z; bucket_21 : Z
}.

(** The body of the handler's loop over [byRecipient]. *)
Definition tally (h : Histogram) (count : Z) : Histogram :=
  if count <=? 0 then mkHistogram (bucket_0 h + 1) (bucket_1_5 h) (bucket_6_20 h) (bucket_21 h)
  else if count <=? 5 then mkHistogram (bucket_0 h) (bucket_1_5 h + 1) (bucket_6_20 h) (bucket_21 h)
  else if count <=? 20 then mkHistogram (bucket_0 h) (bucket_1_5 h) (bucket_6_20 h + 1) (bucket_21 h)
  else mkHistogram (bucket_0 h) (bucket_1_5 h) (bucket_6_20 h) (bucket_21 h + 1).

Definition queueDepthHistogram (byRecipient : list (string * Z)) : Histogram :=
  foldl (λ h row, tally h row.2) (mkHistogram 0 0 0 0) byRecipient.

(** The body of the answer, without [dbPath] and [metrics], which are
    echoed from the configuration and from the last
    [POST /diagnostics/metrics]. *)
Record Diagnostics := mkDiagnostics {
  uptimeSec : Z;
  count_users : Z;
  count_prekeys : Z;
  queuedMessages : Z;
  activeConnections : Z;
  histogram : Histogram
}.

Definition get_diagnostics (startedAt now : Z) (st : State) : Diagnostics :=
  mkDiagnostics ((now - startedAt) `div` 1000)
    (stmtUserCount st) (stmtPrekeyCount st) (stmtQueuedCount st)
    (Z.of_nat (size (connections st)))
    (queueDepthHistogram (stmtQueueByRecipient st)).

Definition total (groups : list (string * Z)) : Z := foldr (λ row acc, row.2 + acc) 0 groups.

Lemma count_into_total toId groups : total (count_into toId groups) = total groups + 1.
Proof.
  induction groups as [|[k c] rest IH]; simpl; [done|].
  case_bool_decide; simpl; [lia|]. rewrite IH. lia.
Qed.

Lemma count_into_positive toId groups :
  Forall (λ row, 1 ≤ row.2) groups → Forall (λ row, 1 ≤ row.2) (count_into toId groups).
Proof.
  induction 1 as [|[k c] rest Hc Hrest IH]; simpl.
  - by repeat constructor.
  - case_bool_decide; constructor; simpl in *; try done. lia.
Qed.

Lemma count_into_keys toId groups x :
  x ∈ (count_into toId groups).*1 ↔ x = toId ∨ x ∈ groups.*1.
Proof.
  induction groups as [|[k c] rest IH]; simpl.
  - rewrite list_elem_of_singleton, elem_of_nil. tauto.
  - case_bool_decide as Hk; simpl; rewrite !elem_of_cons; [subst k; tauto|].
    rewrite IH. tauto.
Qed.

Lemma count_into_NoDup toId groups : NoDup groups.*1 → NoDup (count_into toId groups).*1.
Proof.
  induction groups as [|[k c] rest IH]; simpl; intros Hnd.
  - apply NoDup_singleton.
  - apply NoDup_cons in Hnd as [Hk Hrest].
    case_bool_decide; simpl; apply NoDup_cons; split; try done; [|by apply IH].
    rewrite count_into_keys. intros [->|?]; done.
Qed.


Lemma group_rows (ms : list StoredMessage) :
  let groups := foldl (λ groups m, count_into (to_id (stored_row m)) groups) [] ms in
  total groups = Z.of_nat (length ms) ∧
  Forall (λ row, 1 ≤ row.2) groups ∧
  NoDup groups.*1 ∧
  ∀ x, x ∈ groups.*1 ↔ ∃ m, m ∈ ms ∧ to_id (stored_row m) = x.
Proof.
  induction ms as [|m ms IH] using rev_ind; simpl.
  - split_and!; [done|done|apply NoDup_nil_2|]. intros x. rewrite elem_of_nil.
    split; [done|]. by intros (m & ?%elem_of_nil & _).
  - rewrite foldl_app. simpl. destruct IH as (Htotal & Hpos & Hnd & Hkeys).
    split_and!.
    + rewrite count_into_total, Htotal, length_app. simpl. lia.
    + by apply count_into_positive.
    + by apply count_into_NoDup.
    + intros x. rewrite count_into_keys, Hkeys. split.
      * intros [->|(m' & Hm' & Hx)].
        -- exists m. split; [|done]. apply elem_of_app. right. by apply list_elem_of_singleton.
        -- exists m'. split; [|done]. apply elem_of_app. by left.
      * intros (m' & [Hm'|Hm'%list_elem_of_singleton]%elem_of_app & Hx).
        -- right. by exists m'.
        -- left. by subst.
Qed.

Lemma tally_positive (groups : list (string * Z)) (h : Histogram) :
  Forall (λ row, 1 ≤ row.2) groups →
  let h' := foldl (λ h row, tally h row.2) h groups in
  bucket_0 h' = bucket_0 h ∧
  bucket_1_5 h' + bucket_6_20 h' + bucket_21 h' =
    bucket_1_5 h + bucket_6_20 h + bucket_21 h + Z.of_nat (length groups).
Proof.
  intros Hpos. revert h. induction Hpos as [|[k c] rest Hc Hrest IH]; intros h; simpl.
  - split; [done|lia].
  - destruct (IH (tally h c)) as [H0 Hsum]. rewrite H0, Hsum. simpl in Hc.
    unfold tally. rewrite (proj2 (Z.leb_gt c 0)) by lia.
    repeat case_match; simpl; split; lia.
Qed.

(** X8. In the answer of [GET /diagnostics], in any state: the bucket
    "0" of the queue-depth histogram is always 0 (a recipient without
    undelivered messages forms no group); the three other buckets add up
    to the number of recipients that have undelivered messages, each
    counted once; the per-recipient counts add up to [queuedMessages];
    and [uptimeSec] is the whole seconds since the start. *)
Theorem diagnostics_histogram (startedAt now : Z) (st : State) :
  let d := get_diagnostics startedAt now st in
  let byRecipient := stmtQueueByRecipient st in
  bucket_0 (histogram d) = 0 ∧
  bucket_1_5 (histogram d) + bucket_6_20 (histogram d) + bucket_21 (histogram d) =
    Z.of_nat (length byRecipient) ∧
  NoDup byRecipient.*1 ∧
  (∀ id, id ∈ byRecipient.*1 ↔
         ∃ m, m ∈ messages st ∧ delivered m = false ∧ to_id (stored_row m) = id) ∧
  total byRecipient = queuedMessages d ∧
  Z.of_nat (length byRecipient) ≤ queuedMessages d ∧
  (startedAt ≤ now → 1000 * uptimeSec d ≤ now - startedAt < 1000 * uptimeSec d + 1000).
Proof.
  intros d byRecipient.
  destruct (group_rows (undelivered st)) as (Htotal & Hpos & Hnd & Hkeys).
  fold (stmtQueueByRecipient st) in Htotal, Hpos, Hnd, Hkeys. fold byRecipient in Htotal, Hpos, Hnd, Hkeys.
  destruct (tally_positive byRecipient (mkHistogram 0 0 0 0) Hpos) as [H0 Hsum].
  assert (Hle : Z.of_nat (length byRecipient) ≤ total byRecipient).
  { clear -Hpos. unfold total.
    induction Hpos as [|[k c] rest Hc Hrest IH]; [done|].
    rewrite length_cons, Nat2Z.inj_succ. simpl in *. lia. }
  assert (Hh : histogram d = foldl (λ h row, tally h row.2) (mkHistogram 0 0 0 0) byRecipient)
    by done.
  assert (Hq : queuedMessages d = Z.of_nat (length (undelivered st))) by done.
  split_and!.
  - by rewrite Hh, H0.
  - rewrite Hh, Hsum. simpl. lia.
  - done.
  - intros id. rewrite Hkeys. unfold undelivered.
    setoid_rewrite list_elem_of_filter. split.
    + intros (m & [Hd Hm] & Hx). by exists m.
    + intros (m & Hm & Hd & Hx). by exists m.
  - by rewrite Hq.
  - rewrite Hq. lia.
  - intros Hstart. unfold d, get_diagnostics. simpl.
    pose proof (Z.div_mod (now - startedAt) 1000).
    pose proof (Z.mod_pos_bound (now - startedAt) 1000). lia.
Qed.


(** X30. A submitted message is pushed at once exactly when the
    recipient's entry in [connections] is a socket that is OPEN and the
    send goes through: then [delivered] is [true], the payload is
    appended to what was sent on that socket, once, and nothing is sent
    on any other socket; otherwise [delivered] is [false] and no socket
    is touched (the row waits for the next connect). *)
Theorem live_delivery (st : State) (from to : string) (e : Envelope)
    (uuid : string) (now : Z) (net : bool) :
  min1 from && min1 to && EnvelopeSchema e = true →
  stmtUserExists to st = true →
  uuid ∉ ids st →
  let after := post_messages from to e uuid now net st in
  let delivered :=
    match connections st !! to with
    | Some ws => is_open ws st && net
    | None => false
    end in
  after.2 = Json200_queued delivered ∧
  (delivered = true →
   ∃ ws, connections st !! to = Some ws ∧
         sent_on ws after.1 = sent_on ws st ++ [mkPayload from to e] ∧
         ∀ w, w ≠ ws → sockets after.1 !! w = sockets st !! w) ∧
  (delivered = false → sockets after.1 = sockets st).
Proof.
  intros Hvalid Hreg Hfresh. unfold post_messages. rewrite Hvalid, Hreg. simpl.
  unfold stmtMsgInsert. rewrite bool_decide_eq_false_2 by done.
  set (row := mkMessageRow uuid to from (JSON_stringify e) now).
  set (st1 := set_messages _ st).
  unfold deliverIfConnected. simpl.
  destruct (connections st !! to) as [ws|] eqn:Hc; [|by split_and!].
  assert (Hopen : is_open ws st1 = is_open ws st) by done. rewrite Hopen.
  destruct (is_open ws st) eqn:Ho; simpl; [|by split_and!].
  unfold is_open in Ho. destruct (sockets st !! ws) as [s|] eqn:Hs; [|done].
  assert (Hpush : push_row ws net row st1 =
            if net then
              Some (stmtMsgMarkDelivered uuid
                      (set_sockets (λ h, <[ws := mkWebSocket (readyState s) (boundTo s)
                                                   (closeCall s)
                                                   (sent s ++ [mkPayload from to e])]> h) st1))
            else None).
  { unfold push_row, row. rewrite buildMessagePayload_stringify. simpl.
    unfold sendWsMessage. simpl. rewrite Hs, Ho. by destruct net. }
  rewrite Hpush. destruct net; simpl; [|by split_and!].
  split_and!; [done| |done]. intros _. exists ws. split_and!; [done| |].
  - unfold sent_on. simpl. rewrite list_lookup_insert_eq by (by eapply lookup_lt_Some).
    by rewrite Hs.
  - intros w Hne. by rewrite list_lookup_insert_ne.
Qed.


End WithJson.

(** *** A concrete relay

    The reference codecs, and runs of the server with them. *)
Definition reference_envelope_codec : Json Envelope := countable_json.
Definition reference_bundle_codec : Json Bundle := countable_json.

Definition hello (t : Z) : Envelope :=
  mkEnvelope 1 "bob" "alice" "bob::alice" 1 "aGVsbG8=" t.

Definition two_users : list Event := [Register "alice" 1; Register "bob" 2].

Definition always : MessageRow → bool := λ _, true.

Definition a_bundle (k : Z) : Bundle :=
  mkBundle "alice" 1 42 "BQ==" (mkSignedPreKeyPart k "cHVi" "c2ln") (mkPreKeyPart k "cHVi")
    (mkKyberPreKeyPart k "cHVi" "c2ln").



Lemma submit_not_registered_or_queued_witness :
  let codec := reference_envelope_codec in
  let st := @run codec reference_bundle_codec two_users init in
  (@post_messages codec "bob" "carol" (hello 1000) "m1" 1000 true st
   = (st, Json404 "Recipient not registered.")) ∧
  ∃ delivered : bool,
    (@post_messages codec "bob" "alice" (hello 1000) "m1" 1000 true st).2
    = Json200_queued delivered ∧
    messages (@post_messages codec "bob" "alice" (hello 1000) "m1" 1000 true st).1
    = messages st ++
      [mkStored (mkMessageRow "m1" "alice" "bob" (JSON_stringify (hello 1000)) 1000) delivered].
Proof.
  intros codec st. split.
  - assert (min1 "bob" && min1 "carol" && EnvelopeSchema (hello 1000) = true) as Hvalid
      by reflexivity.
    apply (@submit_not_registered_or_queued codec st "bob" "carol" (hello 1000) "m1" 1000 true Hvalid).
    reflexivity.
  - assert (min1 "bob" && min1 "alice" && EnvelopeSchema (hello 1000) = true) as Hvalid
      by reflexivity.
    assert (stmtUserExists "alice" st = true) as Hreg by reflexivity.
    assert ("m1" ∉ ids st) as Hfresh by (vm_compute; apply not_elem_of_nil).
    destruct (proj2 (@submit_not_registered_or_queued codec st "bob" "alice" (hello 1000)
                       "m1" 1000 true Hvalid) Hreg Hfresh)
      as (delivered & Hresp & Hmsgs & _).
    exists delivered. split; [exact Hresp|exact Hmsgs].
Defined.

Lemma fetch_returns_latest_bundle_witness :
  let codec := reference_bundle_codec in
  let st := @run reference_envelope_codec codec two_users init in
  let st1 := (@post_prekeys codec "alice" (a_bundle 7) 10 st).1 in
  let st2 := (@post_prekeys codec "alice" (a_bundle 8) 11 st1).1 in
  (@post_prekeys codec "alice" (a_bundle 8) 11 st1).2 = Json200_ok ∧
  @get_prekeys codec "alice" st2 = (st2, Json200_bundle "alice" (a_bundle 8)).
Proof.
  intros codec st st1 st2.
  assert ((@post_prekeys codec "alice" (a_bundle 8) 11 st1).2 = Json200_ok) as Hok
    by reflexivity.
  split; [exact Hok|].
  exact (proj2 (@fetch_returns_latest_bundle reference_envelope_codec codec two_users "alice")
           (a_bundle 7) (a_bundle 8) 10 11 Hok).
Defined.

(** Alice connects, then Bob writes to her. *)
Definition a_day : list Event :=
  two_users ++ [Connect "alice" always; Submit "bob" "alice" (hello 1000) "m1" 1000 true].

Lemma pushes_reach_the_recipient_witness :
  let st := @run reference_envelope_codec reference_bundle_codec a_day init in
  let s := mkWebSocket OPEN (Some "alice") None [mkPayload "bob" "alice" (hello 1000)] in
  sockets st !! 0%nat = Some s ∧
  boundTo s = Some "alice" ∧
  ∃ m, m ∈ messages st ∧ delivered m = true ∧ from_id (stored_row m) = "bob".
Proof.
  intros st s.
  assert (Hs : sockets st !! 0%nat = Some s) by (vm_compute; reflexivity).
  assert (Hin : mkPayload "bob" "alice" (hello 1000) ∈ sent s) by (simpl; left).
  destruct (@pushes_reach_the_recipient reference_envelope_codec reference_bundle_codec
              a_day 0%nat s _ Hs Hin) as (Hbound & _ & _ & _ & _ & m & Hm & Hd & Hfrom & _).
  split; [exact Hs|]. split; [exact Hbound|]. exists m. by split_and!.
Defined.

Lemma connections_are_of_registered_ids_witness :
  let st := @run reference_envelope_codec reference_bundle_codec a_day init in
  connections st !! "alice" = Some 0%nat ∧ stmtUserExists "alice" st = true.
Proof.
  intros st.
  assert (Hc : connections st !! "alice" = Some 0%nat) by (vm_compute; reflexivity).
  destruct (@connections_are_of_registered_ids reference_envelope_codec reference_bundle_codec
              a_day "alice" 0%nat Hc) as (_ & Hreg & _).
  split; [exact Hc|exact Hreg].
Defined.

Lemma close_unregisters_only_the_current_socket_witness :
  let st := @run reference_envelope_codec reference_bundle_codec a_day init in
  connections st !! "alice" = Some 0%nat ∧
  connections (socket_closed 0 st) !! "alice" = None ∧
  connections (socket_closed 1 st) !! "alice" = Some 0%nat.
Proof.
  intros st.
  assert (Hc : connections st !! "alice" = Some 0%nat) by (vm_compute; reflexivity).
  destruct (@close_unregisters_only_the_current_socket reference_envelope_codec
              reference_bundle_codec a_day "alice" 0%nat 1%nat Hc) as (Hclosed & _ & Hother).
  split; [exact Hc|]. split; [exact Hclosed|]. apply Hother. discriminate.
Defined.

Lemma refused_requests_change_nothing_witness :
  let st := @run reference_envelope_codec reference_bundle_codec a_day init in
  let ev := Submit "bob" "carol" (hello 1000) "m2" 1001 true in
  (@handle reference_envelope_codec reference_bundle_codec ev st).2 =
    Json404 "Recipient not registered." ∧
  (@handle reference_envelope_codec reference_bundle_codec ev st).1 = st.
Proof.
  intros st ev. split; [vm_compute; reflexivity|].
  apply (@refused_requests_change_nothing reference_envelope_codec reference_bundle_codec ev st).
  vm_compute. reflexivity.
Defined.

Lemma served_bundles_are_valid_witness :
  let evs := two_users ++ [PublishBundle "alice" (a_bundle 7) 10] in
  let st := @run reference_envelope_codec reference_bundle_codec evs init in
  (@get_prekeys reference_bundle_codec "alice" st).2 = Json200_bundle "alice" (a_bundle 7) ∧
  BundleSchema (a_bundle 7) = true.
Proof.
  intros evs st.
  assert (Hget : (@get_prekeys reference_bundle_codec "alice" st).2 =
                 Json200_bundle "alice" (a_bundle 7)) by (vm_compute; reflexivity).
  destruct (@served_bundles_are_valid reference_envelope_codec reference_bundle_codec
              evs "alice" (a_bundle 7) Hget) as (Hvalid & _).
  split; [exact Hget|exact Hvalid].
Defined.


Lemma live_delivery_witness :
  let st := @run reference_envelope_codec reference_bundle_codec
              (two_users ++ [Connect "alice" always]) init in
  (@post_messages reference_envelope_codec "bob" "alice" (hello 1000) "m1" 1000 true st).2 =
    Json200_queued true ∧
  (@post_messages reference_envelope_codec "bob" "alice" (hello 1000) "m1" 1000 false st).2 =
    Json200_queued false.
Proof.
  intros st.
  assert (Hvalid : min1 "bob" && min1 "alice" && EnvelopeSchema (hello 1000) = true)
    by reflexivity.
  assert (Hreg : stmtUserExists "alice" st = true) by reflexivity.
  assert (Hfresh : "m1" ∉ ids st) by (vm_compute; apply not_elem_of_nil).
  split.
  - exact (proj1 (@live_delivery reference_envelope_codec st "bob" "alice" (hello 1000)
                    "m1" 1000 true Hvalid Hreg Hfresh)).
  - exact (proj1 (@live_delivery reference_envelope_codec st "bob" "alice" (hello 1000)
                    "m1" 1000 false Hvalid Hreg Hfresh)).
Defined.


End Relay.

(** ** Values, their JSON text and AES-256-GCM (packages/signal-core/src/crypto.ts) *)
Module Crypto.

Abbreviation bytes := (list byte).

Global Instance byte_eq_dec : EqDecision byte := Byte.byte_eq_dec.

(** What a thrown exception is, as far as the callers tell them apart. *)
Inductive Error :=
| TamperOrWrongPassphrase    (* the decipher rejects the authentication tag *)
| SyntaxError                (* JSON.parse, or Buffer.from in the reviver, throws *)
| MaterialNotFound (what : string) (id : Z)   (* "PreKey 7 not found" and the like *)
| NotInitialized (message : string)
| SessionNotFound (address : string)         (* libsignal: no session for the address *)
| Unsupported (type : Z)                     (* "Unsupported ciphertext type" *)
| LibraryError (message : string).

Inductive Result (A : Type) := Ok (a : A) | Err (e : Error).
Arguments Ok {A} a.
Arguments Err {A} e.

Definition of_option {A} (e : Error) (o : option A) : Result A :=
  match o with Some a => Ok a | None => Err e end.

Definition result_map {A B} (f : A → B) (r : Result A) : Result B :=
  match r with Ok a => Ok (f a) | Err e => Err e end.

(** The binary objects [encodeValue] meets: an [ArrayBuffer], a
    [Uint8Array], another view ([DataView], the other typed arrays), and
    Node's [Buffer] (a view that has a [toJSON] method). *)
Inductive BinaryKind := ArrayBufferK | Uint8ArrayK | OtherViewK | NodeBufferK.

Global Instance BinaryKind_eq_dec : EqDecision BinaryKind.
Proof. solve_decision. Defined.

(** The trees JSON text denotes. Numbers are the integers: the stores
    write counters, ids and millisecond clocks. *)
#[local] Unset Elimination Schemes.
Inductive json :=
| JNull
| JBool (b : bool)
| JNum (n : Z)
| JStr (s : string)
| JArr (items : list json)
| JObj (fields : list (string * json)).

(** The values handed to [encodeValue] and returned by [decodeValue]. The
    keys of an object are distinct. *)
Inductive value :=
| VNull
| VBool (b : bool)
| VNum (n : Z)
| VStr (s : string)
| VArr (items : list value)
| VObj (fields : list (string * value))
| VBin (kind : BinaryKind) (data : bytes).
#[local] Set Elimination Schemes.

(** Induction on values, through the lists of an array and of an object. *)
Fixpoint value_ind (P : value → Prop)
    (Hnull : P VNull) (Hbool : ∀ b, P (VBool b)) (Hnum : ∀ n, P (VNum n))
    (Hstr : ∀ s, P (VStr s))
    (Harr : ∀ items, Forall P items → P (VArr items))
    (Hobj : ∀ fields, Forall (λ kv, P kv.2) fields → P (VObj fields))
    (Hbin : ∀ kind data, P (VBin kind data))
    (v : value) : P v :=
  match v with
  | VNull => Hnull
  | VBool b => Hbool b
  | VNum n => Hnum n
  | VStr s => Hstr s
  | VArr items =>
      Harr items
        ((fix go (l : list value) : Forall P l :=
            match l with
            | [] => Forall_nil_2 P
            | x :: l' =>
                Forall_cons_2 P x l' (value_ind P Hnull Hbool Hnum Hstr Harr Hobj Hbin x) (go l')
            end) items)
  | VObj fields =>
      Hobj fields
        ((fix go (l : list (string * value)) : Forall (λ kv, P kv.2) l :=
            match l with
            | [] => Forall_nil_2 _
            | kv :: l' =>
                Forall_cons_2 (λ kv, P kv.2) kv l'
                  (value_ind P Hnull Hbool Hnum Hstr Harr Hobj Hbin kv.2) (go l')
            end) fields)
  | VBin kind data => Hbin kind data
  end.

Fixpoint json_ind (P : json → Prop)
    (Hnull : P JNull) (Hbool : ∀ b, P (JBool b)) (Hnum : ∀ n, P (JNum n))
    (Hstr : ∀ s, P (JStr s))
    (Harr : ∀ items, Forall P items → P (JArr items))
    (Hobj : ∀ fields, Forall (λ kv, P kv.2) fields → P (JObj fields))
    (j : json) : P j :=
  match j with
  | JNull => Hnull
  | JBool b => Hbool b
  | JNum n => Hnum n
  | JStr s => Hstr s
  | JArr items =>
      Harr items
        ((fix go (l : list json) : Forall P l :=
            match l with
            | [] => Forall_nil_2 P
            | x :: l' => Forall_cons_2 P x l' (json_ind P Hnull Hbool Hnum Hstr Harr Hobj x) (go l')
            end) items)
  | JObj fields =>
      Hobj fields
        ((fix go (l : list (string * json)) : Forall (λ kv, P kv.2) l :=
            match l with
            | [] => Forall_nil_2 _
            | kv :: l' =>
                Forall_cons_2 (λ kv, P kv.2) kv l'
                  (json_ind P Hnull Hbool Hnum Hstr Harr Hobj kv.2) (go l')
            end) fields)
  end.

(** [obj.key] for an own property. *)
Fixpoint property {A} (key : string) (fields : list (string * A)) : option A :=
  match fields with
  | [] => None
  | (k, a) :: rest => if bool_decide (k = key) then Some a else property key rest
  end.

(** Node and the JavaScript engine. AES-GCM is counter-mode encryption
    ([gcm_ctr], its own inverse) with a 16-byte tag over the ciphertext
    ([gcm_tag]); [scrypt] is [crypto.scryptSync]; the text functions are
    [Buffer.from(s, "utf8")], [buf.toString("utf8")],
    [buf.toString("base64")], [Buffer.from(s, "base64")], [JSON.stringify]
    and [JSON.parse] on trees. [Buffer_from_other] is [Buffer.from(x,
    "base64")] for an [x] that is not a string ([None] when it throws). *)
Class Runtime := {
  gcm_ctr : bytes → bytes → bytes → bytes;
  gcm_tag : bytes → bytes → bytes → bytes;
  gcm_ctr_involutive : ∀ key iv data, gcm_ctr key iv (gcm_ctr key iv data) = data;
  gcm_tag_length : ∀ key iv data, length (gcm_tag key iv data) = 16%nat;
  scrypt : string → bytes → Z → Z → Z → Z → bytes;
  JSON_text : json → string;
  JSON_tree : string → option json;
  JSON_tree_text : ∀ j, JSON_tree (JSON_text j) = Some j;
  utf8_encode : string → bytes;
  utf8_decode : bytes → string;
  utf8_decode_encode : ∀ j, utf8_decode (utf8_encode (JSON_text j)) = JSON_text j;
  base64_encode : bytes → string;
  base64_decode : string → bytes;
  base64_decode_encode : ∀ data, base64_decode (base64_encode data) = data;
  Buffer_from_other : value → option bytes
}.

Section WithRuntime.
Context {RT : Runtime}.

Definition IV_LENGTH : nat := 12.
Definition TAG_LENGTH : nat := 16.

(** [encryptBuffer]; [iv] is [crypto.randomBytes(IV_LENGTH)]. *)
Definition encryptBuffer (key iv plaintext : bytes) : bytes :=
  let ciphertext := gcm_ctr key iv plaintext in
  let tag := gcm_tag key iv ciphertext in
  iv ++ tag ++ ciphertext.

(** The tag lengths [setAuthTag] accepts for GCM when the decipher was
    created without [authTagLength]. *)
Definition valid_tag_length (n : nat) : bool :=
  bool_decide (n ∈ [4; 8; 12; 13; 14; 15; 16]%nat).

(** Whether [decipher.final()] accepts: the tag set is the computed tag,
    cut to its length. *)
Definition tag_verifies (key iv tag ciphertext : bytes) : bool :=
  valid_tag_length (length tag) &&
  bool_decide (tag = take (length tag) (gcm_tag key iv ciphertext)).

(** [decryptBuffer]. [decipher.update] gives the plaintext bytes;
    [setAuthTag] or [decipher.final()] throws unless the tag verifies, and
    then [Buffer.concat] is never reached. *)
Definition decryptBuffer (key payload : bytes) : Result bytes :=
  let iv := take IV_LENGTH payload in
  let tag := take TAG_LENGTH (drop IV_LENGTH payload) in
  let ciphertext := drop (IV_LENGTH + TAG_LENGTH) payload in
  let updated := gcm_ctr key iv ciphertext in
  if tag_verifies key iv tag ciphertext then Ok updated else Err TamperOrWrongPassphrase.

(** The object the replacer returns for a binary value. *)
Definition tagged (data : bytes) : json :=
  JObj [("__type", JStr "ab"); ("data", JStr (base64_encode data))].

(** [Buffer.prototype.toJSON]: [{ type: "Buffer", data: [...] }]. *)
Definition Buffer_toJSON (data : bytes) : json :=
  JObj [("type", JStr "Buffer"); ("data", JArr ((λ b, JNum (Z.of_N (Byte.to_N b))) <$> data))].

(** The tree [JSON.stringify(value, replacer)] writes. [JSON.stringify]
    calls [toJSON] on a value before it hands it to the replacer, so the
    replacer sees a [Buffer] as the plain object of its [toJSON]; every
    other binary value is an [ArrayBuffer] or a view and is tagged. *)
Fixpoint replaced (v : value) : json :=
  match v with
  | VNull => JNull
  | VBool b => JBool b
  | VNum n => JNum n
  | VStr s => JStr s
  | VArr items => JArr (map replaced items)
  | VObj fields => JObj (map (λ kv, (kv.1, replaced kv.2)) fields)
  | VBin NodeBufferK data => Buffer_toJSON data
  | VBin _ data => tagged data
  end.

(** [encodeValue]. *)
Definition encodeValue (v : value) : string := JSON_text (replaced v).

(** The reviver of [decodeValue], on a value whose parts are revived. *)
Definition reviver (v : value) : option value :=
  match v with
  | VObj fields =>
      match property "__type" fields with
      | Some (VStr t) =>
          if bool_decide (t = "ab") then
            match property "data" fields with
            | Some (VStr text) => Some (VBin Uint8ArrayK (base64_decode text))
            | Some other => VBin Uint8ArrayK <$> Buffer_from_other other
            | None => None
            end
          else Some v
      | _ => Some v
      end
  | _ => Some v
  end.

(** [JSON.parse(text, reviver)] on the tree of the text: the reviver runs
    on the parts first, then on the whole. *)
Fixpoint revived (j : json) : option value :=
  match j with
  | JNull => reviver VNull
  | JBool b => reviver (VBool b)
  | JNum n => reviver (VNum n)
  | JStr s => reviver (VStr s)
  | JArr items =>
      items' ← (fix go (l : list json) : option (list value) :=
                  match l with
                  | [] => Some []
                  | x :: l' => v ← revived x; vs ← go l'; Some (v :: vs)
                  end) items;
      reviver (VArr items')
  | JObj fields =>
      fields' ← (fix go (l : list (string * json)) : option (list (string * value)) :=
                   match l with
                   | [] => Some []
                   | (k, x) :: l' => v ← revived x; vs ← go l'; Some ((k, v) :: vs)
                   end) fields;
      reviver (VObj fields')
  end.

(** [decodeValue]; [None] when [JSON.parse] or the reviver throws. *)
Definition decodeValue (text : string) : option value :=
  JSON_tree text ≫= revived.

(** [encryptJson]. *)
Definition encryptJson (key iv : bytes) (v : value) : bytes :=
  encryptBuffer key iv (utf8_encode (encodeValue v)).

(** [decryptJson]. *)
Definition decryptJson (key payload : bytes) : Result value :=
  match decryptBuffer key payload with
  | Ok plaintext => of_option SyntaxError (decodeValue (utf8_decode plaintext))
  | Err e => Err e
  end.

(** *** What comes back from [decodeValue] *)

(** The value [decodeValue] rebuilds from the text of [v]: a binary value
    comes back as a [Uint8Array] of the same bytes, except a [Buffer],
    which comes back as the plain object of its [toJSON]. *)
Fixpoint normalized (v : value) : value :=
  match v with
  | VArr items => VArr (map normalized items)
  | VObj fields => VObj (map (λ kv, (kv.1, normalized kv.2)) fields)
  | VBin NodeBufferK data =>
      VObj [("type", VStr "Buffer"); ("data", VArr ((λ b, VNum (Z.of_N (Byte.to_N b))) <$> data))]
  | VBin _ data => VBin Uint8ArrayK data
  | _ => v
  end.

(** An object that looks like the replacer's tag: [__type] is ["ab"]. *)
Definition looks_tagged (fields : list (string * value)) : bool :=
  match property "__type" fields with
  | Some (VStr t) => bool_decide (t = "ab")
  | _ => false
  end.

(** No object inside [v] looks like the replacer's tag. *)
Fixpoint tag_free (v : value) : bool :=
  match v with
  | VArr items => forallb tag_free items
  | VObj fields => negb (looks_tagged fields) && forallb (λ kv, tag_free kv.2) fields
  | _ => true
  end.



Lemma property_map {A B} (f : A → B) key (fields : list (string * A)) :
  property key (map (λ kv, (kv.1, f kv.2)) fields) = f <$> property key fields.
Proof.
  induction fields as [|[k a] fields IH]; simpl; [done|].
  by case_bool_decide.
Qed.

Lemma looks_tagged_normalized fields :
  looks_tagged (map (λ kv, (kv.1, normalized kv.2)) fields) = looks_tagged fields.
Proof.
  unfold looks_tagged. rewrite property_map.
  destruct (property "__type" fields) as [[| | | | | |[] ?]|]; done.
Qed.


Lemma revived_bytes (data : bytes) :
  revived (JArr ((λ b, JNum (Z.of_N (Byte.to_N b))) <$> data)) =
  Some (VArr ((λ b, VNum (Z.of_N (Byte.to_N b))) <$> data)).
Proof.
  simpl.
  assert ((fix go (l : list json) : option (list value) :=
             match l with
             | [] => Some []
             | x :: l' => v ← revived x; vs ← go l'; Some (v :: vs)
             end) ((λ b, JNum (Z.of_N (Byte.to_N b))) <$> data)
          = Some ((λ b, VNum (Z.of_N (Byte.to_N b))) <$> data)) as ->; [|done].
  induction data as [|b data IH]; [done|]. rewrite !fmap_cons. simpl. by rewrite IH.
Qed.

(** The reviver undoes the replacer on values that hold nothing that
    looks like a tag. *)
Lemma revived_replaced v : tag_free v = true → revived (replaced v) = Some (normalized v).
Proof.
  induction v as [| | | |items IH|fields IH|kind data] using value_ind; try done.
  - (* arrays *)
    simpl. intros Hall.
    assert ((fix go (l : list json) : option (list value) :=
               match l with
               | [] => Some []
               | x :: l' => v ← revived x; vs ← go l'; Some (v :: vs)
               end) (map replaced items) = Some (map normalized items)) as ->; [|done].
    induction IH as [|x l Hx _ IHl]; simpl in *; [done|].
    apply andb_true_iff in Hall as [H1 H2]. by rewrite Hx, IHl.
  - (* objects *)
    simpl. intros [Htag Hall]%andb_true_iff.
    assert ((fix go (l : list (string * json)) : option (list (string * value)) :=
               match l with
               | [] => Some []
               | (k, x) :: l' => v ← revived x; vs ← go l'; Some ((k, v) :: vs)
               end) (map (λ kv, (kv.1, replaced kv.2)) fields)
            = Some (map (λ kv, (kv.1, normalized kv.2)) fields)) as ->.
    { clear Htag. induction IH as [|[k x] l Hx _ IHl]; simpl in *; [done|].
      apply andb_true_iff in Hall as [H1 H2]. by rewrite Hx, IHl. }
    simpl. apply negb_true_iff in Htag.
    rewrite <-looks_tagged_normalized in Htag. unfold looks_tagged in Htag.
    destruct (property "__type" _) as [[| | |t| | |]|]; try done.
    by rewrite Htag.
  - (* binary values *)
    intros _. destruct kind; simpl; rewrite ?base64_decode_encode; try done.
    pose proof (revived_bytes data) as Hb. simpl in Hb.
    match type of Hb with ?x ≫= _ = _ => destruct x as [l|] eqn:Hl end; [|done].
    simpl in Hb. injection Hb as ->. done.
Qed.

Lemma decodeValue_encodeValue v :
  tag_free v = true → decodeValue (encodeValue v) = Some (normalized v).
Proof.
  intros Hfree. unfold decodeValue, encodeValue. rewrite JSON_tree_text. simpl.
  by apply revived_replaced.
Qed.


(** *** Encrypting and decrypting *)

Lemma decryptBuffer_encryptBuffer key iv plaintext :
  length iv = IV_LENGTH →
  decryptBuffer key (encryptBuffer key iv plaintext) = Ok plaintext.
Proof.
  intros Hiv. unfold decryptBuffer, encryptBuffer.
  set (ct := gcm_ctr key iv plaintext). set (tag := gcm_tag key iv ct).
  assert (length tag = TAG_LENGTH) as Htag by apply gcm_tag_length.
  assert (take IV_LENGTH (iv ++ tag ++ ct) = iv) as ->.
  { rewrite take_app_le by lia. by rewrite take_ge by lia. }
  assert (drop IV_LENGTH (iv ++ tag ++ ct) = tag ++ ct) as ->.
  { rewrite drop_app_le by lia. by rewrite drop_ge by lia. }
  assert (take TAG_LENGTH (tag ++ ct) = tag) as ->.
  { rewrite take_app_le by lia. by rewrite take_ge by lia. }
  assert (drop (IV_LENGTH + TAG_LENGTH) (iv ++ tag ++ ct) = ct) as ->.
  { rewrite <-drop_drop. rewrite drop_app_le by lia. rewrite (drop_ge iv) by lia. simpl.
    rewrite drop_app_le by lia. by rewrite drop_ge by lia. }
  unfold tag_verifies. fold tag. rewrite Htag.
  rewrite (take_ge tag) by lia.
  rewrite bool_decide_eq_true_2 by done. simpl.
  unfold ct. by rewrite gcm_ctr_involutive.
Qed.

Lemma decryptJson_encryptJson key iv v :
  length iv = IV_LENGTH → tag_free v = true →
  decryptJson key (encryptJson key iv v) = Ok (normalized v).
Proof.
  intros Hiv Hfree. unfold decryptJson, encryptJson.
  rewrite decryptBuffer_encryptBuffer by done.
  unfold encodeValue at 1. rewrite utf8_decode_encode. fold (encodeValue v).
  by rewrite decodeValue_encodeValue.
Qed.

(** *** The buffer layer on its own *)

Lemma payload_parts (iv tag ciphertext : bytes) :
  length iv = IV_LENGTH → length tag = TAG_LENGTH →
  take IV_LENGTH (iv ++ tag ++ ciphertext) = iv ∧
  take TAG_LENGTH (drop IV_LENGTH (iv ++ tag ++ ciphertext)) = tag ∧
  drop (IV_LENGTH + TAG_LENGTH) (iv ++ tag ++ ciphertext) = ciphertext.
Proof.
  intros Hiv Htag. split_and!.
  - rewrite take_app_le by lia. by rewrite take_ge by lia.
  - rewrite drop_app_le by lia. rewrite (drop_ge iv) by lia. simpl.
    rewrite take_app_le by lia. by rewrite take_ge by lia.
  - rewrite <- drop_drop. rewrite drop_app_le by lia. rewrite (drop_ge iv) by lia. simpl.
    rewrite drop_app_le by lia. by rewrite drop_ge by lia.
Qed.

(** X9. [decryptBuffer] on a well-formed payload (12 bytes of nonce, 16
    of tag, then the ciphertext) returns the deciphered bytes exactly
    when the tag is the tag of that nonce and ciphertext under the key,
    and throws otherwise: a changed ciphertext, a changed tag or another
    key are all refused. What [encryptBuffer] wrote under the same key is
    read back, for every plaintext (the empty one too). *)
Theorem decryptBuffer_checks_the_tag (key iv tag ciphertext : bytes) :
  length iv = IV_LENGTH → length tag = TAG_LENGTH →
  decryptBuffer key (iv ++ tag ++ ciphertext) =
    (if bool_decide (tag = gcm_tag key iv ciphertext)
     then Ok (gcm_ctr key iv ciphertext) else Err TamperOrWrongPassphrase) ∧
  (∀ plaintext, decryptBuffer key (encryptBuffer key iv plaintext) = Ok plaintext) ∧
  (∀ key' plaintext,
     gcm_tag key' iv (gcm_ctr key iv plaintext) ≠ gcm_tag key iv (gcm_ctr key iv plaintext) →
     decryptBuffer key' (encryptBuffer key iv plaintext) = Err TamperOrWrongPassphrase).
Proof.
  intros Hiv Htag.
  assert (Hgen : ∀ k t c, length t = TAG_LENGTH →
            decryptBuffer k (iv ++ t ++ c) =
            if bool_decide (t = gcm_tag k iv c) then Ok (gcm_ctr k iv c)
            else Err TamperOrWrongPassphrase).
  { intros k t c Ht. unfold decryptBuffer.
    destruct (payload_parts iv t c Hiv Ht) as (-> & -> & ->).
    unfold tag_verifies. rewrite Ht.
    rewrite take_ge by (rewrite gcm_tag_length; unfold TAG_LENGTH; lia). simpl.
    by case_bool_decide. }
  split_and!.
  - by apply Hgen.
  - intros plaintext. by apply decryptBuffer_encryptBuffer.
  - intros key' plaintext Hne. unfold encryptBuffer.
    rewrite Hgen by apply gcm_tag_length. by rewrite bool_decide_eq_false_2.
Qed.

(** X10. [decryptBuffer] never returns bytes for a payload that is too
    short to hold a nonce and a tag the decipher accepts: under 16 bytes
    (the empty payload included) it throws, whatever the key; and what
    it returns for any payload is the decipherment of the bytes after
    the first 28, never more. *)
Theorem decryptBuffer_short_payload (key payload : bytes) :
  ((length payload < 16)%nat → decryptBuffer key payload = Err TamperOrWrongPassphrase) ∧
  (∀ plaintext, decryptBuffer key payload = Ok plaintext →
     (16 ≤ length payload)%nat ∧
     plaintext = gcm_ctr key (take 12 payload) (drop 28 payload)).
Proof.
  assert (Hshort : (length payload < 16)%nat →
                   valid_tag_length (length (take TAG_LENGTH (drop IV_LENGTH payload))) = false).
  { intros Hlen. rewrite length_take, length_drop. unfold TAG_LENGTH, IV_LENGTH.
    unfold valid_tag_length. apply bool_decide_eq_false.
    rewrite !elem_of_cons, elem_of_nil. lia. }
  split.
  - intros Hlen. unfold decryptBuffer, tag_verifies. by rewrite Hshort.
  - intros plaintext. unfold decryptBuffer, tag_verifies.
    destruct (decide (length payload < 16)%nat) as [Hlen|Hlen].
    + by rewrite Hshort.
    + destruct (_ && _); [|done]. intros [= <-]. split; [lia|done].
Qed.

(** [crypto.timingSafeEqual]: a [RangeError] when the byte lengths
    differ. *)
Definition timingSafeEqual (a b : bytes) : Result bool :=
  if bool_decide (length a = length b) then Ok (bool_decide (a = b))
  else Err (LibraryError "Input buffers must have the same byte length").

(** [buffersEqual]: the right side of [&&] is evaluated only when the
    lengths are equal. *)
Definition buffersEqual (a b : bytes) : Result bool :=
  if bool_decide (length a = length b) then timingSafeEqual a b else Ok false.

(** X11. [buffersEqual] never throws and decides equality of the bytes:
    the length test keeps [timingSafeEqual] from its [RangeError]. *)
Theorem buffersEqual_decides (a b : bytes) :
  buffersEqual a b = Ok (bool_decide (a = b)) ∧
  (length a ≠ length b → ∃ e, timingSafeEqual a b = Err e).
Proof.
  unfold buffersEqual, timingSafeEqual. split.
  - case_bool_decide as Hlen; [done|]. rewrite bool_decide_eq_false_2; [done|].
    by intros ->.
  - intros Hlen. rewrite bool_decide_eq_false_2 by done. by eexists.
Qed.


End WithRuntime.

(** *** A reference runtime

    An instance of [Runtime], to show that its laws can be met: the
    cipher leaves the bytes as they are and the tag is the first 16 bytes
    of key, nonce and ciphertext, padded; the text of a tree is the
    numeral of its code. *)
Fixpoint json_to_tree (j : json) : gen_tree (bool + Z + string) :=
  match j with
  | JNull => GenNode 0 []
  | JBool b => GenLeaf (inl (inl b))
  | JNum n => GenLeaf (inl (inr n))
  | JStr s => GenLeaf (inr s)
  | JArr items => GenNode 1 (map json_to_tree items)
  | JObj fields => GenNode 2 (map (λ kv, GenNode 3 [GenLeaf (inr kv.1); json_to_tree kv.2]) fields)
  end.

Fixpoint tree_to_json (t : gen_tree (bool + Z + string)) : option json :=
  match t with
  | GenLeaf (inl (inl b)) => Some (JBool b)
  | GenLeaf (inl (inr n)) => Some (JNum n)
  | GenLeaf (inr s) => Some (JStr s)
  | GenNode 0 _ => Some JNull
  | GenNode 1 ts =>
      JArr <$> (fix go (l : list (gen_tree (bool + Z + string))) : option (list json) :=
                  match l with
                  | [] => Some []
                  | x :: l' => j ← tree_to_json x; js ← go l'; Some (j :: js)
                  end) ts
  | GenNode 2 ts =>
      JObj <$> (fix go (l : list (gen_tree (bool + Z + string))) : option (list (string * json)) :=
                  match l with
                  | [] => Some []
                  | GenNode 3 [GenLeaf (inr k); x] :: l' =>
                      j ← tree_to_json x; js ← go l'; Some ((k, j) :: js)
                  | _ => None
                  end) ts
  | _ => None
  end.

Lemma tree_to_json_to_tree j : tree_to_json (json_to_tree j) = Some j.
Proof.
  induction j as [| | | |items IH|fields IH] using json_ind; try done.
  - simpl.
    assert ((fix go (l : list (gen_tree (bool + Z + string))) : option (list json) :=
               match l with
               | [] => Some []
               | x :: l' => j ← tree_to_json x; js ← go l'; Some (j :: js)
               end) (map json_to_tree items) = Some items) as ->; [|done].
    induction IH as [|x l Hx _ IHl]; simpl; [done|]. by rewrite Hx, IHl.
  - simpl.
    assert ((fix go (l : list (gen_tree (bool + Z + string))) : option (list (string * json)) :=
               match l with
               | [] => Some []
               | GenNode 3 [GenLeaf (inr k); x] :: l' =>
                   j ← tree_to_json x; js ← go l'; Some ((k, j) :: js)
               | _ => None
               end) (map (λ kv, GenNode 3 [GenLeaf (inr kv.1); json_to_tree kv.2]) fields)
            = Some fields) as ->; [|done].
    induction IH as [|[k x] l Hx _ IHl]; simpl in *; [done|]. by rewrite Hx, IHl.
Qed.

Global Instance json_eq_dec : EqDecision json.
Proof.
  intros x y. destruct (decide (json_to_tree x = json_to_tree y)) as [Heq|Hne].
  - left. apply (f_equal tree_to_json) in Heq. rewrite !tree_to_json_to_tree in Heq. congruence.
  - right. congruence.
Defined.

Global Instance json_countable : Countable json :=
  inj_countable json_to_tree tree_to_json tree_to_json_to_tree.

Definition pad (n : nat) (data : bytes) : bytes := take n (data ++ replicate n x00).

Lemma pad_length n data : length (pad n data) = n.
Proof. unfold pad. rewrite length_take, length_app, length_replicate. lia. Qed.

Program Definition reference_runtime : Runtime := {|
  gcm_ctr key iv data := data;
  gcm_tag key iv data := pad 16 (key ++ iv ++ data);
  scrypt passphrase salt keyLen N r p := pad (Z.to_nat keyLen) (String.list_byte_of_string passphrase ++ salt);
  JSON_text j := JSON_stringify (Json := countable_json) j;
  JSON_tree text := JSON_parse (Json := countable_json) text;
  utf8_encode := String.list_byte_of_string;
  utf8_decode := String.string_of_list_byte;
  base64_encode := String.string_of_list_byte;
  base64_decode := String.list_byte_of_string;
  Buffer_from_other _ := None
|}.
Next Obligation. done. Qed.
Next Obligation. intros. apply pad_length. Qed.
Next Obligation. intros. apply JSON_roundtrip. Qed.
Next Obligation. intros. apply String.string_of_list_byte_of_string. Qed.
Next Obligation. intros. apply String.list_byte_of_string_of_list_byte. Qed.

Lemma decryptBuffer_checks_the_tag_witness :
  let key := pad 32 [x01] in
  let iv := replicate 12 x07 in
  @decryptBuffer reference_runtime key (iv ++ replicate 16 x00 ++ [x68; x69]) =
    Err TamperOrWrongPassphrase ∧
  @decryptBuffer reference_runtime key (@encryptBuffer reference_runtime key iv [x68; x69]) =
    Ok [x68; x69].
Proof.
  intros key iv.
  destruct (@decryptBuffer_checks_the_tag reference_runtime key iv (replicate 16 x00)
              [x68; x69] eq_refl eq_refl) as (Hcheck & Hround & _).
  split; [|apply Hround]. rewrite Hcheck. vm_compute. reflexivity.
Defined.


End Crypto.

(** ** The encrypted record store (packages/signal-core/src/store.ts) *)
Module Store.
Import Crypto.

(** The SQLite file: table [meta] (JSON text) and table [kv] (blobs). *)
Record Database := mkDatabase {
  meta : gmap string string;
  kv : gmap string bytes
}.

(** [class EncryptedStore]: the database and the derived key. *)
Record EncryptedStore := mkStore {
  db : Database;
  key : bytes
}.

(** [type KdfParams]. *)
Record KdfParams := mkKdfParams { salt : string; n : Z; r : Z; p : Z; keyLen : Z }.

Definition META_KDF : string := "kdf".
Definition META_LOCAL_ID : string := "localId".
Definition META_DEVICE_ID : string := "deviceId".
Definition META_REG_ID : string := "registrationId".

Section WithRuntime.
Context {RT : Runtime}.

(** [createKdfParams]; [random] is [crypto.randomBytes(16)]. *)
Definition createKdfParams (random : bytes) : KdfParams :=
  mkKdfParams (base64_encode random) 16384 8 1 32.

(** [deriveKey]. *)
Definition deriveKey (passphrase : string) (params : KdfParams) : bytes :=
  scrypt passphrase (base64_decode (salt params)) (keyLen params) (n params) (r params) (p params).

Definition KdfParams_to_json (params : KdfParams) : json :=
  JObj [("salt", JStr (salt params)); ("n", JNum (n params)); ("r", JNum (r params));
        ("p", JNum (p params)); ("keyLen", JNum (keyLen params))].

Definition KdfParams_of_json (j : json) : option KdfParams :=
  match j with
  | JObj fields =>
      match property "salt" fields, property "n" fields, property "r" fields,
            property "p" fields, property "keyLen" fields with
      | Some (JStr s), Some (JNum n), Some (JNum r), Some (JNum p), Some (JNum l) =>
          Some (mkKdfParams s n r p l)
      | _, _, _, _, _ => None
      end
  | _ => None
  end.

(** [getMeta]: [undefined] for a missing row, else [JSON.parse]. *)
Definition getMeta (d : Database) (k : string) : Result (option json) :=
  match meta d !! k with
  | None => Ok None
  | Some text => result_map Some (of_option SyntaxError (JSON_tree text))
  end.

(** [setMeta]. *)
Definition setMeta (d : Database) (k : string) (j : json) : Database :=
  mkDatabase (<[k := JSON_text j]> (meta d)) (kv d).

(** The constructor: the parameters of the first open are kept in [meta]
    and used again; the key is derived from the passphrase given now.
    Nothing here checks the passphrase. *)
Definition open (d : Database) (passphrase : string) (random : bytes) : Result EncryptedStore :=
  match getMeta d META_KDF with
  | Err e => Err e
  | Ok (Some j) =>
      match KdfParams_of_json j with
      | Some params => Ok (mkStore d (deriveKey passphrase params))
      | None => Err (LibraryError "scrypt: bad parameters")
      end
  | Ok None =>
      let params := createKdfParams random in
      Ok (mkStore (setMeta d META_KDF (KdfParams_to_json params)) (deriveKey passphrase params))
  end.

(** [get]. *)
Definition get (s : EncryptedStore) (k : string) : Result (option value) :=
  match kv (db s) !! k with
  | None => Ok None
  | Some payload => result_map Some (decryptJson (key s) payload)
  end.

(** [set]; [iv] is the nonce [encryptBuffer] draws. *)
Definition set (s : EncryptedStore) (k : string) (v : value) (iv : bytes) : EncryptedStore :=
  mkStore (mkDatabase (meta (db s)) (<[k := encryptJson (key s) iv v]> (kv (db s)))) (key s).

(** [delete]. *)
Definition delete (s : EncryptedStore) (k : string) : EncryptedStore :=
  mkStore (mkDatabase (meta (db s)) (base.delete k (kv (db s)))) (key s).




Lemma get_set_eq (s : EncryptedStore) (k : string) (v : value) (iv : bytes) :
  length iv = IV_LENGTH → tag_free v = true →
  get (set s k v iv) k = Ok (Some (normalized v)).
Proof.
  intros Hiv Hfree. unfold get, set. simpl. rewrite lookup_insert_eq.
  by rewrite decryptJson_encryptJson.
Qed.


(** Reading another key is not affected by [set]. *)
Lemma get_set_ne (s : EncryptedStore) (k k' : string) (v : value) (iv : bytes) :
  k ≠ k' → get (set s k v iv) k' = get s k'.
Proof. intros Hne. unfold get, set. simpl. by rewrite lookup_insert_ne. Qed.


(** *** Opening again, deleting, overwriting *)

Lemma KdfParams_of_to_json params : KdfParams_of_json (KdfParams_to_json params) = Some params.
Proof. by destruct params. Qed.

Lemma getMeta_setMeta d k j : getMeta (setMeta d k j) k = Ok (Some j).
Proof. unfold getMeta, setMeta. simpl. by rewrite lookup_insert_eq, JSON_tree_text. Qed.

Lemma getMeta_setMeta_ne d k k' j : k ≠ k' → getMeta (setMeta d k j) k' = getMeta d k'.
Proof. intros Hne. unfold getMeta, setMeta. simpl. by rewrite lookup_insert_ne. Qed.

(** X12. The parameters of the key derivation are fixed by the first
    open: a store that opened can be opened again on the database it
    left, with the same passphrase and whatever fresh randomness, and is
    the same store with the same key. On a database without
    parameters, the key is scrypt of the passphrase with the drawn salt,
    N = 16384, r = 8, p = 1, 32 bytes, and table [kv] is not touched. *)
Theorem open_again (d : Database) (passphrase : string) (random : bytes) (s : EncryptedStore) :
  open d passphrase random = Ok s →
  (∀ random', open (db s) passphrase random' = Ok s) ∧
  kv (db s) = kv d ∧
  (meta d !! META_KDF = None →
   key s = scrypt passphrase random 32 16384 8 1 ∧
   getMeta (db s) META_KDF = Ok (Some (KdfParams_to_json (createKdfParams random)))).
Proof.
  unfold open. destruct (getMeta d META_KDF) as [[j|]|e] eqn:Hmeta; [| |done].
  - destruct (KdfParams_of_json j) as [params|] eqn:Hparams; [|done].
    intros [= <-]. simpl. split_and!; [|done|].
    + intros random'. by rewrite Hmeta, Hparams.
    + intros Hnone. unfold getMeta in Hmeta. by rewrite Hnone in Hmeta.
  - intros [= <-]. simpl. split_and!; [|done|].
    + intros random'. by rewrite getMeta_setMeta, KdfParams_of_to_json.
    + intros _. split; [|apply getMeta_setMeta].
      unfold deriveKey, createKdfParams. simpl. by rewrite base64_decode_encode.
Qed.

(** X13. [delete(key)] removes the entry whether or not its blob can be
    deciphered: [get] then finds nothing; every other key reads as
    before; table [meta] and the key are untouched; deleting a key that
    is not there changes nothing. *)
Theorem delete_removes (s : EncryptedStore) (k : string) :
  get (delete s k) k = Ok None ∧
  (∀ k', k' ≠ k → get (delete s k) k' = get s k') ∧
  meta (db (delete s k)) = meta (db s) ∧
  key (delete s k) = key s ∧
  (kv (db s) !! k = None → delete s k = s).
Proof.
  unfold get, delete. simpl. split_and!; [|..|done|done|].
  - by rewrite lookup_delete_eq.
  - intros k' Hne. by rewrite lookup_delete_ne.
  - intros Hnone. rewrite delete_id by done. by destruct s as [[]].
Qed.

(** X14. The last write wins and leaves no trace of the one before:
    writing [v2] over [v1] under the same key gives the very store that
    writing [v2] alone gives, [get] returns [v2] (binary parts as
    [Uint8Array]s), no other key and nothing of table [meta] changes,
    and the number of entries grows by at most one. *)
Theorem set_overwrites (s : EncryptedStore) (k : string) (v1 v2 : value) (iv1 iv2 : bytes) :
  length iv2 = IV_LENGTH → tag_free v2 = true →
  set (set s k v1 iv1) k v2 iv2 = set s k v2 iv2 ∧
  get (set (set s k v1 iv1) k v2 iv2) k = Ok (Some (normalized v2)) ∧
  (∀ k', k' ≠ k → get (set (set s k v1 iv1) k v2 iv2) k' = get s k') ∧
  meta (db (set s k v2 iv2)) = meta (db s) ∧
  (size (kv (db (set s k v2 iv2))) ≤ S (size (kv (db s))))%nat.
Proof.
  intros Hiv Hfree.
  assert (Heq : set (set s k v1 iv1) k v2 iv2 = set s k v2 iv2).
  { unfold set. simpl. by rewrite insert_insert_eq. }
  split_and!; [done| | |done|].
  - by apply get_set_eq.
  - intros k' Hne. rewrite Heq. by apply get_set_ne.
  - unfold set. simpl. destruct (kv (db s) !! k) as [old|] eqn:Hk.
    + rewrite <- (insert_delete_id (kv (db s)) k old Hk) at 1.
      rewrite insert_insert_eq, map_size_insert_None by apply lookup_delete_eq.
      rewrite <- (insert_delete_id (kv (db s)) k old Hk) at 2.
      rewrite map_size_insert_None by apply lookup_delete_eq. lia.
    + rewrite map_size_insert_None by done. lia.
Qed.

(** X15. Table [meta] holds the JSON text itself, not a ciphertext:
    [setMeta] stores [JSON.stringify(value)] as it is and [getMeta]
    parses it back; other keys and table [kv] are untouched; a row whose
    text does not parse makes [getMeta] throw, a missing row gives
    [undefined]. *)
Theorem meta_is_plain_json (d : Database) (k : string) (j : json) :
  meta (setMeta d k j) !! k = Some (JSON_text j) ∧
  getMeta (setMeta d k j) k = Ok (Some j) ∧
  (∀ k', k' ≠ k → getMeta (setMeta d k j) k' = getMeta d k') ∧
  kv (setMeta d k j) = kv d ∧
  (meta d !! k = None → getMeta d k = Ok None) ∧
  (∀ text, meta d !! k = Some text → JSON_tree text = None → getMeta d k = Err SyntaxError).
Proof.
  split_and!.
  - apply lookup_insert_eq.
  - apply getMeta_setMeta.
  - intros k' Hne. by apply getMeta_setMeta_ne.
  - done.
  - intros Hnone. unfold getMeta. by rewrite Hnone.
  - intros text Htext Hbad. unfold getMeta. by rewrite Htext, Hbad.
Qed.


(** *** [listKeysByPrefix] *)

(** SQLite's [LIKE] folds the case of the ASCII letters. *)
Definition fold_case (c : ascii) : ascii :=
  let n := nat_of_ascii c in
  if (65 <=? n)%nat && (n <=? 90)%nat then ascii_of_nat (n + 32) else c.

(** [text LIKE pattern], with SQLite's defaults: [%] stands for any run
    of characters, [_] for any one character, every other character for
    itself in either case; there is no escape character. Characters are
    the 8-bit characters of the strings here. *)
Fixpoint like (pattern text : string) : bool :=
  match pattern with
  | EmptyString => bool_decide (text = EmptyString)
  | String c pattern' =>
      if bool_decide (c = "%"%char) then
        (fix run (t : string) : bool :=
           like pattern' t ||
           match t with
           | EmptyString => false
           | String _ t' => run t'
           end) text
      else
        match text with
        | EmptyString => false
        | String d text' =>
            (bool_decide (c = "_"%char) || bool_decide (fold_case c = fold_case d)) &&
            like pattern' text'
        end
  end.

(** [SELECT key FROM kv WHERE key LIKE ?] with [`${prefix}%`], and the
    keys of the rows. SQL leaves the order of the rows open. *)
Definition listKeysByPrefix (s : EncryptedStore) (prefix : string) : list string :=
  filter (λ k, like (prefix +:+ "%") k = true) (map_to_list (kv (db s))).*1.

Lemma like_percent_skip pattern c text :
  like (String "%" pattern) text = true → like (String "%" pattern) (String c text) = true.
Proof. simpl. intros ->. by rewrite orb_true_r. Qed.

Lemma like_percent_here pattern text :
  like pattern text = true → like (String "%" pattern) text = true.
Proof. simpl. destruct text; intros ->; done. Qed.

Lemma like_any text : like "%" text = true.
Proof.
  induction text as [|c text IH]; [done|]. by apply like_percent_skip.
Qed.

(** A text matches the pattern made of any of its prefixes and [%]. *)
Lemma like_prefix prefix rest : like (prefix +:+ "%") (prefix +:+ rest) = true.
Proof.
  induction prefix as [|c prefix IH].
  - apply like_any.
  - change (String c prefix +:+ rest) with (String c (prefix +:+ rest)).
    change (String c prefix +:+ "%") with (String c (prefix +:+ "%")).
    destruct (decide (c = "%"%char)) as [->|Hc].
    + by apply like_percent_skip, like_percent_here.
    + simpl. rewrite (bool_decide_eq_false_2 _ Hc), IH.
      rewrite (bool_decide_eq_true_2 (fold_case c = fold_case c)) by done.
      by rewrite orb_true_r.
Qed.

Lemma elem_of_listKeysByPrefix s prefix k :
  k ∈ listKeysByPrefix s prefix ↔ is_Some (kv (db s) !! k) ∧ like (prefix +:+ "%") k = true.
Proof.
  unfold listKeysByPrefix. rewrite list_elem_of_filter, list_elem_of_fmap. split.
  - intros [Hlike ([k' blob] & -> & Hk%elem_of_map_to_list)]. simpl. by split; [exists blob|].
  - intros [[blob Hblob] Hlike]. split; [done|]. exists (k, blob).
    split; [done|]. by apply elem_of_map_to_list.
Qed.

Lemma listKeysByPrefix_prefix s prefix rest :
  is_Some (kv (db s) !! (prefix +:+ rest)) → prefix +:+ rest ∈ listKeysByPrefix s prefix.
Proof. intros Hk. apply elem_of_listKeysByPrefix. split; [done|apply like_prefix]. Qed.

(** X16. [listKeysByPrefix(prefix)] lists each key of table [kv] at most
    once, and exactly the keys that match [prefix%] under [LIKE]: every
    key that starts with the prefix is listed, a key written with [set]
    appears, a deleted key does not. [LIKE] folds case and reads [%] and
    [_] inside the prefix as wildcards, so other keys can be listed too:
    with the prefix [inbox:], a key [INBOX:7] is. *)
Theorem listKeysByPrefix_lists (s : EncryptedStore) (prefix : string) :
  NoDup (listKeysByPrefix s prefix) ∧
  (∀ k, k ∈ listKeysByPrefix s prefix ↔
        is_Some (kv (db s) !! k) ∧ like (prefix +:+ "%") k = true) ∧
  (∀ rest, is_Some (kv (db s) !! (prefix +:+ rest)) →
           prefix +:+ rest ∈ listKeysByPrefix s prefix) ∧
  (∀ rest v iv, prefix +:+ rest ∈ listKeysByPrefix (set s (prefix +:+ rest) v iv) prefix) ∧
  (∀ k, k ∉ listKeysByPrefix (delete s k) prefix) ∧
  (∀ v iv, "INBOX:7" ∈ listKeysByPrefix (set s "INBOX:7" v iv) "inbox:").
Proof.
  assert (Hin : ∀ s' k, k ∈ listKeysByPrefix s' prefix ↔
                        is_Some (kv (db s') !! k) ∧ like (prefix +:+ "%") k = true)
    by (intros s' k; apply elem_of_listKeysByPrefix).
  split_and!.
  - unfold listKeysByPrefix. apply NoDup_filter, NoDup_fst_map_to_list.
  - apply Hin.
  - intros rest Hk. apply Hin. split; [done|apply like_prefix].
  - intros rest v iv. apply Hin. split; [|apply like_prefix].
    unfold set. simpl. rewrite lookup_insert_eq. by eexists.
  - intros k [[blob Hblob] _]%Hin. unfold delete in Hblob. simpl in Hblob.
    by rewrite lookup_delete_eq in Hblob.
  - intros v iv. unfold listKeysByPrefix. rewrite list_elem_of_filter, list_elem_of_fmap.
    split; [done|]. eexists ("INBOX:7", _). split; [done|].
    apply elem_of_map_to_list. unfold set. simpl. apply lookup_insert_eq.
Qed.


End WithRuntime.


Definition a_store : EncryptedStore :=
  mkStore (mkDatabase ∅ ∅) (pad 32 [x01; x02; x03]).

Definition a_nonce : bytes := replicate 12 x07.

Definition a_record : value :=
  VObj [("usedAt", VNum 1700000000000); ("baseKey", VBin Uint8ArrayK [x05; xff; x00])].




Lemma open_again_witness :
  ∃ s, @open reference_runtime (mkDatabase ∅ ∅) "correct horse" a_nonce = Ok s ∧
       @open reference_runtime (db s) "correct horse" [] = Ok s.
Proof.
  assert (∃ s, @open reference_runtime (mkDatabase ∅ ∅) "correct horse" a_nonce = Ok s)
    as [s Hs] by (eexists; vm_compute; reflexivity).
  exists s. split; [exact Hs|].
  exact (proj1 (@open_again reference_runtime _ _ _ s Hs) []).
Defined.

Lemma set_overwrites_witness :
  (length a_nonce = IV_LENGTH ∧ tag_free a_record = true) ∧
  @get reference_runtime
    (@set reference_runtime (@set reference_runtime a_store "k" (VNum 1) []) "k" a_record a_nonce)
    "k" = Ok (Some a_record).
Proof.
  assert (length a_nonce = IV_LENGTH) as H1 by reflexivity.
  assert (tag_free a_record = true) as H2 by reflexivity.
  split; [by split|].
  exact (proj1 (proj2 (@set_overwrites reference_runtime a_store "k" (VNum 1) a_record []
                         a_nonce H1 H2))).
Defined.


End Store.

(** ** Identity, prekeys, bundles and sessions
    (the adapters of packages/signal-core/src/store.ts and
    packages/signal-core/src/index.ts) *)
Module SignalCore.
Import Crypto Store.

(** *** libsignal's values *)
Record PrivateKey := mkPrivateKey { private_bytes : bytes }.
Record PublicKey := mkPublicKey { public_bytes : bytes }.
Record KEMPublicKey := mkKEMPublicKey { kem_public_bytes : bytes }.
Record KEMKeyPair := mkKEMKeyPair { kem_publicKey : KEMPublicKey; kem_secretKey : bytes }.
Record IdentityKeyPair := mkIdentityKeyPair { publicKey : PublicKey; privateKey : PrivateKey }.
Record PreKeyRecord := mkPreKeyRecord {
  pre_id : Z; pre_publicKey : PublicKey; pre_privateKey : PrivateKey
}.
Record SignedPreKeyRecord := mkSignedPreKeyRecord {
  signed_id : Z; signed_timestamp : Z; signed_publicKey : PublicKey;
  signed_privateKey : PrivateKey; signed_signature : bytes
}.
Record KyberPreKeyRecord := mkKyberPreKeyRecord {
  kyber_id : Z; kyber_timestamp : Z; kyber_keyPair : KEMKeyPair; kyber_signature : bytes
}.
Record SessionRecord := mkSessionRecord { session_bytes : bytes }.
Record ProtocolAddress := mkProtocolAddress { name : string; deviceId : Z }.
Record CiphertextMessage := mkCiphertextMessage { message_type : Z; message_bytes : bytes }.

(** [PreKeyBundle.new(...)], in the order of its arguments. *)
Record PreKeyBundle := mkPreKeyBundle {
  bundle_registrationId : Z;
  bundle_deviceId : Z;
  bundle_preKeyId : Z;
  bundle_preKeyPublic : PublicKey;
  bundle_signedPreKeyId : Z;
  bundle_signedPreKeyPublic : PublicKey;
  bundle_signedPreKeySignature : bytes;
  bundle_identityKey : PublicKey;
  bundle_kyberPreKeyId : Z;
  bundle_kyberPreKeyPublic : KEMPublicKey;
  bundle_kyberPreKeySignature : bytes
}.

(** The ids a prekey message names: one-time prekey (if any), signed
    prekey, post-quantum prekey (if any). *)
Record PreKeyMessageIds := mkPreKeyMessageIds {
  used_preKeyId : option Z; used_signedPreKeyId : Z; used_kyberPreKeyId : option Z
}.

(** [CiphertextMessageType]. *)
Definition CiphertextMessageType_Whisper : Z := 2.
Definition CiphertextMessageType_PreKey : Z := 3.

(** [serialize] and [deserialize] of a libsignal type ([None]: it throws). *)
Class Codec (A : Type) := {
  serialize : A → bytes;
  deserialize : bytes → option A;
  deserialize_serialize : ∀ a, deserialize (serialize a) = Some a
}.

(** libsignal, as far as the repository calls it. Key generation and
    signing use the randomness they are handed; the session functions are
    the computations inside [processPreKeyBundle], [signalEncrypt],
    [signalDecrypt] and [signalDecryptPreKey], without their store
    accesses ([None]: the library throws). *)
Class Libsignal := {
  PublicKey_codec :: Codec PublicKey;
  KEMPublicKey_codec :: Codec KEMPublicKey;
  IdentityKeyPair_codec :: Codec IdentityKeyPair;
  PreKeyRecord_codec :: Codec PreKeyRecord;
  SignedPreKeyRecord_codec :: Codec SignedPreKeyRecord;
  KyberPreKeyRecord_codec :: Codec KyberPreKeyRecord;
  SessionRecord_codec :: Codec SessionRecord;
  PrivateKey_generate : bytes → PrivateKey;
  getPublicKey : PrivateKey → PublicKey;
  sign : PrivateKey → bytes → bytes → bytes;
  KEMKeyPair_generate : bytes → KEMKeyPair;
  IdentityKeyPair_generate : bytes → IdentityKeyPair;
  establish : PrivateKey → Z → PreKeyBundle → option SessionRecord → bytes → option SessionRecord;
  session_encrypt : SessionRecord → bytes → option (SessionRecord * CiphertextMessage);
  session_decrypt : SessionRecord → bytes → option (SessionRecord * bytes);
  PreKeySignalMessage_ids : bytes → option PreKeyMessageIds;
  session_decrypt_prekey :
    option SessionRecord → PrivateKey → SignedPreKeyRecord → option KyberPreKeyRecord →
    option PreKeyRecord → bytes → option (SessionRecord * PublicKey * bytes)
}.

(** *** The process and its store *)

(** The store, the system's randomness (the [k]-th draw is [entropy k])
    and the clock. *)
Record World := mkWorld {
  store : EncryptedStore;
  entropy : nat → nat → byte;
  draws : nat;
  clock : Z
}.

(** A computation that may throw. *)
Definition M (A : Type) : Type := World → Result (A * World).

Definition ret {A} (a : A) : M A := λ w, Ok (a, w).
Definition bind {A B} (m : M A) (f : A → M B) : M B :=
  λ w, match m w with Ok (a, w') => f a w' | Err e => Err e end.
Definition throw {A} (e : Error) : M A := λ _, Err e.

Global Instance M_ret : MRet M := @ret.
Global Instance M_bind : MBind M := λ A B f m, bind m f.

(** The bytes of the [k]-th draw. *)
Definition drawn (w : World) (k : nat) (len : nat) : bytes := map (entropy w k) (seq 0 len).

(** [crypto.randomBytes(len)] and the library's own generator. *)
Definition randomBytes (len : nat) : M bytes :=
  λ w, Ok (drawn w (draws w) len, mkWorld (store w) (entropy w) (S (draws w)) (clock w)).

(** [Date.now()]. *)
Definition Date_now : M Z := λ w, Ok (clock w, w).

Section WithLibrary.
Context {RT : Runtime} {LS : Libsignal}.

Definition lift {A} (r : Result A) : M A :=
  λ w, match r with Ok a => Ok (a, w) | Err e => Err e end.

(** [store.get(key)]. *)
Definition store_get (k : string) : M (option value) := λ w, lift (get (store w) k) w.

(** [store.set(key, value)]. *)
Definition update_store (f : EncryptedStore → EncryptedStore) : M unit :=
  λ w, Ok (tt, mkWorld (f (store w)) (entropy w) (draws w) (clock w)).

Definition store_set (k : string) (v : value) : M unit :=
  iv ← randomBytes IV_LENGTH;
  update_store (λ s, set s k v iv).

(** [store.getMeta(key)] and [store.setMeta(key, value)]. *)
Definition meta_get (k : string) : M (option json) := λ w, lift (getMeta (db (store w)) k) w.

Definition meta_set (k : string) (j : json) : M unit :=
  update_store (λ s, mkStore (setMeta (db s) k j) (key s)).

(** JavaScript's truthiness, for the [!x] tests. *)
Definition truthy (v : value) : bool :=
  match v with
  | VNull => false
  | VBool b => b
  | VNum n => negb (n =? 0)
  | VStr s => negb (bool_decide (s = EmptyString))
  | _ => true
  end.

(** [store.get<Uint8Array>(key)] followed by the [!stored] test: [None]
    when nothing (or something falsy) is stored. What is stored under
    these keys is written by the adapters, as bytes; anything else makes
    the native [deserialize] throw. *)
Definition load (k : string) : M (option bytes) :=
  stored ← store_get k;
  match stored with
  | None => ret None
  | Some v =>
      if truthy v then
        match v with
        | VBin _ data => ret (Some data)
        | _ => throw (LibraryError "deserialize: not a byte array")
        end
      else ret None
  end.

Definition parse `{Codec A} (data : bytes) : M A :=
  lift (of_option (LibraryError "deserialize: bad bytes") (deserialize data)).

(** [store.getValue<number>(key)]: [None] for [undefined] and [null] (the
    callers test with [??]). Only numbers are written under these keys. *)
Definition get_number (k : string) : M (option Z) :=
  stored ← store_get k;
  match stored with
  | None | Some VNull => ret None
  | Some (VNum n) => ret (Some n)
  | Some _ => throw (LibraryError "counter: not a number")
  end.

(** [getLocalId], [getDeviceId], [getRegistrationId] of the store. *)
Definition getLocalId : M (option string) :=
  j ← meta_get META_LOCAL_ID;
  match j with
  | None => ret None
  | Some (JStr s) => ret (Some s)
  | Some _ => throw (LibraryError "localId: not a string")
  end.

Definition meta_number (k : string) : M (option Z) :=
  j ← meta_get k;
  match j with
  | None => ret None
  | Some (JNum n) => ret (Some n)
  | Some _ => throw (LibraryError "meta: not a number")
  end.

Definition getRegistrationId : M (option Z) := meta_number META_REG_ID.

(** [SignalState.getDeviceId]: [this.store.getDeviceId() ?? 1]. *)
Definition getDeviceId : M Z := d ← meta_number META_DEVICE_ID; ret (default 1 d).

Definition setLocalIdentity (id : string) : M unit := meta_set META_LOCAL_ID (JStr id).
Definition setDeviceId (id : Z) : M unit := meta_set META_DEVICE_ID (JNum id).
Definition setRegistrationId (id : Z) : M unit := meta_set META_REG_ID (JNum id).

(** *** The adapters of store.ts *)

(** [address.toString()]: name, a dot, the device id. *)
Definition addressKey (address : ProtocolAddress) : string :=
  name address +:+ "." +:+ pretty (deviceId address).

Definition identityKeyPair_key : string := "local:identityKeyPair".
Definition identity_key (address : ProtocolAddress) : string := "identity:" +:+ addressKey address.
Definition session_key (address : ProtocolAddress) : string := "session:" +:+ addressKey address.
Definition prekey_key (id : Z) : string := "prekey:" +:+ pretty id.
Definition prekey_used_key (id : Z) : string := "prekey:used:" +:+ pretty id.
Definition signedprekey_key (id : Z) : string := "signedprekey:" +:+ pretty id.
Definition kyberprekey_key (id : Z) : string := "kyberprekey:" +:+ pretty id.
Definition kyberprekey_used_key (id : Z) : string := "kyberprekey:used:" +:+ pretty id.

(** [loadIdentityKeyPair] and [saveIdentityKeyPair]. *)
Definition loadIdentityKeyPair : M IdentityKeyPair :=
  data ← load identityKeyPair_key;
  match data with
  | None => throw (NotInitialized "Identity key pair not found. Run 'mega init'.")
  | Some d => parse d
  end.

Definition saveIdentityKeyPair (pair : IdentityKeyPair) : M unit :=
  store_set identityKeyPair_key (VBin Uint8ArrayK (serialize pair)).

(** [SqliteIdentityStore]. *)
Definition getIdentityKey : M PrivateKey := pair ← loadIdentityKeyPair; ret (privateKey pair).

Definition getLocalRegistrationId : M Z :=
  v ← getRegistrationId;
  match v with
  | None => throw (NotInitialized "Registration id not found. Run 'mega init'.")
  | Some n => ret n
  end.

(** [true]: [IdentityChange.ReplacedExisting]. *)
Definition saveIdentity (address : ProtocolAddress) (k : PublicKey) : M bool :=
  stored ← load (identity_key address);
  store_set (identity_key address) (VBin Uint8ArrayK (serialize k));;
  match stored with
  | None => ret false
  | Some d => existing ← parse (A := PublicKey) d; ret (negb (bool_decide (public_bytes existing = public_bytes k)))
  end.

Definition isTrustedIdentity (address : ProtocolAddress) (k : PublicKey) : M bool :=
  stored ← load (identity_key address);
  match stored with
  | None => ret true
  | Some d => existing ← parse (A := PublicKey) d; ret (bool_decide (public_bytes existing = public_bytes k))
  end.

(** [SqliteSessionStore]. *)
Definition saveSession (address : ProtocolAddress) (record : SessionRecord) : M unit :=
  store_set (session_key address) (VBin Uint8ArrayK (serialize record)).

Definition getSession (address : ProtocolAddress) : M (option SessionRecord) :=
  stored ← load (session_key address);
  match stored with
  | None => ret None
  | Some d => record ← parse d; ret (Some record)
  end.

(** [SqlitePreKeyStore]. *)
Definition savePreKey (id : Z) (record : PreKeyRecord) : M unit :=
  store_set (prekey_key id) (VBin Uint8ArrayK (serialize record)).

Definition getPreKey (id : Z) : M PreKeyRecord :=
  stored ← load (prekey_key id);
  match stored with
  | None => throw (MaterialNotFound "PreKey" id)
  | Some d => parse d
  end.

(** The prekey is kept; a marker is written beside it. *)
Definition removePreKey (id : Z) : M unit :=
  now ← Date_now;
  store_set (prekey_used_key id) (VObj [("usedAt", VNum now)]).

(** [SqliteSignedPreKeyStore]. *)
Definition saveSignedPreKey (id : Z) (record : SignedPreKeyRecord) : M unit :=
  store_set (signedprekey_key id) (VBin Uint8ArrayK (serialize record)).

Definition getSignedPreKey (id : Z) : M SignedPreKeyRecord :=
  stored ← load (signedprekey_key id);
  match stored with
  | None => throw (MaterialNotFound "SignedPreKey" id)
  | Some d => parse d
  end.

(** [SqliteKyberPreKeyStore]. *)
Definition saveKyberPreKey (id : Z) (record : KyberPreKeyRecord) : M unit :=
  store_set (kyberprekey_key id) (VBin Uint8ArrayK (serialize record)).

Definition getKyberPreKey (id : Z) : M KyberPreKeyRecord :=
  stored ← load (kyberprekey_key id);
  match stored with
  | None => throw (MaterialNotFound "KyberPreKey" id)
  | Some d => parse d
  end.

Definition markKyberPreKeyUsed (id signedPreKeyId : Z) (baseKey : PublicKey) : M unit :=
  now ← Date_now;
  store_set (kyberprekey_used_key id)
    (VObj [("signedPreKeyId", VNum signedPreKeyId);
           ("baseKey", VBin Uint8ArrayK (serialize baseKey));
           ("usedAt", VNum now)]).

(** *** libsignal's session functions, with their store accesses

    Each takes the address it is given to the session store: it loads the
    session of that address and saves the new session under it. The
    identity checks the library makes against the identity store on the
    way ([isTrustedIdentity], [saveIdentity] at the same address) are kept
    for [processPreKeyBundle] and left out of the ciphers. *)

Definition processPreKeyBundle (bundle : PreKeyBundle) (address : ProtocolAddress) : M unit :=
  trusted ← isTrustedIdentity address (bundle_identityKey bundle);
  if negb trusted then throw (LibraryError "untrusted identity")
  else
    existing ← getSession address;
    ourKey ← getIdentityKey;
    ourRegistrationId ← getLocalRegistrationId;
    random ← randomBytes 32;
    match establish ourKey ourRegistrationId bundle existing random with
    | None => throw (LibraryError "invalid signature")
    | Some session =>
        saveIdentity address (bundle_identityKey bundle);;
        saveSession address session
    end.

Definition signalEncrypt (message : bytes) (address : ProtocolAddress) : M CiphertextMessage :=
  existing ← getSession address;
  match existing with
  | None => throw (SessionNotFound (addressKey address))
  | Some session =>
      match session_encrypt session message with
      | None => throw (LibraryError "encrypt")
      | Some (session', ciphertext) => saveSession address session';; ret ciphertext
      end
  end.

Definition signalDecrypt (message : bytes) (address : ProtocolAddress) : M bytes :=
  existing ← getSession address;
  match existing with
  | None => throw (SessionNotFound (addressKey address))
  | Some session =>
      match session_decrypt session message with
      | None => throw (LibraryError "decrypt")
      | Some (session', plaintext) => saveSession address session';; ret plaintext
      end
  end.

Definition optional {A} (f : Z → M A) (id : option Z) : M (option A) :=
  match id with
  | None => ret None
  | Some i => a ← f i; ret (Some a)
  end.

Definition signalDecryptPreKey (message : bytes) (address : ProtocolAddress) : M bytes :=
  match PreKeySignalMessage_ids message with
  | None => throw (LibraryError "deserialize: bad prekey message")
  | Some ids =>
      existing ← getSession address;
      ourKey ← getIdentityKey;
      signedPreKey ← getSignedPreKey (used_signedPreKeyId ids);
      kyberPreKey ← optional getKyberPreKey (used_kyberPreKeyId ids);
      preKey ← optional getPreKey (used_preKeyId ids);
      match session_decrypt_prekey existing ourKey signedPreKey kyberPreKey preKey message with
      | None => throw (LibraryError "decrypt")
      | Some (session', theirKey, plaintext) =>
          saveIdentity address theirKey;;
          saveSession address session';;
          optional removePreKey (used_preKeyId ids);;
          optional (λ id, markKyberPreKeyUsed id (used_signedPreKeyId ids) theirKey)
                   (used_kyberPreKeyId ids);;
          ret plaintext
      end
  end.

(** *** index.ts *)

Definition COUNTER_PREKEY : string := "counter:prekey".
Definition COUNTER_SIGNED_PREKEY : string := "counter:signedprekey".
Definition COUNTER_KYBER_PREKEY : string := "counter:kyberprekey".

Definition toBase64 (data : bytes) : string := base64_encode data.
Definition fromBase64 (text : string) : bytes := base64_decode text.

Definition bytes_to_Z (data : bytes) : Z :=
  foldl (λ acc b, 256 * acc + Z.of_N (Byte.to_N b)) 0 data.

(** [crypto.randomInt(min, max)]: an integer of [min, max). *)
Definition randomInt (min max : Z) : M Z :=
  random ← randomBytes 6;
  ret (min + bytes_to_Z random `mod` (max - min)).

(** [initializeIdentity]. *)
Definition initializeIdentity (localId : string) (deviceId : Z) : M unit :=
  registrationId ← randomInt 1 16380;
  random ← randomBytes 32;
  let identityKeyPair := IdentityKeyPair_generate random in
  setLocalIdentity localId;;
  setDeviceId deviceId;;
  setRegistrationId registrationId;;
  saveIdentityKeyPair identityKeyPair.

(** [nextCounter]. *)
Definition nextCounter (k : string) (start : Z) : M Z :=
  stored ← get_number k;
  let current := default start stored in
  store_set k (VNum (current + 1));;
  ret current.

(** The body of the loop of [generatePreKeys]. *)
Definition generateOneTimePreKey : M unit :=
  preKeyId ← nextCounter COUNTER_PREKEY 1;
  random ← randomBytes 32;
  let preKeyPrivate := PrivateKey_generate random in
  savePreKey preKeyId (mkPreKeyRecord preKeyId (getPublicKey preKeyPrivate) preKeyPrivate).

Fixpoint times (count : nat) (body : M unit) : M unit :=
  match count with
  | O => ret tt
  | S count' => body;; times count' body
  end.

(** [generatePreKeys]. *)
Definition generatePreKeys (count : nat) : M unit :=
  identityKeyPair ← loadIdentityKeyPair;
  times count generateOneTimePreKey;;
  signedPreKeyId ← nextCounter COUNTER_SIGNED_PREKEY 1;
  random ← randomBytes 32;
  let signedPreKeyPrivate := PrivateKey_generate random in
  let signedPreKeyPublic := getPublicKey signedPreKeyPrivate in
  nonce ← randomBytes 64;
  let signedSignature := sign (privateKey identityKeyPair) (serialize signedPreKeyPublic) nonce in
  now ← Date_now;
  saveSignedPreKey signedPreKeyId
    (mkSignedPreKeyRecord signedPreKeyId now signedPreKeyPublic signedPreKeyPrivate signedSignature);;
  kyberPreKeyId ← nextCounter COUNTER_KYBER_PREKEY 1;
  random' ← randomBytes 64;
  let kemKeyPair := KEMKeyPair_generate random' in
  nonce' ← randomBytes 64;
  let kyberSignature :=
    sign (privateKey identityKeyPair) (serialize (kem_publicKey kemKeyPair)) nonce' in
  now' ← Date_now;
  saveKyberPreKey kyberPreKeyId (mkKyberPreKeyRecord kyberPreKeyId now' kemKeyPair kyberSignature).

Definition not_set : Error := NotInitialized "Local identity not set. Run 'mega init'.".

(** [exportBundle]. *)
Definition exportBundle : M Wire.Bundle :=
  identityKeyPair ← loadIdentityKeyPair;
  registrationId ← getRegistrationId;
  localId ← getLocalId;
  match localId, registrationId with
  | Some id, Some registration =>
      if bool_decide (id = EmptyString) then throw not_set
      else
        deviceId ← getDeviceId;
        signedCounter ← get_number COUNTER_SIGNED_PREKEY;
        let signedPreKeyId := default 2 signedCounter - 1 in
        preKeyCounter ← get_number COUNTER_PREKEY;
        let preKeyId := default 2 preKeyCounter - 1 in
        kyberCounter ← get_number COUNTER_KYBER_PREKEY;
        let kyberPreKeyId := default 2 kyberCounter - 1 in
        signedPreKey ← getSignedPreKey signedPreKeyId;
        preKey ← getPreKey preKeyId;
        kyberPreKey ← getKyberPreKey kyberPreKeyId;
        ret (Wire.mkBundle id deviceId registration
               (toBase64 (serialize (publicKey identityKeyPair)))
               (Wire.mkSignedPreKeyPart signedPreKeyId
                  (toBase64 (serialize (signed_publicKey signedPreKey)))
                  (toBase64 (signed_signature signedPreKey)))
               (Wire.mkPreKeyPart preKeyId (toBase64 (serialize (pre_publicKey preKey))))
               (Wire.mkKyberPreKeyPart kyberPreKeyId
                  (toBase64 (serialize (kem_publicKey (kyber_keyPair kyberPreKey))))
                  (toBase64 (kyber_signature kyberPreKey))))
  | _, _ => throw not_set
  end.

(** [initSession]. *)
Definition initSession (bundle : Wire.Bundle) : M unit :=
  let address := mkProtocolAddress (Wire.id bundle) (Wire.deviceId bundle) in
  preKeyPublic ← parse (fromBase64 (Wire.pk_publicKey (Wire.preKey bundle)));
  signedPreKeyPublic ← parse (fromBase64 (Wire.spk_publicKey (Wire.signedPreKey bundle)));
  identityKey ← parse (fromBase64 (Wire.identityKey bundle));
  kyberPreKeyPublic ← parse (fromBase64 (Wire.kpk_publicKey (Wire.kyberPreKey bundle)));
  let preKeyBundle :=
    mkPreKeyBundle (Wire.registrationId bundle) (Wire.deviceId bundle)
      (Wire.pk_keyId (Wire.preKey bundle)) preKeyPublic
      (Wire.spk_keyId (Wire.signedPreKey bundle)) signedPreKeyPublic
      (fromBase64 (Wire.spk_signature (Wire.signedPreKey bundle)))
      identityKey
      (Wire.kpk_keyId (Wire.kyberPreKey bundle)) kyberPreKeyPublic
      (fromBase64 (Wire.kpk_signature (Wire.kyberPreKey bundle))) in
  processPreKeyBundle preKeyBundle address.

(** [encryptMessage]. *)
Definition encryptMessage (recipientId plaintext : string) : M Wire.Envelope :=
  let address := mkProtocolAddress recipientId 1 in
  ciphertext ← signalEncrypt (utf8_encode plaintext) address;
  senderId ← getLocalId;
  match senderId with
  | Some sender =>
      if bool_decide (sender = EmptyString) then throw not_set
      else
        now ← Date_now;
        ret (Wire.mkEnvelope 1 sender recipientId (sender +:+ "::" +:+ recipientId)
               (message_type ciphertext) (toBase64 (message_bytes ciphertext)) now)
  | None => throw not_set
  end.

(** [decryptMessage]. *)
Definition decryptMessage (envelope : Wire.Envelope) : M string :=
  let address := mkProtocolAddress (Wire.senderId envelope) 1 in
  let message := fromBase64 (Wire.body envelope) in
  if bool_decide (Wire.type envelope ≠ CiphertextMessageType_PreKey) &&
     bool_decide (Wire.type envelope ≠ CiphertextMessageType_Whisper)
  then throw (Unsupported (Wire.type envelope))
  else
    plaintext ← (if bool_decide (Wire.type envelope = CiphertextMessageType_PreKey)
                 then signalDecryptPreKey message address
                 else signalDecrypt message address);
    ret (utf8_decode plaintext).

(** *** Keys of the store *)

(** The characters of a printed integer: digits, and a leading minus. *)
Definition numeric (c : ascii) : bool :=
  bool_decide (c ∈ ["0"; "1"; "2"; "3"; "4"; "5"; "6"; "7"; "8"; "9"; "-"]%char).

Fixpoint all_chars (f : ascii → bool) (s : string) : bool :=
  match s with
  | EmptyString => true
  | String c rest => f c && all_chars f rest
  end.

Lemma append_nil (t : string) : EmptyString +:+ t = t.
Proof. reflexivity. Qed.

Lemma append_cons c (s t : string) : String c s +:+ t = String c (s +:+ t).
Proof. reflexivity. Qed.

Ltac peel := rewrite ?append_cons, ?append_nil.

Lemma all_chars_app f s1 s2 : all_chars f (s1 +:+ s2) = all_chars f s1 && all_chars f s2.
Proof.
  induction s1 as [|c s1 IH]; peel; simpl; [done|]. by rewrite IH, andb_assoc.
Qed.

Lemma pretty_N_char_numeric x : numeric (pretty_N_char x) = true.
Proof. unfold pretty_N_char. by repeat case_match. Qed.

Lemma pretty_N_go_numeric x s :
  all_chars numeric s = true → all_chars numeric (pretty_N_go x s) = true.
Proof.
  revert s. induction (N.lt_wf_0 x) as [x _ IH]; intros s Hs.
  destruct (decide (0 < x)%N) as [Hpos|Hzero].
  - rewrite pretty_N_go_step by done. apply IH; [by apply N.div_lt|].
    simpl. by rewrite pretty_N_char_numeric.
  - assert (x = 0%N) as -> by lia. by rewrite pretty_N_go_0.
Qed.

Lemma pretty_N_numeric (x : N) : all_chars numeric (pretty x) = true.
Proof. unfold pretty, pretty_N. case_decide; [done|]. by apply pretty_N_go_numeric. Qed.

Lemma pretty_Z_numeric (z : Z) : all_chars numeric (pretty z) = true.
Proof.
  destruct z as [|q|q]; [done| |].
  - apply (pretty_N_numeric (N.pos q)).
  - change (pretty (Z.neg q)) with ("-" +:+ pretty (N.pos q)).
    rewrite all_chars_app. by rewrite (pretty_N_numeric (N.pos q)).
Qed.

Lemma pretty_Z_nonempty (z : Z) : pretty z ≠ EmptyString.
Proof.
  destruct z as [|q|q]; [done| |done].
  change (pretty (Z.pos q)) with (pretty (N.pos q)). unfold pretty, pretty_N.
  case_decide; [done|].
  assert (∀ x s, s ≠ EmptyString → pretty_N_go x s ≠ EmptyString) as Hgo.
  { intros x. induction (N.lt_wf_0 x) as [x _ IH]; intros s Hs.
    destruct (decide (0 < x)%N) as [Hpos|Hzero].
    - rewrite pretty_N_go_step by done. apply IH; [by apply N.div_lt|done].
    - assert (x = 0%N) as -> by lia. by rewrite pretty_N_go_0. }
  rewrite pretty_N_go_step by lia. by apply Hgo.
Qed.

(** A printed integer does not start like a word. *)
Lemma pretty_Z_not_word (z : Z) c rest : numeric c = false → pretty z ≠ String c rest.
Proof.
  intros Hc Heq. pose proof (pretty_Z_numeric z) as Hz. rewrite Heq in Hz. simpl in Hz.
  by rewrite Hc in Hz.
Qed.

(** The marker of a used prekey is not the key of a prekey. *)
Lemma prekey_used_key_ne id id' : prekey_used_key id ≠ prekey_key id'.
Proof.
  unfold prekey_used_key, prekey_key. peel. intros [= Heq].
  symmetry in Heq. by eapply pretty_Z_not_word in Heq.
Qed.

(** Splitting at the last dot: the part after it has none. *)
Lemma dotted_inj (s1 s2 t1 t2 : string) :
  all_chars numeric t1 = true → all_chars numeric t2 = true →
  s1 +:+ "." +:+ t1 = s2 +:+ "." +:+ t2 → s1 = s2 ∧ t1 = t2.
Proof.
  intros H1 H2. revert s2. induction s1 as [|c s1 IH]; intros [|c' s2]; peel.
  - by intros [= ->].
  - intros [= <- ->]. rewrite all_chars_app in H1. peel. simpl in H1.
    by rewrite andb_false_r in H1.
  - intros [= -> <-]. rewrite all_chars_app in H2. peel. simpl in H2.
    by rewrite andb_false_r in H2.
  - intros [= -> Heq]. apply IH in Heq as [-> ->]. done.
Qed.

Lemma addressKey_inj a1 a2 : addressKey a1 = addressKey a2 → a1 = a2.
Proof.
  destruct a1 as [n1 d1], a2 as [n2 d2]. unfold addressKey. simpl.
  intros [-> Hd%(inj pretty)]%dotted_inj; [by subst|apply pretty_Z_numeric..].
Qed.

Lemma session_key_inj a1 a2 : session_key a1 = session_key a2 → a1 = a2.
Proof. unfold session_key. peel. intros [= Heq]. by apply addressKey_inj. Qed.

Lemma identity_key_ne_session_key a1 a2 : identity_key a1 ≠ session_key a2.
Proof. unfold identity_key, session_key. peel. by intros [=]. Qed.

(** *** Running the primitives *)

(** The world after [store.set(k, v)]. *)
Definition put (k : string) (v : value) (w : World) : World :=
  mkWorld (set (store w) k v (drawn w (draws w) IV_LENGTH)) (entropy w) (S (draws w)) (clock w).

(** The world after a draw. *)
Definition advance (w : World) : World := mkWorld (store w) (entropy w) (S (draws w)) (clock w).

(** The answer of a read, given in another world. *)
Definition rebase {A} (w' : World) (r : Result (A * World)) : Result (A * World) :=
  match r with Ok (a, _) => Ok (a, w') | Err e => Err e end.

Lemma drawn_length w k len : length (drawn w k len) = len.
Proof. unfold drawn. by rewrite length_map, length_seq. Qed.

Lemma store_set_run k v w : store_set k v w = Ok (tt, put k v w).
Proof. reflexivity. Qed.

Lemma randomBytes_run len w : randomBytes len w = Ok (drawn w (draws w) len, advance w).
Proof. reflexivity. Qed.

Lemma bind_run {A B} (m : M A) (f : A → M B) w a w' :
  m w = Ok (a, w') → (m ≫= f) w = f a w'.
Proof. intros H. unfold mbind, M_bind, bind. by rewrite H. Qed.

Lemma bind_err {A B} (m : M A) (f : A → M B) w e :
  m w = Err e → (m ≫= f) w = Err e.
Proof. intros H. unfold mbind, M_bind, bind. by rewrite H. Qed.

Lemma get_put_eq k v w :
  tag_free v = true → get (store (put k v w)) k = Ok (Some (normalized v)).
Proof. intros Hfree. apply get_set_eq; [apply drawn_length|done]. Qed.

Lemma get_put_ne k k' v w : k ≠ k' → get (store (put k v w)) k' = get (store w) k'.
Proof. intros Hne. by apply get_set_ne. Qed.

Lemma store_get_frame k w w' :
  get (store w') k = get (store w) k → store_get k w' = rebase w' (store_get k w).
Proof. unfold store_get, lift. intros ->. by destruct (get (store w) k). Qed.

Lemma load_frame k w w' :
  get (store w') k = get (store w) k → load k w' = rebase w' (load k w).
Proof.
  intros Hget. unfold load, mbind, M_bind, bind.
  rewrite (store_get_frame k w w' Hget). unfold store_get, lift.
  destruct (get (store w) k) as [[v|]|]; simpl; try done.
  destruct (truthy v); [|done]. by destruct v.
Qed.

Lemma load_bytes k w kind data :
  get (store w) k = Ok (Some (VBin kind data)) → load k w = Ok (Some data, w).
Proof. intros Hget. unfold load, mbind, M_bind, bind, store_get, lift. by rewrite Hget. Qed.

Lemma load_none k w : get (store w) k = Ok None → load k w = Ok (None, w).
Proof. intros Hget. unfold load, mbind, M_bind, bind, store_get, lift. by rewrite Hget. Qed.

Lemma parse_run `{Codec A} (a : A) w : parse (serialize a) w = Ok (a, w).
Proof. unfold parse, lift. by rewrite deserialize_serialize. Qed.

Lemma parse_frame `{Codec A} data w w' : parse (A := A) data w' = rebase w' (parse data w).
Proof. unfold parse, lift. by destruct (deserialize data). Qed.

Lemma getPreKey_frame id w w' :
  get (store w') (prekey_key id) = get (store w) (prekey_key id) →
  getPreKey id w' = rebase w' (getPreKey id w).
Proof.
  intros Hget. unfold getPreKey, mbind, M_bind, bind.
  rewrite (load_frame _ w w' Hget).
  destruct (load (prekey_key id) w) as [[[d|] w0]|]; simpl; try done.
  rewrite (parse_frame d w0 w'). by destruct (parse d w0) as [[]|].
Qed.

Lemma getPreKey_stored id w record kind :
  get (store w) (prekey_key id) = Ok (Some (VBin kind (serialize record))) →
  getPreKey id w = Ok (record, w).
Proof.
  intros Hget. unfold getPreKey.
  rewrite (bind_run _ _ w _ w (load_bytes _ _ _ _ Hget)). apply parse_run.
Qed.

(** C9. [removePreKey(id)] writes the marker [prekey:used:id] and nothing
    else: table [kv] is the old one with that entry added, the blob under
    every prekey key is untouched, and [getPreKey] answers for every id
    what it answered before (for [id] itself: the record is still
    there). *)
Theorem removePreKey_keeps_the_record (w : World) (id : Z) :
  let marker := VObj [("usedAt", VNum (clock w))] in
  let w' := put (prekey_used_key id) marker w in
  removePreKey id w = Ok (tt, w') ∧
  kv (db (store w')) =
    <[prekey_used_key id := encryptJson (key (store w)) (drawn w (draws w) IV_LENGTH) marker]>
      (kv (db (store w))) ∧
  get (store w') (prekey_used_key id) = Ok (Some marker) ∧
  (∀ id', kv (db (store w')) !! prekey_key id' = kv (db (store w)) !! prekey_key id') ∧
  (∀ id', getPreKey id' w' = rebase w' (getPreKey id' w)).
Proof.
  intros marker w'. split_and!.
  - reflexivity.
  - reflexivity.
  - by apply get_put_eq.
  - intros id'. unfold w', put. simpl. apply lookup_insert_ne, prekey_used_key_ne.
  - intros id'. apply getPreKey_frame, get_put_ne, prekey_used_key_ne.
Qed.

(** *** Reads leave the world as it is *)

Definition readonly {A} (m : M A) : Prop := ∀ w a w0, m w = Ok (a, w0) → w0 = w.

Lemma bind_Ok {A B} (m : M A) (f : A → M B) w b w' :
  (m ≫= f) w = Ok (b, w') → ∃ a w0, m w = Ok (a, w0) ∧ f a w0 = Ok (b, w').
Proof.
  unfold mbind, M_bind, bind. destruct (m w) as [[a w0]|e]; [|done]. intros Hf. by exists a, w0.
Qed.

Lemma readonly_ret {A} (a : A) : readonly (mret a).
Proof. by intros w a' w0 [= _ <-]. Qed.

Lemma readonly_throw {A} e : readonly (@throw A e).
Proof. by intros w a w0. Qed.

Lemma readonly_bind {A B} (m : M A) (f : A → M B) :
  readonly m → (∀ a, readonly (f a)) → readonly (m ≫= f).
Proof.
  intros Hm Hf w b w' (a & w0 & Hma & Hfa)%bind_Ok.
  apply Hm in Hma as ->. by apply Hf in Hfa.
Qed.

Lemma readonly_lift {A} (r : Result A) : readonly (lift r).
Proof. intros w a w0. unfold lift. destruct r; [|done]. by intros [= _ <-]. Qed.

Lemma readonly_store_get k : readonly (store_get k).
Proof. intros w a w0. unfold store_get. apply readonly_lift. Qed.

Lemma readonly_meta_get k : readonly (meta_get k).
Proof. intros w a w0. unfold meta_get. apply readonly_lift. Qed.

Lemma readonly_parse `{Codec A} data : readonly (parse (A := A) data).
Proof. apply readonly_lift. Qed.

Lemma readonly_load k : readonly (load k).
Proof.
  apply readonly_bind; [apply readonly_store_get|]. intros [v|]; [|apply readonly_ret].
  destruct (truthy v); [|apply readonly_ret].
  destruct v; first [apply readonly_ret|apply readonly_throw].
Qed.

Lemma readonly_getSession address : readonly (getSession address).
Proof.
  apply readonly_bind; [apply readonly_load|]. intros [d|]; [|apply readonly_ret].
  apply readonly_bind; [apply readonly_parse|]. intros. apply readonly_ret.
Qed.

Lemma readonly_isTrustedIdentity address k : readonly (isTrustedIdentity address k).
Proof.
  apply readonly_bind; [apply readonly_load|]. intros [d|]; [|apply readonly_ret].
  apply readonly_bind; [apply readonly_parse|]. intros. apply readonly_ret.
Qed.

Lemma readonly_loadIdentityKeyPair : readonly loadIdentityKeyPair.
Proof.
  apply readonly_bind; [apply readonly_load|]. intros [d|]; [|apply readonly_throw].
  apply readonly_parse.
Qed.

Lemma readonly_getIdentityKey : readonly getIdentityKey.
Proof. apply readonly_bind; [apply readonly_loadIdentityKeyPair|]. intros. apply readonly_ret. Qed.

Lemma readonly_meta_number k : readonly (meta_number k).
Proof.
  apply readonly_bind; [apply readonly_meta_get|].
  intros [[]|]; first [apply readonly_ret|apply readonly_throw].
Qed.

Lemma readonly_getLocalRegistrationId : readonly getLocalRegistrationId.
Proof.
  apply readonly_bind; [apply readonly_meta_number|].
  intros [?|]; first [apply readonly_ret|apply readonly_throw].
Qed.

Lemma readonly_getLocalId : readonly getLocalId.
Proof.
  apply readonly_bind; [apply readonly_meta_get|].
  intros [[]|]; first [apply readonly_ret|apply readonly_throw].
Qed.

Lemma getSession_frame address w w' :
  get (store w') (session_key address) = get (store w) (session_key address) →
  getSession address w' = rebase w' (getSession address w).
Proof.
  intros Hget. unfold getSession, mbind, M_bind, bind.
  rewrite (load_frame _ w w' Hget).
  destruct (load (session_key address) w) as [[[d|] w0]|]; simpl; try done.
  rewrite (parse_frame d w0 w'). by destruct (parse d w0) as [[]|].
Qed.

Lemma getSession_stored address w session kind :
  get (store w) (session_key address) = Ok (Some (VBin kind (serialize session))) →
  getSession address w = Ok (Some session, w).
Proof.
  intros Hget. unfold getSession.
  rewrite (bind_run _ _ w _ w (load_bytes _ _ _ _ Hget)).
  by rewrite (bind_run _ _ w _ w (parse_run session w)).
Qed.

(** What [saveIdentity] and [saveSession] leave behind. *)
Lemma saveIdentity_Ok address k w changed w' :
  saveIdentity address k w = Ok (changed, w') →
  w' = put (identity_key address) (VBin Uint8ArrayK (serialize k)) w.
Proof.
  unfold saveIdentity. intros (stored & w0 & Hload & Hrest)%bind_Ok.
  apply readonly_load in Hload as ->.
  apply bind_Ok in Hrest as ([] & w1 & Hset & Hrest). rewrite store_set_run in Hset.
  injection Hset as <-. destruct stored as [d|].
  - apply bind_Ok in Hrest as (existing & w2 & Hparse & Hret).
    apply readonly_parse in Hparse as ->. by injection Hret as _ <-.
  - by injection Hrest as _ <-.
Qed.

(** [processPreKeyBundle] writes under the address it is given. *)
Lemma processPreKeyBundle_Ok bundle address w w' :
  processPreKeyBundle bundle address w = Ok (tt, w') →
  ∃ session : SessionRecord,
    w' = put (session_key address) (VBin Uint8ArrayK (serialize session))
           (put (identity_key address) (VBin Uint8ArrayK (serialize (bundle_identityKey bundle)))
              (advance w)).
Proof.
  unfold processPreKeyBundle. intros (trusted & w0 & Htrust & Hrest)%bind_Ok.
  apply readonly_isTrustedIdentity in Htrust as ->.
  destruct trusted; simpl in Hrest; [|done].
  apply bind_Ok in Hrest as (existing & w0 & Hget & Hrest).
  apply readonly_getSession in Hget as ->.
  apply bind_Ok in Hrest as (ourKey & w0 & Hkey & Hrest).
  apply readonly_getIdentityKey in Hkey as ->.
  apply bind_Ok in Hrest as (reg & w0 & Hreg & Hrest).
  apply readonly_getLocalRegistrationId in Hreg as ->.
  apply bind_Ok in Hrest as (random & w0 & Hrand & Hrest).
  rewrite randomBytes_run in Hrand. injection Hrand as <- <-.
  destruct (establish _ _ _ _ _) as [session|]; [|done].
  apply bind_Ok in Hrest as (changed & w1 & Hid & Hsave).
  apply saveIdentity_Ok in Hid as ->.
  unfold saveSession in Hsave. rewrite store_set_run in Hsave. injection Hsave as <-.
  by exists session.
Qed.

Lemma initSession_Ok bundle w w' :
  initSession bundle w = Ok (tt, w') →
  let address := mkProtocolAddress (Wire.id bundle) (Wire.deviceId bundle) in
  ∃ (session : SessionRecord) (identityKey : PublicKey),
    w' = put (session_key address) (VBin Uint8ArrayK (serialize session))
           (put (identity_key address) (VBin Uint8ArrayK (serialize identityKey)) (advance w)).
Proof.
  intros Hrun address. unfold initSession in Hrun.
  apply bind_Ok in Hrun as (k1 & w0 & H1 & Hrun). apply readonly_parse in H1 as ->.
  apply bind_Ok in Hrun as (k2 & w0 & H2 & Hrun). apply readonly_parse in H2 as ->.
  apply bind_Ok in Hrun as (k3 & w0 & H3 & Hrun). apply readonly_parse in H3 as ->.
  apply bind_Ok in Hrun as (k4 & w0 & H4 & Hrun). apply readonly_parse in H4 as ->.
  apply processPreKeyBundle_Ok in Hrun as [session ->]. by exists session, k3.
Qed.

Lemma signalEncrypt_no_session message address w :
  getSession address w = Ok (None, w) →
  signalEncrypt message address w = Err (SessionNotFound (addressKey address)).
Proof. intros Hget. unfold signalEncrypt. by rewrite (bind_run _ _ w _ w Hget). Qed.

Lemma signalDecrypt_no_session message address w :
  getSession address w = Ok (None, w) →
  signalDecrypt message address w = Err (SessionNotFound (addressKey address)).
Proof. intros Hget. unfold signalDecrypt. by rewrite (bind_run _ _ w _ w Hget). Qed.

(** *** What a computation cannot see

    Two worlds agree outside a set [K] of keys when they show the same
    clock, the same table [meta] and the same value under every key that
    is not in [K]. A computation is blind to [K] when, run in two such
    worlds, it answers the same and leaves two such worlds. *)

Definition answer {A} (r : Result (A * World)) : Result A := result_map fst r.

Definition agree (K : string → Prop) (w1 w2 : World) : Prop :=
  clock w1 = clock w2 ∧
  meta (db (store w1)) = meta (db (store w2)) ∧
  ∀ k, ¬ K k → get (store w1) k = get (store w2) k.

Definition alike (K : string → Prop) {A} (r1 r2 : Result (A * World)) : Prop :=
  match r1, r2 with
  | Ok (a1, w1), Ok (a2, w2) => a1 = a2 ∧ agree K w1 w2
  | Err e1, Err e2 => e1 = e2
  | _, _ => False
  end.

Definition blind (K : string → Prop) {A} (m : M A) : Prop :=
  ∀ w1 w2, agree K w1 w2 → alike K (m w1) (m w2).

Lemma alike_answer K {A} (r1 r2 : Result (A * World)) : alike K r1 r2 → answer r1 = answer r2.
Proof.
  destruct r1 as [[a1 w1]|e1], r2 as [[a2 w2]|e2]; simpl; try done.
  - by intros [-> _].
  - by intros ->.
Qed.

Lemma blind_ret K {A} (a : A) : blind K (mret a).
Proof. by intros w1 w2 Hagree. Qed.

Lemma blind_throw K {A} e : blind K (@throw A e).
Proof. by intros w1 w2 Hagree. Qed.

Lemma blind_bind K {A B} (m : M A) (f : A → M B) :
  blind K m → (∀ a, blind K (f a)) → blind K (m ≫= f).
Proof.
  intros Hm Hf w1 w2 Hagree. specialize (Hm w1 w2 Hagree).
  unfold mbind, M_bind, bind.
  destruct (m w1) as [[a1 w1']|e1], (m w2) as [[a2 w2']|e2]; simpl in Hm; try done.
  destruct Hm as [-> Hagree']. by apply Hf.
Qed.

Lemma blind_lift K {A} (r : Result A) : blind K (lift r).
Proof. intros w1 w2 Hagree. unfold lift. by destruct r. Qed.

Lemma blind_parse K `{Codec A} data : blind K (parse (A := A) data).
Proof. apply blind_lift. Qed.

Lemma blind_Date_now K : blind K Date_now.
Proof. intros w1 w2 Hagree. unfold Date_now. simpl. split; [apply Hagree|done]. Qed.

Lemma blind_meta_get K k : blind K (meta_get k).
Proof.
  intros w1 w2 Hagree. unfold meta_get, getMeta.
  pose proof Hagree as (Hclock & <- & Hget). unfold lift.
  by destruct (match meta _ !! k with None => _ | Some _ => _ end).
Qed.

Lemma blind_store_get K k : ¬ K k → blind K (store_get k).
Proof.
  intros Hk w1 w2 Hagree. unfold store_get, lift.
  destruct Hagree as (Hclock & Hmeta & Hget). rewrite <- (Hget k Hk).
  by destruct (get (store w1) k).
Qed.

Lemma blind_store_set K k v : tag_free v = true → blind K (store_set k v).
Proof.
  intros Hfree w1 w2 (Hclock & Hmeta & Hget). rewrite !store_set_run. simpl.
  split; [done|]. split_and!; [done|done|]. intros k' Hk'.
  destruct (decide (k = k')) as [<-|Hne].
  - by rewrite !get_put_eq.
  - rewrite !get_put_ne by done. by apply Hget.
Qed.

Lemma blind_load K k : ¬ K k → blind K (load k).
Proof.
  intros Hk. apply blind_bind; [by apply blind_store_get|]. intros [v|]; [|apply blind_ret].
  destruct (truthy v); [|apply blind_ret].
  destruct v; first [apply blind_ret|apply blind_throw].
Qed.

Lemma blind_getLocalId K : blind K getLocalId.
Proof.
  apply blind_bind; [apply blind_meta_get|].
  intros [[]|]; first [apply blind_ret|apply blind_throw].
Qed.

Lemma blind_getSession K address : ¬ K (session_key address) → blind K (getSession address).
Proof.
  intros Hk. apply blind_bind; [by apply blind_load|]. intros [d|]; [|apply blind_ret].
  apply blind_bind; [apply blind_parse|]. intros. apply blind_ret.
Qed.

Lemma blind_saveSession K address record : blind K (saveSession address record).
Proof. by apply blind_store_set. Qed.

Lemma blind_saveIdentity K address k :
  ¬ K (identity_key address) → blind K (saveIdentity address k).
Proof.
  intros Hk. apply blind_bind; [by apply blind_load|]. intros stored.
  apply blind_bind; [by apply blind_store_set|]. intros [].
  destruct stored; [|apply blind_ret].
  apply blind_bind; [apply blind_parse|]. intros. apply blind_ret.
Qed.

Lemma blind_material K {A} `{Codec A} k e :
  ¬ K k →
  blind K (stored ← load k; match stored with None => throw e | Some d => parse (A := A) d end).
Proof.
  intros Hk. apply blind_bind; [by apply blind_load|].
  intros [d|]; [apply blind_parse|apply blind_throw].
Qed.

Lemma blind_optional K {A} (f : Z → M A) id : (∀ i, blind K (f i)) → blind K (optional f id).
Proof.
  intros Hf. destruct id as [i|]; simpl; [|apply blind_ret].
  apply blind_bind; [apply Hf|]. intros. apply blind_ret.
Qed.

Lemma blind_signalEncrypt K message address :
  ¬ K (session_key address) → blind K (signalEncrypt message address).
Proof.
  intros Hk. apply blind_bind; [by apply blind_getSession|]. intros [session|]; [|apply blind_throw].
  destruct (session_encrypt session message) as [[session' ciphertext]|]; [|apply blind_throw].
  apply blind_bind; [apply blind_saveSession|]. intros. apply blind_ret.
Qed.

Lemma blind_signalDecrypt K message address :
  ¬ K (session_key address) → blind K (signalDecrypt message address).
Proof.
  intros Hk. apply blind_bind; [by apply blind_getSession|]. intros [session|]; [|apply blind_throw].
  destruct (session_decrypt session message) as [[session' plaintext]|]; [|apply blind_throw].
  apply blind_bind; [apply blind_saveSession|]. intros. apply blind_ret.
Qed.

(** The two keys [initSession] writes for an address. *)
Definition of_address (address : ProtocolAddress) (k : string) : Prop :=
  k = session_key address ∨ k = identity_key address.

Lemma identity_key_inj a1 a2 : identity_key a1 = identity_key a2 → a1 = a2.
Proof. unfold identity_key. peel. intros [= Heq]. by apply addressKey_inj. Qed.

Lemma session_key_elsewhere a peer : deviceId a ≠ 1 → ¬ of_address a (session_key (mkProtocolAddress peer 1)).
Proof.
  intros Hdevice [Heq|Heq].
  - apply session_key_inj in Heq. by subst a.
  - symmetry in Heq. by apply identity_key_ne_session_key in Heq.
Qed.

Lemma identity_key_elsewhere a peer : deviceId a ≠ 1 → ¬ of_address a (identity_key (mkProtocolAddress peer 1)).
Proof.
  intros Hdevice [Heq|Heq].
  - by apply identity_key_ne_session_key in Heq.
  - apply identity_key_inj in Heq. by subst a.
Qed.

Lemma identityKeyPair_key_elsewhere a : ¬ of_address a identityKeyPair_key.
Proof. unfold of_address, identityKeyPair_key, session_key, identity_key. peel. by intros [[=]|[=]]. Qed.

Lemma signedprekey_key_elsewhere a id : ¬ of_address a (signedprekey_key id).
Proof. unfold of_address, signedprekey_key, session_key, identity_key. peel. by intros [[=]|[=]]. Qed.

Lemma kyberprekey_key_elsewhere a id : ¬ of_address a (kyberprekey_key id).
Proof. unfold of_address, kyberprekey_key, session_key, identity_key. peel. by intros [[=]|[=]]. Qed.

Lemma prekey_key_elsewhere a id : ¬ of_address a (prekey_key id).
Proof. unfold of_address, prekey_key, session_key, identity_key. peel. by intros [[=]|[=]]. Qed.

Lemma blind_signalDecryptPreKey a message peer :
  deviceId a ≠ 1 → blind (of_address a) (signalDecryptPreKey message (mkProtocolAddress peer 1)).
Proof.
  intros Hdevice. unfold signalDecryptPreKey.
  destruct (PreKeySignalMessage_ids message) as [ids|]; [|apply blind_throw].
  apply blind_bind; [by apply blind_getSession, session_key_elsewhere|]. intros existing.
  apply blind_bind.
  { apply blind_bind; [|intros; apply blind_ret].
    apply blind_material, identityKeyPair_key_elsewhere. }
  intros ourKey.
  apply blind_bind; [apply blind_material, signedprekey_key_elsewhere|]. intros signedPreKey.
  apply blind_bind.
  { apply blind_optional. intros i. apply blind_material, kyberprekey_key_elsewhere. }
  intros kyberPreKey.
  apply blind_bind.
  { apply blind_optional. intros i. apply blind_material, prekey_key_elsewhere. }
  intros preKey.
  destruct (session_decrypt_prekey _ _ _ _ _ _) as [[[session' theirKey] plaintext]|];
    [|apply blind_throw].
  apply blind_bind; [by apply blind_saveIdentity, identity_key_elsewhere|]. intros _.
  apply blind_bind; [apply blind_saveSession|]. intros _.
  apply blind_bind.
  { apply blind_optional. intros i. apply blind_bind; [apply blind_Date_now|].
    intros now. by apply blind_store_set. }
  intros _. apply blind_bind; [|intros; apply blind_ret].
  apply blind_optional. intros i. apply blind_bind; [apply blind_Date_now|].
  intros now. by apply blind_store_set.
Qed.

Lemma blind_encryptMessage a recipientId plaintext :
  deviceId a ≠ 1 → blind (of_address a) (encryptMessage recipientId plaintext).
Proof.
  intros Hdevice. unfold encryptMessage.
  apply blind_bind; [by apply blind_signalEncrypt, session_key_elsewhere|]. intros ciphertext.
  apply blind_bind; [apply blind_getLocalId|]. intros [sender|]; [|apply blind_throw].
  case_bool_decide; [apply blind_throw|].
  apply blind_bind; [apply blind_Date_now|]. intros now. apply blind_ret.
Qed.

Lemma blind_decryptMessage a envelope :
  deviceId a ≠ 1 → blind (of_address a) (decryptMessage envelope).
Proof.
  intros Hdevice. unfold decryptMessage.
  destruct (_ && _); [apply blind_throw|].
  apply blind_bind; [|intros; apply blind_ret].
  case_bool_decide.
  - by apply blind_signalDecryptPreKey.
  - by apply blind_signalDecrypt, session_key_elsewhere.
Qed.

(** After [initSession], the two worlds differ in the two keys of the
    bundle's address only. *)
Lemma initSession_agree bundle w w' :
  initSession bundle w = Ok (tt, w') →
  agree (of_address (mkProtocolAddress (Wire.id bundle) (Wire.deviceId bundle))) w' w.
Proof.
  intros (session & identityKey & ->)%initSession_Ok. split_and!; [done|done|].
  intros k Hk. rewrite !get_put_ne; [done|..]; intros <-; apply Hk; unfold of_address; auto.
Qed.

(** C10. [initSession] stores the session it establishes under the
    address (bundle.id, bundle.deviceId), while [encryptMessage] and
    [decryptMessage] go to the session store with (peer, 1). So when the
    bundle's device id is not 1: the new session is stored under the
    bundle's address; the session of (peer, 1) is, for every peer, what
    it was before; [encryptMessage] and [decryptMessage] answer exactly
    what they would have answered had [initSession] not run; and if
    (peer, 1) had no session, encrypting to the peer and decrypting a
    Whisper message from it fail for want of a session. *)
Theorem ciphers_address_device_1 (w w' : World) (bundle : Wire.Bundle) :
  Wire.deviceId bundle ≠ 1 →
  initSession bundle w = Ok (tt, w') →
  let established := mkProtocolAddress (Wire.id bundle) (Wire.deviceId bundle) in
  (∃ session, getSession established w' = Ok (Some session, w')) ∧
  (∀ peer, getSession (mkProtocolAddress peer 1) w' =
           rebase w' (getSession (mkProtocolAddress peer 1) w)) ∧
  (∀ recipientId plaintext,
     answer (encryptMessage recipientId plaintext w') =
     answer (encryptMessage recipientId plaintext w)) ∧
  (∀ envelope, answer (decryptMessage envelope w') = answer (decryptMessage envelope w)) ∧
  (∀ recipientId plaintext,
     getSession (mkProtocolAddress recipientId 1) w = Ok (None, w) →
     encryptMessage recipientId plaintext w' =
     Err (SessionNotFound (addressKey (mkProtocolAddress recipientId 1)))) ∧
  (∀ envelope,
     Wire.type envelope = CiphertextMessageType_Whisper →
     getSession (mkProtocolAddress (Wire.senderId envelope) 1) w = Ok (None, w) →
     decryptMessage envelope w' =
     Err (SessionNotFound (addressKey (mkProtocolAddress (Wire.senderId envelope) 1)))).
Proof.
  intros Hdevice Hinit established.
  pose proof (initSession_agree _ _ _ Hinit) as Hagree. fold established in Hagree.
  assert (Hsessions : ∀ peer, getSession (mkProtocolAddress peer 1) w' =
                              rebase w' (getSession (mkProtocolAddress peer 1) w)).
  { intros peer. apply getSession_frame, Hagree. by apply session_key_elsewhere. }
  split_and!.
  - apply initSession_Ok in Hinit as (session & identityKey & ->). exists session.
    eapply getSession_stored. by rewrite get_put_eq.
  - done.
  - intros recipientId plaintext.
    by eapply alike_answer, (blind_encryptMessage established).
  - intros envelope. by eapply alike_answer, (blind_decryptMessage established).
  - intros recipientId plaintext Hnone. unfold encryptMessage.
    apply bind_err, signalEncrypt_no_session. by rewrite Hsessions, Hnone.
  - intros envelope Htype Hnone. unfold decryptMessage. rewrite Htype. simpl.
    apply bind_err, signalDecrypt_no_session. by rewrite Hsessions, Hnone.
Qed.

(** *** Counters and key material in the store *)

Ltac distinct_keys :=
  unfold COUNTER_PREKEY, COUNTER_SIGNED_PREKEY, COUNTER_KYBER_PREKEY, identityKeyPair_key,
    prekey_key, signedprekey_key, kyberprekey_key;
  peel; by intros [=].

Lemma prekey_key_inj id id' : prekey_key id = prekey_key id' → id = id'.
Proof. unfold prekey_key. peel. intros [= Heq]. by apply (inj pretty) in Heq. Qed.

Lemma get_same k w w' :
  key (store w') = key (store w) →
  kv (db (store w')) !! k = kv (db (store w)) !! k →
  get (store w') k = get (store w) k.
Proof. unfold get. by intros -> ->. Qed.

Lemma kv_put_ne k k' v w :
  k ≠ k' → kv (db (store (put k v w))) !! k' = kv (db (store w)) !! k'.
Proof. intros Hne. simpl. by apply lookup_insert_ne. Qed.

Lemma drawn_entropy w w' k len : entropy w' = entropy w → drawn w' k len = drawn w k len.
Proof. unfold drawn. by intros ->. Qed.

Lemma get_number_frame k w w' :
  get (store w') k = get (store w) k → get_number k w' = rebase w' (get_number k w).
Proof.
  intros Hget. unfold get_number, mbind, M_bind, bind.
  rewrite (store_get_frame k w w' Hget). unfold store_get, lift.
  destruct (get (store w) k) as [[v|]|]; simpl; try done. by destruct v.
Qed.

Lemma get_number_stored k w n :
  get (store w) k = Ok (Some (VNum n)) → get_number k w = Ok (Some n, w).
Proof. intros Hget. unfold get_number, mbind, M_bind, bind, store_get, lift. by rewrite Hget. Qed.

Lemma nextCounter_run k start w stored :
  get_number k w = Ok (stored, w) →
  nextCounter k start w = Ok (default start stored, put k (VNum (default start stored + 1)) w).
Proof.
  intros Hget. unfold nextCounter. rewrite (bind_run _ _ w _ w Hget).
  by rewrite (bind_run _ _ w _ _ (store_set_run _ _ _)).
Qed.

Lemma getSignedPreKey_stored id w record kind :
  get (store w) (signedprekey_key id) = Ok (Some (VBin kind (serialize record))) →
  getSignedPreKey id w = Ok (record, w).
Proof.
  intros Hget. unfold getSignedPreKey.
  rewrite (bind_run _ _ w _ w (load_bytes _ _ _ _ Hget)). apply parse_run.
Qed.

Lemma getKyberPreKey_stored id w record kind :
  get (store w) (kyberprekey_key id) = Ok (Some (VBin kind (serialize record))) →
  getKyberPreKey id w = Ok (record, w).
Proof.
  intros Hget. unfold getKyberPreKey.
  rewrite (bind_run _ _ w _ w (load_bytes _ _ _ _ Hget)). apply parse_run.
Qed.

Lemma loadIdentityKeyPair_frame w w' :
  get (store w') identityKeyPair_key = get (store w) identityKeyPair_key →
  loadIdentityKeyPair w' = rebase w' (loadIdentityKeyPair w).
Proof.
  intros Hget. unfold loadIdentityKeyPair, mbind, M_bind, bind.
  rewrite (load_frame _ w w' Hget).
  destruct (load identityKeyPair_key w) as [[[d|] w0]|]; simpl; try done.
  rewrite (parse_frame d w0 w'). by destruct (parse d w0) as [[]|].
Qed.

Lemma meta_get_frame k w w' :
  meta (db (store w')) = meta (db (store w)) → meta_get k w' = rebase w' (meta_get k w).
Proof.
  intros Hmeta. unfold meta_get, getMeta, lift. rewrite Hmeta.
  by destruct (match meta _ !! k with None => _ | Some _ => _ end).
Qed.

Lemma meta_number_frame k w w' :
  meta (db (store w')) = meta (db (store w)) → meta_number k w' = rebase w' (meta_number k w).
Proof.
  intros Hmeta. unfold meta_number, mbind, M_bind, bind.
  rewrite (meta_get_frame k w w' Hmeta).
  destruct (meta_get k w) as [[[j|] w0]|]; simpl; try done. by destruct j.
Qed.

Lemma getLocalId_frame w w' :
  meta (db (store w')) = meta (db (store w)) → getLocalId w' = rebase w' (getLocalId w).
Proof.
  intros Hmeta. unfold getLocalId, mbind, M_bind, bind.
  rewrite (meta_get_frame _ w w' Hmeta).
  destruct (meta_get META_LOCAL_ID w) as [[[j|] w0]|]; simpl; try done. by destruct j.
Qed.

Lemma getDeviceId_frame w w' :
  meta (db (store w')) = meta (db (store w)) → getDeviceId w' = rebase w' (getDeviceId w).
Proof.
  intros Hmeta. unfold getDeviceId, mbind, M_bind, bind.
  rewrite (meta_number_frame _ w w' Hmeta).
  by destruct (meta_number META_DEVICE_ID w) as [[d w0]|].
Qed.

(** *** The loop of [generatePreKeys] *)

(** The one-time prekey made from a draw. *)
Definition oneTimePreKey (id : Z) (random : bytes) : PreKeyRecord :=
  let preKeyPrivate := PrivateKey_generate random in
  mkPreKeyRecord id (getPublicKey preKeyPrivate) preKeyPrivate.

(** The world after one turn of the loop that finds the counter at [c]:
    three draws are made, for the nonce of the counter's write, for the
    key, for the nonce of the record's write. *)
Definition one_time (c : Z) (w : World) : World :=
  put (prekey_key c) (VBin Uint8ArrayK (serialize (oneTimePreKey c (drawn w (S (draws w)) 32))))
    (advance (put COUNTER_PREKEY (VNum (c + 1)) w)).

Fixpoint after_loop (n : nat) (c : Z) (w : World) : World :=
  match n with
  | O => w
  | S n' => after_loop n' (c + 1) (one_time c w)
  end.

Lemma store_advance w : store (advance w) = store w.
Proof. reflexivity. Qed.

Lemma generateOneTimePreKey_run w stored :
  get_number COUNTER_PREKEY w = Ok (stored, w) →
  generateOneTimePreKey w = Ok (tt, one_time (default 1 stored) w).
Proof.
  intros Hget. unfold generateOneTimePreKey.
  rewrite (bind_run _ _ w _ _ (nextCounter_run _ 1 _ _ Hget)).
  by rewrite (bind_run _ _ _ _ _ (randomBytes_run _ _)).
Qed.

Lemma one_time_counter c w :
  get (store (one_time c w)) COUNTER_PREKEY = Ok (Some (VNum (c + 1))).
Proof.
  unfold one_time. rewrite get_put_ne by distinct_keys.
  rewrite store_advance. by rewrite get_put_eq.
Qed.

Lemma times_run n w stored :
  get_number COUNTER_PREKEY w = Ok (stored, w) →
  times n generateOneTimePreKey w = Ok (tt, after_loop n (default 1 stored) w).
Proof.
  revert w stored. induction n as [|n IH]; intros w stored Hget; [done|].
  simpl. rewrite (bind_run _ _ w _ _ (generateOneTimePreKey_run _ _ Hget)).
  apply (IH _ (Some (default 1 stored + 1))), get_number_stored, one_time_counter.
Qed.

Lemma after_loop_shape n c w :
  draws (after_loop n c w) = (draws w + 3 * n)%nat ∧
  entropy (after_loop n c w) = entropy w ∧
  clock (after_loop n c w) = clock w ∧
  key (store (after_loop n c w)) = key (store w) ∧
  meta (db (store (after_loop n c w))) = meta (db (store w)).
Proof.
  revert c w. induction n as [|n IH]; intros c w; simpl.
  - split_and!; [lia|done..].
  - destruct (IH (c + 1) (one_time c w)) as (-> & -> & -> & -> & ->).
    split_and!; [simpl; lia|done..].
Qed.

Lemma after_loop_frame n c w k :
  k ≠ COUNTER_PREKEY →
  (∀ i : nat, (i < n)%nat → k ≠ prekey_key (c + Z.of_nat i)) →
  kv (db (store (after_loop n c w))) !! k = kv (db (store w)) !! k.
Proof.
  revert c w. induction n as [|n IH]; intros c w Hcounter Hids; [done|].
  simpl. rewrite IH; [|done|].
  - unfold one_time. rewrite kv_put_ne.
    + rewrite store_advance. by apply kv_put_ne.
    + intros Heq. apply (Hids 0%nat); [lia|]. by rewrite Z.add_0_r.
  - intros i Hi. replace (c + 1 + Z.of_nat i) with (c + Z.of_nat (S i)) by lia. apply Hids. lia.
Qed.

Lemma after_loop_counter n c w :
  (0 < n)%nat → get (store (after_loop n c w)) COUNTER_PREKEY = Ok (Some (VNum (c + Z.of_nat n))).
Proof.
  revert c w. induction n as [|n IH]; intros c w Hn; [lia|].
  simpl after_loop. destruct n as [|n].
  - simpl. apply one_time_counter.
  - rewrite IH by lia. do 3 f_equal. lia.
Qed.

Lemma after_loop_prekeys n c w (i : nat) :
  (i < n)%nat →
  get (store (after_loop n c w)) (prekey_key (c + Z.of_nat i)) =
  Ok (Some (VBin Uint8ArrayK
              (serialize (oneTimePreKey (c + Z.of_nat i) (drawn w (draws w + 3 * i + 1) 32))))).
Proof.
  revert c w i. induction n as [|n IH]; intros c w i Hi; [lia|].
  simpl after_loop. destruct i as [|i].
  - rewrite (get_same _ (one_time c w)).
    + replace (c + Z.of_nat 0) with c by lia. replace (draws w + 3 * 0 + 1)%nat with (S (draws w)) by lia.
      unfold one_time. by rewrite get_put_eq.
    + apply after_loop_shape.
    + apply after_loop_frame; [distinct_keys|].
      intros j Hj Heq%prekey_key_inj. lia.
  - replace (c + Z.of_nat (S i)) with (c + 1 + Z.of_nat i) by lia. rewrite IH by lia.
    replace (draws (one_time c w) + 3 * i + 1)%nat with (draws w + 3 * S i + 1)%nat
      by (simpl; lia).
    done.
Qed.

(** *** The signed and the post-quantum prekey *)

Definition signedPreKey (identityKeyPair : IdentityKeyPair) (id now : Z) (random nonce : bytes) :
    SignedPreKeyRecord :=
  let signedPreKeyPrivate := PrivateKey_generate random in
  let signedPreKeyPublic := getPublicKey signedPreKeyPrivate in
  mkSignedPreKeyRecord id now signedPreKeyPublic signedPreKeyPrivate
    (sign (privateKey identityKeyPair) (serialize signedPreKeyPublic) nonce).

Definition kyberPreKey (identityKeyPair : IdentityKeyPair) (id now : Z) (random nonce : bytes) :
    KyberPreKeyRecord :=
  let kemKeyPair := KEMKeyPair_generate random in
  mkKyberPreKeyRecord id now kemKeyPair
    (sign (privateKey identityKeyPair) (serialize (kem_publicKey kemKeyPair)) nonce).

(** The world after a counter found at [c] is stepped, two draws are
    made and a value is written under [slot]: four draws in all. *)
Definition issue (counter slot : string) (c : Z) (v : value) (w : World) : World :=
  put slot v (advance (advance (put counter (VNum (c + 1)) w))).

Definition signed_step (identityKeyPair : IdentityKeyPair) (c : Z) (w : World) : World :=
  issue COUNTER_SIGNED_PREKEY (signedprekey_key c) c
    (VBin Uint8ArrayK
       (serialize (signedPreKey identityKeyPair c (clock w)
                     (drawn w (S (draws w)) 32) (drawn w (S (S (draws w))) 64)))) w.

Definition kyber_step (identityKeyPair : IdentityKeyPair) (c : Z) (w : World) : World :=
  issue COUNTER_KYBER_PREKEY (kyberprekey_key c) c
    (VBin Uint8ArrayK
       (serialize (kyberPreKey identityKeyPair c (clock w)
                     (drawn w (S (draws w)) 64) (drawn w (S (S (draws w))) 64)))) w.

Definition after_generatePreKeys (count : nat) (identityKeyPair : IdentityKeyPair)
    (first signedId kyberId : Z) (w : World) : World :=
  kyber_step identityKeyPair kyberId
    (signed_step identityKeyPair signedId (after_loop count first w)).

Lemma issue_kv counter slot c v w k :
  k ≠ counter → k ≠ slot →
  kv (db (store (issue counter slot c v w))) !! k = kv (db (store w)) !! k.
Proof.
  intros Hcounter Hslot. unfold issue. rewrite kv_put_ne by done.
  rewrite !store_advance. by apply kv_put_ne.
Qed.

Lemma issue_get counter slot c v w k :
  k ≠ counter → k ≠ slot → get (store (issue counter slot c v w)) k = get (store w) k.
Proof. intros Hcounter Hslot. apply get_same; [done|by apply issue_kv]. Qed.

Lemma issue_slot counter slot c v w :
  tag_free v = true → get (store (issue counter slot c v w)) slot = Ok (Some (normalized v)).
Proof. intros Hfree. unfold issue. by apply get_put_eq. Qed.

Lemma issue_counter counter slot c v w :
  counter ≠ slot → get (store (issue counter slot c v w)) counter = Ok (Some (VNum (c + 1))).
Proof.
  intros Hne. unfold issue. rewrite get_put_ne by done.
  rewrite !store_advance. by rewrite get_put_eq.
Qed.

Lemma after_loop_get n c w k :
  k ≠ COUNTER_PREKEY → (∀ id, k ≠ prekey_key id) →
  get (store (after_loop n c w)) k = get (store w) k.
Proof.
  intros Hcounter Hids. apply get_same; [apply after_loop_shape|].
  apply after_loop_frame; [done|]. intros i _. apply Hids.
Qed.

Lemma Date_now_run w : Date_now w = Ok (clock w, w).
Proof. reflexivity. Qed.

(** [generatePreKeys] returns, and leaves the world so. *)
Lemma generatePreKeys_run count w identityKeyPair preKeyCounter signedCounter kyberCounter :
  loadIdentityKeyPair w = Ok (identityKeyPair, w) →
  get_number COUNTER_PREKEY w = Ok (preKeyCounter, w) →
  get_number COUNTER_SIGNED_PREKEY w = Ok (signedCounter, w) →
  get_number COUNTER_KYBER_PREKEY w = Ok (kyberCounter, w) →
  generatePreKeys count w =
  Ok (tt, after_generatePreKeys count identityKeyPair (default 1 preKeyCounter)
            (default 1 signedCounter) (default 1 kyberCounter) w).
Proof.
  intros Hload Hpre Hsigned Hkyber. unfold generatePreKeys.
  rewrite (bind_run _ _ w _ _ Hload).
  rewrite (bind_run _ _ w _ _ (times_run count _ _ Hpre)).
  set (wl := after_loop count (default 1 preKeyCounter) w).
  assert (Hsigned' : get_number COUNTER_SIGNED_PREKEY wl = Ok (signedCounter, wl)).
  { rewrite (get_number_frame _ w), Hsigned; [done|].
    apply after_loop_get; [distinct_keys|]. intros id. distinct_keys. }
  rewrite (bind_run _ _ wl _ _ (nextCounter_run _ 1 _ _ Hsigned')).
  rewrite (bind_run _ _ _ _ _ (randomBytes_run _ _)).
  rewrite (bind_run _ _ _ _ _ (randomBytes_run _ _)).
  rewrite (bind_run _ _ _ _ _ (Date_now_run _)).
  unfold saveSignedPreKey. rewrite (bind_run _ _ _ _ _ (store_set_run _ _ _)).
  set (ws := put (signedprekey_key _) _ _).
  assert (Hws : ws = signed_step identityKeyPair (default 1 signedCounter) wl) by done.
  assert (Hkyber' : get_number COUNTER_KYBER_PREKEY ws = Ok (kyberCounter, ws)).
  { rewrite (get_number_frame _ w), Hkyber; [done|]. rewrite Hws. unfold signed_step.
    rewrite issue_get by distinct_keys.
    apply after_loop_get; [distinct_keys|]. intros id. distinct_keys. }
  rewrite (bind_run _ _ ws _ _ (nextCounter_run _ 1 _ _ Hkyber')).
  rewrite (bind_run _ _ _ _ _ (randomBytes_run _ _)).
  rewrite (bind_run _ _ _ _ _ (randomBytes_run _ _)).
  rewrite (bind_run _ _ _ _ _ (Date_now_run _)).
  unfold saveKyberPreKey. rewrite store_set_run.
  unfold after_generatePreKeys. fold wl. by rewrite <- Hws.
Qed.

(** *** The store after [generatePreKeys] *)

Section Generated.
Variables (count : nat) (identityKeyPair : IdentityKeyPair) (first signedId kyberId : Z).
Variable w : World.

Definition generated : World :=
  after_generatePreKeys count identityKeyPair first signedId kyberId w.

(** The draws of the signed and of the post-quantum prekey. *)
Definition signed_draw : nat := (draws w + 3 * count + 1)%nat.
Definition kyber_draw : nat := (draws w + 3 * count + 5)%nat.

Lemma signed_step_after_loop :
  signed_step identityKeyPair signedId (after_loop count first w) =
  issue COUNTER_SIGNED_PREKEY (signedprekey_key signedId) signedId
    (VBin Uint8ArrayK
       (serialize (signedPreKey identityKeyPair signedId (clock w)
                     (drawn w signed_draw 32) (drawn w (S signed_draw) 64))))
    (after_loop count first w).
Proof.
  unfold signed_step, signed_draw.
  destruct (after_loop_shape count first w) as (Hdraws & Hentropy & Hclock & _).
  rewrite Hdraws, Hclock, !(drawn_entropy w _ _ _ Hentropy).
  by replace (S (draws w + 3 * count)) with (draws w + 3 * count + 1)%nat by lia.
Qed.

Lemma kyber_step_after_signed_step :
  generated =
  issue COUNTER_KYBER_PREKEY (kyberprekey_key kyberId) kyberId
    (VBin Uint8ArrayK
       (serialize (kyberPreKey identityKeyPair kyberId (clock w)
                     (drawn w kyber_draw 64) (drawn w (S kyber_draw) 64))))
    (signed_step identityKeyPair signedId (after_loop count first w)).
Proof.
  unfold generated, after_generatePreKeys, kyber_step, kyber_draw.
  destruct (after_loop_shape count first w) as (Hdraws & Hentropy & Hclock & _).
  set (ws := signed_step _ _ _).
  assert (Hws : draws ws = (draws w + 3 * count + 4)%nat ∧ entropy ws = entropy w ∧
                clock ws = clock w).
  { unfold ws, signed_step, issue. simpl. rewrite Hdraws, Hentropy, Hclock. split_and!; [lia|done..]. }
  destruct Hws as (Hdraws' & Hentropy' & Hclock').
  rewrite Hdraws', Hclock', !(drawn_entropy w _ _ _ Hentropy').
  by replace (S (draws w + 3 * count + 4)) with (draws w + 3 * count + 5)%nat by lia.
Qed.

Lemma generated_kv k :
  k ∉ [COUNTER_PREKEY; COUNTER_SIGNED_PREKEY; COUNTER_KYBER_PREKEY;
       signedprekey_key signedId; kyberprekey_key kyberId] →
  (∀ i : nat, (i < count)%nat → k ≠ prekey_key (first + Z.of_nat i)) →
  kv (db (store generated)) !! k = kv (db (store w)) !! k.
Proof.
  intros Hk Hids. rewrite !not_elem_of_cons in Hk. destruct Hk as (H1 & H2 & H3 & H4 & H5 & _).
  rewrite kyber_step_after_signed_step, issue_kv by done.
  rewrite signed_step_after_loop, issue_kv by done.
  by apply after_loop_frame.
Qed.

Lemma generated_meta : meta (db (store generated)) = meta (db (store w)).
Proof. unfold generated, after_generatePreKeys, kyber_step, signed_step, issue. simpl. apply after_loop_shape. Qed.

Lemma generated_key : key (store generated) = key (store w).
Proof. unfold generated, after_generatePreKeys, kyber_step, signed_step, issue. simpl. apply after_loop_shape. Qed.

Lemma generated_prekeys (i : nat) :
  (i < count)%nat →
  get (store generated) (prekey_key (first + Z.of_nat i)) =
  Ok (Some (VBin Uint8ArrayK
              (serialize (oneTimePreKey (first + Z.of_nat i) (drawn w (draws w + 3 * i + 1) 32))))).
Proof.
  intros Hi. rewrite kyber_step_after_signed_step, issue_get by distinct_keys.
  rewrite signed_step_after_loop, issue_get by distinct_keys.
  by apply after_loop_prekeys.
Qed.

Lemma generated_prekey_counter :
  (0 < count)%nat →
  get (store generated) COUNTER_PREKEY = Ok (Some (VNum (first + Z.of_nat count))).
Proof.
  intros Hcount. rewrite kyber_step_after_signed_step, issue_get by distinct_keys.
  rewrite signed_step_after_loop, issue_get by distinct_keys.
  by apply after_loop_counter.
Qed.

Lemma generated_signed :
  get (store generated) (signedprekey_key signedId) =
  Ok (Some (VBin Uint8ArrayK
              (serialize (signedPreKey identityKeyPair signedId (clock w)
                            (drawn w signed_draw 32) (drawn w (S signed_draw) 64))))).
Proof.
  rewrite kyber_step_after_signed_step, issue_get by distinct_keys.
  rewrite signed_step_after_loop. by apply issue_slot.
Qed.

Lemma generated_signed_counter :
  get (store generated) COUNTER_SIGNED_PREKEY = Ok (Some (VNum (signedId + 1))).
Proof.
  rewrite kyber_step_after_signed_step, issue_get by distinct_keys.
  rewrite signed_step_after_loop. apply issue_counter. distinct_keys.
Qed.

Lemma generated_kyber :
  get (store generated) (kyberprekey_key kyberId) =
  Ok (Some (VBin Uint8ArrayK
              (serialize (kyberPreKey identityKeyPair kyberId (clock w)
                            (drawn w kyber_draw 64) (drawn w (S kyber_draw) 64))))).
Proof. rewrite kyber_step_after_signed_step. by apply issue_slot. Qed.

Lemma generated_kyber_counter :
  get (store generated) COUNTER_KYBER_PREKEY = Ok (Some (VNum (kyberId + 1))).
Proof. rewrite kyber_step_after_signed_step. apply issue_counter. distinct_keys. Qed.

Lemma generated_identity :
  get (store generated) identityKeyPair_key = get (store w) identityKeyPair_key.
Proof.
  apply get_same; [apply generated_key|]. apply generated_kv.
  - rewrite !not_elem_of_cons. split_and!; try distinct_keys. apply not_elem_of_nil.
  - intros i _. distinct_keys.
Qed.

End Generated.

(** C7. On a store whose identity key pair loads and whose three
    counters read [preKeyCounter], [signedCounter] and [kyberCounter]
    (absent: 1), [generatePreKeys(count)] with [count >= 1] returns, and
    afterwards: the one-time prekeys [first], [first + 1], ...,
    [first + count - 1] are stored, each made from a draw of its own,
    and the counter stands at [first + count]; one signed prekey is
    stored under the old value of its counter, its signature made with
    the identity private key over the serialized public key; one
    post-quantum prekey likewise, signed over its serialized public key;
    both counters are stepped by one; and no other entry of table [kv]
    is touched. *)
Theorem generatePreKeys_allocates (w : World) (count : nat) (identityKeyPair : IdentityKeyPair)
    (preKeyCounter signedCounter kyberCounter : option Z) :
  (1 ≤ count)%nat →
  loadIdentityKeyPair w = Ok (identityKeyPair, w) →
  get_number COUNTER_PREKEY w = Ok (preKeyCounter, w) →
  get_number COUNTER_SIGNED_PREKEY w = Ok (signedCounter, w) →
  get_number COUNTER_KYBER_PREKEY w = Ok (kyberCounter, w) →
  let first := default 1 preKeyCounter in
  let signedId := default 1 signedCounter in
  let kyberId := default 1 kyberCounter in
  ∃ w' signed kyber,
    generatePreKeys count w = Ok (tt, w') ∧
    (∀ i : nat, (i < count)%nat →
       getPreKey (first + Z.of_nat i) w' =
       Ok (oneTimePreKey (first + Z.of_nat i) (drawn w (draws w + 3 * i + 1) 32), w')) ∧
    get_number COUNTER_PREKEY w' = Ok (Some (first + Z.of_nat count), w') ∧
    getSignedPreKey signedId w' = Ok (signed, w') ∧
    signed_id signed = signedId ∧
    signed_privateKey signed = PrivateKey_generate (drawn w (signed_draw count w) 32) ∧
    signed_publicKey signed = getPublicKey (signed_privateKey signed) ∧
    signed_signature signed =
      sign (privateKey identityKeyPair) (serialize (signed_publicKey signed))
        (drawn w (S (signed_draw count w)) 64) ∧
    get_number COUNTER_SIGNED_PREKEY w' = Ok (Some (signedId + 1), w') ∧
    getKyberPreKey kyberId w' = Ok (kyber, w') ∧
    kyber_id kyber = kyberId ∧
    kyber_keyPair kyber = KEMKeyPair_generate (drawn w (kyber_draw count w) 64) ∧
    kyber_signature kyber =
      sign (privateKey identityKeyPair) (serialize (kem_publicKey (kyber_keyPair kyber)))
        (drawn w (S (kyber_draw count w)) 64) ∧
    get_number COUNTER_KYBER_PREKEY w' = Ok (Some (kyberId + 1), w') ∧
    (∀ k, k ∉ [COUNTER_PREKEY; COUNTER_SIGNED_PREKEY; COUNTER_KYBER_PREKEY;
               signedprekey_key signedId; kyberprekey_key kyberId] →
          (∀ i : nat, (i < count)%nat → k ≠ prekey_key (first + Z.of_nat i)) →
          kv (db (store w')) !! k = kv (db (store w)) !! k).
Proof.
  intros Hcount Hload Hpre Hsigned Hkyber first signedId kyberId.
  exists (generated count identityKeyPair first signedId kyberId w).
  exists (signedPreKey identityKeyPair signedId (clock w)
            (drawn w (signed_draw count w) 32) (drawn w (S (signed_draw count w)) 64)).
  exists (kyberPreKey identityKeyPair kyberId (clock w)
            (drawn w (kyber_draw count w) 64) (drawn w (S (kyber_draw count w)) 64)).
  split_and!; try reflexivity.
  - by apply generatePreKeys_run.
  - intros i Hi. eapply getPreKey_stored. by apply generated_prekeys.
  - apply get_number_stored, generated_prekey_counter. lia.
  - eapply getSignedPreKey_stored, generated_signed.
  - apply get_number_stored, generated_signed_counter.
  - eapply getKyberPreKey_stored, generated_kyber.
  - apply get_number_stored, generated_kyber_counter.
  - apply generated_kv.
Qed.

(** *** [exportBundle] *)

Lemma readonly_getDeviceId : readonly getDeviceId.
Proof. apply readonly_bind; [apply readonly_meta_number|]. intros. apply readonly_ret. Qed.

Lemma exportBundle_run w identityKeyPair localId registrationId device
    signedCounter preKeyCounter kyberCounter signedPreKey preKey kyberPreKey :
  loadIdentityKeyPair w = Ok (identityKeyPair, w) →
  getRegistrationId w = Ok (Some registrationId, w) →
  getLocalId w = Ok (Some localId, w) →
  localId ≠ EmptyString →
  getDeviceId w = Ok (device, w) →
  get_number COUNTER_SIGNED_PREKEY w = Ok (signedCounter, w) →
  get_number COUNTER_PREKEY w = Ok (preKeyCounter, w) →
  get_number COUNTER_KYBER_PREKEY w = Ok (kyberCounter, w) →
  getSignedPreKey (default 2 signedCounter - 1) w = Ok (signedPreKey, w) →
  getPreKey (default 2 preKeyCounter - 1) w = Ok (preKey, w) →
  getKyberPreKey (default 2 kyberCounter - 1) w = Ok (kyberPreKey, w) →
  exportBundle w =
  Ok (Wire.mkBundle localId device registrationId
        (toBase64 (serialize (publicKey identityKeyPair)))
        (Wire.mkSignedPreKeyPart (default 2 signedCounter - 1)
           (toBase64 (serialize (signed_publicKey signedPreKey)))
           (toBase64 (signed_signature signedPreKey)))
        (Wire.mkPreKeyPart (default 2 preKeyCounter - 1)
           (toBase64 (serialize (pre_publicKey preKey))))
        (Wire.mkKyberPreKeyPart (default 2 kyberCounter - 1)
           (toBase64 (serialize (kem_publicKey (kyber_keyPair kyberPreKey))))
           (toBase64 (kyber_signature kyberPreKey))), w).
Proof.
  intros Hload Hreg Hid Hne Hdev Hsc Hpc Hkc Hsigned Hpre Hkyber. unfold exportBundle.
  rewrite (bind_run _ _ w _ _ Hload), (bind_run _ _ w _ _ Hreg), (bind_run _ _ w _ _ Hid).
  rewrite bool_decide_eq_false_2 by done.
  rewrite (bind_run _ _ w _ _ Hdev), (bind_run _ _ w _ _ Hsc), (bind_run _ _ w _ _ Hpc).
  rewrite (bind_run _ _ w _ _ Hkc), (bind_run _ _ w _ _ Hsigned), (bind_run _ _ w _ _ Hpre).
  by rewrite (bind_run _ _ w _ _ Hkyber).
Qed.

(** Without a local id or without a registration id, [exportBundle] throws. *)
Lemma exportBundle_not_set w :
  getLocalId w = Ok (None, w) ∨ getLocalId w = Ok (Some EmptyString, w) ∨
  getRegistrationId w = Ok (None, w) →
  ∃ e, exportBundle w = Err e.
Proof.
  intros Hnot. unfold exportBundle.
  destruct (loadIdentityKeyPair w) as [[identityKeyPair w0]|e] eqn:Hload;
    [|exists e; by apply bind_err].
  apply readonly_loadIdentityKeyPair in Hload as Hw. subst w0.
  rewrite (bind_run _ _ w _ _ Hload).
  destruct (getRegistrationId w) as [[registrationId w0]|e] eqn:Hreg;
    [|exists e; by apply bind_err].
  apply readonly_meta_number in Hreg as Hw. subst w0.
  rewrite (bind_run _ _ w _ _ Hreg).
  destruct (getLocalId w) as [[localId w0]|e] eqn:Hid; [|exists e; by apply bind_err].
  apply readonly_getLocalId in Hid as Hw. subst w0.
  rewrite (bind_run _ _ w _ _ Hid). exists not_set.
  destruct Hnot as [[= ->]|[[= ->]|[= ->]]]; [done| |by destruct localId].
  by destruct registrationId.
Qed.

(** C8. After [generatePreKeys(count)], [count >= 1], on a store with
    local id, registration id and identity key pair, [exportBundle]
    returns the bundle of the local id, the device id (1 when none is
    stored), the registration id and the identity public key, with, in
    each category, the id allocated last ([first + count - 1] for the
    one-time prekeys, the counter's old value for the two others) and
    the public key (and signature) of the record stored under that id.
    On any store without a local id (or with an empty one) or without a
    registration id, [exportBundle] throws. *)
Theorem exportBundle_latest (w : World) (count : nat) (identityKeyPair : IdentityKeyPair)
    (preKeyCounter signedCounter kyberCounter : option Z)
    (localId : string) (registrationId device : Z) :
  (1 ≤ count)%nat →
  loadIdentityKeyPair w = Ok (identityKeyPair, w) →
  get_number COUNTER_PREKEY w = Ok (preKeyCounter, w) →
  get_number COUNTER_SIGNED_PREKEY w = Ok (signedCounter, w) →
  get_number COUNTER_KYBER_PREKEY w = Ok (kyberCounter, w) →
  getLocalId w = Ok (Some localId, w) →
  localId ≠ EmptyString →
  getRegistrationId w = Ok (Some registrationId, w) →
  getDeviceId w = Ok (device, w) →
  let last := default 1 preKeyCounter + Z.of_nat count - 1 in
  let signedId := default 1 signedCounter in
  let kyberId := default 1 kyberCounter in
  (∃ w' bundle preKey signedPreKey kyberPreKey,
     generatePreKeys count w = Ok (tt, w') ∧
     exportBundle w' = Ok (bundle, w') ∧
     getPreKey last w' = Ok (preKey, w') ∧
     getSignedPreKey signedId w' = Ok (signedPreKey, w') ∧
     getKyberPreKey kyberId w' = Ok (kyberPreKey, w') ∧
     bundle =
       Wire.mkBundle localId device registrationId
         (toBase64 (serialize (publicKey identityKeyPair)))
         (Wire.mkSignedPreKeyPart signedId
            (toBase64 (serialize (signed_publicKey signedPreKey)))
            (toBase64 (signed_signature signedPreKey)))
         (Wire.mkPreKeyPart last (toBase64 (serialize (pre_publicKey preKey))))
         (Wire.mkKyberPreKeyPart kyberId
            (toBase64 (serialize (kem_publicKey (kyber_keyPair kyberPreKey))))
            (toBase64 (kyber_signature kyberPreKey)))) ∧
  (∀ w0,
     getLocalId w0 = Ok (None, w0) ∨ getLocalId w0 = Ok (Some EmptyString, w0) ∨
     getRegistrationId w0 = Ok (None, w0) →
     ∃ e, exportBundle w0 = Err e).
Proof.
  intros Hcount Hload Hpre Hsigned Hkyber Hid Hne Hreg Hdev last signedId kyberId.
  split; [|apply exportBundle_not_set].
  set (first := default 1 preKeyCounter).
  set (w' := generated count identityKeyPair first signedId kyberId w).
  assert (Hmeta : meta (db (store w')) = meta (db (store w))) by apply generated_meta.
  assert (Hlast : last = first + Z.of_nat (count - 1)) by (unfold last; lia).
  set (preKey := oneTimePreKey last (drawn w (draws w + 3 * (count - 1) + 1) 32)).
  set (signedPreKey := signedPreKey identityKeyPair signedId (clock w)
                         (drawn w (signed_draw count w) 32) (drawn w (S (signed_draw count w)) 64)).
  set (kyberPreKey := kyberPreKey identityKeyPair kyberId (clock w)
                        (drawn w (kyber_draw count w) 64) (drawn w (S (kyber_draw count w)) 64)).
  assert (HpreKey : getPreKey last w' = Ok (preKey, w')).
  { eapply getPreKey_stored. unfold preKey. rewrite Hlast. apply generated_prekeys. lia. }
  assert (HsignedKey : getSignedPreKey signedId w' = Ok (signedPreKey, w')).
  { eapply getSignedPreKey_stored, generated_signed. }
  assert (HkyberKey : getKyberPreKey kyberId w' = Ok (kyberPreKey, w')).
  { eapply getKyberPreKey_stored, generated_kyber. }
  eexists w', _, preKey, signedPreKey, kyberPreKey. split_and!.
  6: reflexivity.
  1: by apply generatePreKeys_run.
  2-4: done.
  rewrite (exportBundle_run w' identityKeyPair localId registrationId device
             (Some (signedId + 1)) (Some (first + Z.of_nat count)) (Some (kyberId + 1))
             signedPreKey preKey kyberPreKey).
  - simpl. replace (signedId + 1 - 1) with signedId by lia.
    replace (kyberId + 1 - 1) with kyberId by lia. done.
  - rewrite (loadIdentityKeyPair_frame w), Hload; [done|]. apply generated_identity.
  - unfold getRegistrationId in *. by rewrite (meta_number_frame _ w), Hreg.
  - by rewrite (getLocalId_frame w), Hid.
  - done.
  - by rewrite (getDeviceId_frame w), Hdev.
  - apply get_number_stored, generated_signed_counter.
  - apply get_number_stored, generated_prekey_counter. lia.
  - apply get_number_stored, generated_kyber_counter.
  - simpl. replace (signedId + 1 - 1) with signedId by lia. done.
  - done.
  - simpl. replace (kyberId + 1 - 1) with kyberId by lia. done.
Qed.

(** *** The adapters, one beside the other *)

Lemma isTrustedIdentity_frame address k w w' :
  get (store w') (identity_key address) = get (store w) (identity_key address) →
  isTrustedIdentity address k w' = rebase w' (isTrustedIdentity address k w).
Proof.
  intros Hget. unfold isTrustedIdentity, mbind, M_bind, bind.
  rewrite (load_frame _ w w' Hget).
  destruct (load (identity_key address) w) as [[[d|] w0]|]; simpl; try done.
  rewrite (parse_frame d w0 w'). by destruct (parse d w0) as [[]|].
Qed.

Lemma getSignedPreKey_frame id w w' :
  get (store w') (signedprekey_key id) = get (store w) (signedprekey_key id) →
  getSignedPreKey id w' = rebase w' (getSignedPreKey id w).
Proof.
  intros Hget. unfold getSignedPreKey, mbind, M_bind, bind.
  rewrite (load_frame _ w w' Hget).
  destruct (load (signedprekey_key id) w) as [[[d|] w0]|]; simpl; try done.
  rewrite (parse_frame d w0 w'). by destruct (parse d w0) as [[]|].
Qed.

Lemma getKyberPreKey_frame id w w' :
  get (store w') (kyberprekey_key id) = get (store w) (kyberprekey_key id) →
  getKyberPreKey id w' = rebase w' (getKyberPreKey id w).
Proof.
  intros Hget. unfold getKyberPreKey, mbind, M_bind, bind.
  rewrite (load_frame _ w w' Hget).
  destruct (load (kyberprekey_key id) w) as [[[d|] w0]|]; simpl; try done.
  rewrite (parse_frame d w0 w'). by destruct (parse d w0) as [[]|].
Qed.

Lemma signedprekey_key_inj id id' : signedprekey_key id = signedprekey_key id' → id = id'.
Proof. unfold signedprekey_key. peel. intros [= Heq]. by apply (inj pretty) in Heq. Qed.

Lemma kyberprekey_key_inj id id' : kyberprekey_key id = kyberprekey_key id' → id = id'.
Proof. unfold kyberprekey_key. peel. intros [= Heq]. by apply (inj pretty) in Heq. Qed.

Lemma kyberprekey_used_key_ne id id' : kyberprekey_used_key id ≠ kyberprekey_key id'.
Proof.
  unfold kyberprekey_used_key, kyberprekey_key. peel. intros [= Heq].
  symmetry in Heq. by eapply pretty_Z_not_word in Heq.
Qed.

(** The keys of the stores, family by family. *)
Ltac other_family :=
  unfold identityKeyPair_key, identity_key, session_key, prekey_key, prekey_used_key,
    signedprekey_key, kyberprekey_key, kyberprekey_used_key,
    COUNTER_PREKEY, COUNTER_SIGNED_PREKEY, COUNTER_KYBER_PREKEY;
  peel; by intros [=].

(** X17. Sessions are kept apart by address: [saveSession] followed by
    [getSession] at the same address returns the record; the session of
    every other address (another name, or the same name with another
    device id, whatever dots the names contain) and the identity store
    answer as before. *)
Theorem sessions_are_kept_by_address (w : World) (a : ProtocolAddress) (record : SessionRecord) :
  let w' := put (session_key a) (VBin Uint8ArrayK (serialize record)) w in
  saveSession a record w = Ok (tt, w') ∧
  getSession a w' = Ok (Some record, w') ∧
  (∀ a', a' ≠ a → getSession a' w' = rebase w' (getSession a' w)) ∧
  (∀ a' k, isTrustedIdentity a' k w' = rebase w' (isTrustedIdentity a' k w)) ∧
  (get (store w) (session_key a) = Ok None → getSession a w = Ok (None, w)).
Proof.
  intros w'. split_and!.
  - reflexivity.
  - eapply getSession_stored. unfold w'. by rewrite get_put_eq.
  - intros a' Hne. apply getSession_frame, get_put_ne. by intros ?%session_key_inj.
  - intros a' k. apply isTrustedIdentity_frame, get_put_ne.
    intros Heq. symmetry in Heq. by apply identity_key_ne_session_key in Heq.
  - intros Hnone. unfold getSession. by rewrite (bind_run _ _ w _ w (load_none _ _ Hnone)).
Qed.


Lemma identity_stored address (k : PublicKey) w :
  load (identity_key address) (put (identity_key address) (VBin Uint8ArrayK (serialize k)) w) =
  Ok (Some (serialize k), put (identity_key address) (VBin Uint8ArrayK (serialize k)) w).
Proof. eapply load_bytes. by rewrite get_put_eq. Qed.

(** X18. The identity store trusts on first use and never refuses a
    write: an address without a stored key is trusted with any key and
    [saveIdentity] reports it as new; afterwards [isTrustedIdentity]
    accepts exactly the key with the stored bytes; and [saveIdentity]
    with another key overwrites the stored one, reporting a
    replacement. *)
Theorem identity_is_trusted_on_first_use (w : World) (a : ProtocolAddress) (k k' : PublicKey) :
  get (store w) (identity_key a) = Ok None →
  let w1 := put (identity_key a) (VBin Uint8ArrayK (serialize k)) w in
  let w2 := put (identity_key a) (VBin Uint8ArrayK (serialize k')) w1 in
  isTrustedIdentity a k w = Ok (true, w) ∧
  saveIdentity a k w = Ok (false, w1) ∧
  isTrustedIdentity a k' w1 = Ok (bool_decide (public_bytes k = public_bytes k'), w1) ∧
  saveIdentity a k' w1 = Ok (negb (bool_decide (public_bytes k = public_bytes k')), w2) ∧
  isTrustedIdentity a k' w2 = Ok (true, w2).
Proof.
  intros Hnone w1 w2. split_and!.
  - unfold isTrustedIdentity. by rewrite (bind_run _ _ w _ w (load_none _ _ Hnone)).
  - unfold saveIdentity. rewrite (bind_run _ _ w _ w (load_none _ _ Hnone)).
    by rewrite (bind_run _ _ w _ _ (store_set_run _ _ _)).
  - unfold isTrustedIdentity. rewrite (bind_run _ _ w1 _ _ (identity_stored a k w)).
    by rewrite (bind_run _ _ w1 _ _ (parse_run k w1)).
  - unfold saveIdentity. rewrite (bind_run _ _ w1 _ _ (identity_stored a k w)).
    rewrite (bind_run _ _ w1 _ _ (store_set_run _ _ _)).
    by rewrite (bind_run _ _ _ _ _ (parse_run k _)).
  - unfold isTrustedIdentity. rewrite (bind_run _ _ w2 _ _ (identity_stored a k' w1)).
    rewrite (bind_run _ _ w2 _ _ (parse_run k' w2)). by rewrite bool_decide_eq_true_2.
Qed.

(** X19. Like a one-time prekey, a post-quantum prekey is kept when it
    is used: [markKyberPreKeyUsed] writes the marker
    [kyberprekey:used:id] (the signed prekey id, the base key's bytes and
    the time) and nothing else, so [getKyberPreKey], [getPreKey] and
    [getSignedPreKey] answer for every id what they answered before. *)
Theorem markKyberPreKeyUsed_keeps_the_record
    (w : World) (id signedPreKeyId : Z) (baseKey : PublicKey) :
  let marker := VObj [("signedPreKeyId", VNum signedPreKeyId);
                      ("baseKey", VBin Uint8ArrayK (serialize baseKey));
                      ("usedAt", VNum (clock w))] in
  let w' := put (kyberprekey_used_key id) marker w in
  markKyberPreKeyUsed id signedPreKeyId baseKey w = Ok (tt, w') ∧
  get (store w') (kyberprekey_used_key id) = Ok (Some marker) ∧
  (∀ id', kv (db (store w')) !! kyberprekey_key id' = kv (db (store w)) !! kyberprekey_key id') ∧
  (∀ id', getKyberPreKey id' w' = rebase w' (getKyberPreKey id' w)) ∧
  (∀ id', getPreKey id' w' = rebase w' (getPreKey id' w)) ∧
  (∀ id', getSignedPreKey id' w' = rebase w' (getSignedPreKey id' w)).
Proof.
  intros marker w'. split_and!.
  - reflexivity.
  - unfold w'. by rewrite get_put_eq.
  - intros id'. apply kv_put_ne, kyberprekey_used_key_ne.
  - intros id'. apply getKyberPreKey_frame, get_put_ne, kyberprekey_used_key_ne.
  - intros id'. apply getPreKey_frame, get_put_ne. other_family.
  - intros id'. apply getSignedPreKey_frame, get_put_ne. other_family.
Qed.


Lemma material_missing {A} `{Codec A} k e w :
  get (store w) k = Ok None →
  (stored ← load k; match stored with None => throw e | Some d => parse (A := A) d end) w = Err e.
Proof. intros Hnone. by rewrite (bind_run _ _ w _ w (load_none _ _ Hnone)). Qed.

(** X20. The three prekey stores are separate name spaces, although
    their ids all count from 1: a record saved under an id is returned
    for that id by the getter of its own store, and changes nothing for
    any id of the two other stores nor for the other ids of its own; an
    id with no record makes the getter throw its not-found error. *)
Theorem prekey_stores_are_separate (w : World) (id : Z)
    (preKey : PreKeyRecord) (signedPreKey : SignedPreKeyRecord) (kyberPreKey : KyberPreKeyRecord) :
  let w1 := put (prekey_key id) (VBin Uint8ArrayK (serialize preKey)) w in
  let w2 := put (signedprekey_key id) (VBin Uint8ArrayK (serialize signedPreKey)) w in
  let w3 := put (kyberprekey_key id) (VBin Uint8ArrayK (serialize kyberPreKey)) w in
  (savePreKey id preKey w = Ok (tt, w1) ∧
   getPreKey id w1 = Ok (preKey, w1) ∧
   (∀ id', id' ≠ id → getPreKey id' w1 = rebase w1 (getPreKey id' w)) ∧
   (∀ id', getSignedPreKey id' w1 = rebase w1 (getSignedPreKey id' w)) ∧
   (∀ id', getKyberPreKey id' w1 = rebase w1 (getKyberPreKey id' w))) ∧
  (saveSignedPreKey id signedPreKey w = Ok (tt, w2) ∧
   getSignedPreKey id w2 = Ok (signedPreKey, w2) ∧
   (∀ id', id' ≠ id → getSignedPreKey id' w2 = rebase w2 (getSignedPreKey id' w)) ∧
   (∀ id', getPreKey id' w2 = rebase w2 (getPreKey id' w)) ∧
   (∀ id', getKyberPreKey id' w2 = rebase w2 (getKyberPreKey id' w))) ∧
  (saveKyberPreKey id kyberPreKey w = Ok (tt, w3) ∧
   getKyberPreKey id w3 = Ok (kyberPreKey, w3) ∧
   (∀ id', id' ≠ id → getKyberPreKey id' w3 = rebase w3 (getKyberPreKey id' w)) ∧
   (∀ id', getPreKey id' w3 = rebase w3 (getPreKey id' w)) ∧
   (∀ id', getSignedPreKey id' w3 = rebase w3 (getSignedPreKey id' w))) ∧
  (∀ id', get (store w) (prekey_key id') = Ok None →
          getPreKey id' w = Err (MaterialNotFound "PreKey" id')) ∧
  (∀ id', get (store w) (signedprekey_key id') = Ok None →
          getSignedPreKey id' w = Err (MaterialNotFound "SignedPreKey" id')) ∧
  (∀ id', get (store w) (kyberprekey_key id') = Ok None →
          getKyberPreKey id' w = Err (MaterialNotFound "KyberPreKey" id')).
Proof.
  intros w1 w2 w3. split_and!.
  - reflexivity.
  - eapply getPreKey_stored. unfold w1. by rewrite get_put_eq.
  - intros id' Hne. apply getPreKey_frame, get_put_ne. by intros ?%prekey_key_inj.
  - intros id'. apply getSignedPreKey_frame, get_put_ne. other_family.
  - intros id'. apply getKyberPreKey_frame, get_put_ne. other_family.
  - reflexivity.
  - eapply getSignedPreKey_stored. unfold w2. by rewrite get_put_eq.
  - intros id' Hne. apply getSignedPreKey_frame, get_put_ne. by intros ?%signedprekey_key_inj.
  - intros id'. apply getPreKey_frame, get_put_ne. other_family.
  - intros id'. apply getKyberPreKey_frame, get_put_ne. other_family.
  - reflexivity.
  - eapply getKyberPreKey_stored. unfold w3. by rewrite get_put_eq.
  - intros id' Hne. apply getKyberPreKey_frame, get_put_ne. by intros ?%kyberprekey_key_inj.
  - intros id'. apply getPreKey_frame, get_put_ne. other_family.
  - intros id'. apply getSignedPreKey_frame, get_put_ne. other_family.
  - intros id' Hnone. by apply material_missing.
  - intros id' Hnone. by apply material_missing.
  - intros id' Hnone. by apply material_missing.
Qed.


(** *** [initializeIdentity] *)

(** The world [initializeIdentity] leaves: two draws (the registration
    id, the identity key pair), three rows of [meta], one entry of [kv]
    (and the draw of its nonce). *)
Definition initialized (localId : string) (deviceId : Z) (w : World) : World :=
  let registrationId := 1 + bytes_to_Z (drawn w (draws w) 6) `mod` (16380 - 1) in
  let identityKeyPair := IdentityKeyPair_generate (drawn w (S (draws w)) 32) in
  put identityKeyPair_key (VBin Uint8ArrayK (serialize identityKeyPair))
    (mkWorld
       (mkStore
          (setMeta (setMeta (setMeta (db (store w)) META_LOCAL_ID (JStr localId))
                      META_DEVICE_ID (JNum deviceId))
             META_REG_ID (JNum registrationId))
          (key (store w)))
       (entropy w) (S (S (draws w))) (clock w)).

Lemma initializeIdentity_run localId deviceId w :
  initializeIdentity localId deviceId w = Ok (tt, initialized localId deviceId w).
Proof. reflexivity. Qed.

Lemma initialized_meta localId deviceId w k :
  getMeta (db (store (initialized localId deviceId w))) k =
  getMeta (setMeta (setMeta (setMeta (db (store w)) META_LOCAL_ID (JStr localId))
                      META_DEVICE_ID (JNum deviceId))
             META_REG_ID (JNum (1 + bytes_to_Z (drawn w (draws w) 6) `mod` 16379))) k.
Proof. reflexivity. Qed.

Lemma initialized_localId localId deviceId w :
  getLocalId (initialized localId deviceId w) = Ok (Some localId, initialized localId deviceId w).
Proof.
  unfold getLocalId, mbind, M_bind, bind, meta_get, lift. rewrite initialized_meta.
  rewrite !getMeta_setMeta_ne by done. by rewrite getMeta_setMeta.
Qed.

Lemma initialized_deviceId localId deviceId w :
  getDeviceId (initialized localId deviceId w) = Ok (deviceId, initialized localId deviceId w).
Proof.
  unfold getDeviceId, meta_number, mbind, M_bind, bind, meta_get, lift. rewrite initialized_meta.
  rewrite !getMeta_setMeta_ne by done. by rewrite getMeta_setMeta.
Qed.

Lemma initialized_registrationId localId deviceId w :
  getRegistrationId (initialized localId deviceId w) =
  Ok (Some (1 + bytes_to_Z (drawn w (draws w) 6) `mod` 16379), initialized localId deviceId w).
Proof.
  unfold getRegistrationId, meta_number, mbind, M_bind, bind, meta_get, lift.
  rewrite initialized_meta. by rewrite getMeta_setMeta.
Qed.

Lemma initialized_identity localId deviceId w :
  loadIdentityKeyPair (initialized localId deviceId w) =
  Ok (IdentityKeyPair_generate (drawn w (S (draws w)) 32), initialized localId deviceId w).
Proof.
  assert (Hload : load identityKeyPair_key (initialized localId deviceId w) =
                  Ok (Some (serialize (IdentityKeyPair_generate (drawn w (S (draws w)) 32))),
                      initialized localId deviceId w)).
  { eapply load_bytes. unfold initialized. by rewrite get_put_eq. }
  unfold loadIdentityKeyPair. rewrite (bind_run _ _ _ _ _ Hload). apply parse_run.
Qed.

Lemma initialized_kv localId deviceId w k :
  k ≠ identityKeyPair_key →
  kv (db (store (initialized localId deviceId w))) !! k = kv (db (store w)) !! k.
Proof. intros Hne. unfold initialized. by rewrite kv_put_ne. Qed.

(** X21. [initializeIdentity(localId, deviceId)] on any store returns
    and leaves: the local id and the device id as given (an empty local
    id is accepted), a registration id between 1 and 16379, and the
    generated identity key pair under [local:identityKeyPair]. It
    replaces an identity that was there, and it touches no other entry
    of [kv]: prekeys, sessions and counters of an earlier identity
    stay. *)
Theorem initializeIdentity_sets_the_identity (w : World) (localId : string) (deviceId : Z) :
  ∃ w' registrationId,
    initializeIdentity localId deviceId w = Ok (tt, w') ∧
    getLocalId w' = Ok (Some localId, w') ∧
    getDeviceId w' = Ok (deviceId, w') ∧
    getRegistrationId w' = Ok (Some registrationId, w') ∧
    1 ≤ registrationId < 16380 ∧
    loadIdentityKeyPair w' = Ok (IdentityKeyPair_generate (drawn w (S (draws w)) 32), w') ∧
    (∀ k, k ≠ identityKeyPair_key → kv (db (store w')) !! k = kv (db (store w)) !! k).
Proof.
  exists (initialized localId deviceId w), (1 + bytes_to_Z (drawn w (draws w) 6) `mod` 16379).
  split_and!.
  - apply initializeIdentity_run.
  - apply initialized_localId.
  - apply initialized_deviceId.
  - apply initialized_registrationId.
  - pose proof (Z.mod_pos_bound (bytes_to_Z (drawn w (draws w) 6)) 16379). lia.
  - pose proof (Z.mod_pos_bound (bytes_to_Z (drawn w (draws w) 6)) 16379). lia.
  - apply initialized_identity.
  - intros k Hne. by apply initialized_kv.
Qed.


Lemma get_absent k w : kv (db (store w)) !! k = None → get (store w) k = Ok None.
Proof. unfold get. by intros ->. Qed.

Lemma get_number_none k w : get (store w) k = Ok None → get_number k w = Ok (None, w).
Proof. intros Hget. unfold get_number, mbind, M_bind, bind, store_get, lift. by rewrite Hget. Qed.

(** X22. From [mega init] to the first bundle. On a store that holds no
    counter and no signed prekey 1, after [initializeIdentity] with a
    non-empty local id: [exportBundle] throws, for want of signed prekey
    1 (the counters are absent, so it looks for id 2 - 1); after
    [generatePreKeys(1)] it returns a bundle of the local id, the device
    id and the registration id drawn, in which the one-time, the signed
    and the post-quantum prekey all have id 1. *)
Theorem first_bundle_after_init (w : World) (localId : string) (deviceId : Z) :
  localId ≠ EmptyString →
  (∀ k, k ∈ [COUNTER_SIGNED_PREKEY; COUNTER_PREKEY; COUNTER_KYBER_PREKEY; signedprekey_key 1] →
        kv (db (store w)) !! k = None) →
  ∃ w' w'' bundle registrationId,
    initializeIdentity localId deviceId w = Ok (tt, w') ∧
    exportBundle w' = Err (MaterialNotFound "SignedPreKey" 1) ∧
    generatePreKeys 1 w' = Ok (tt, w'') ∧
    exportBundle w'' = Ok (bundle, w'') ∧
    getRegistrationId w' = Ok (Some registrationId, w') ∧
    Wire.id bundle = localId ∧
    Wire.deviceId bundle = deviceId ∧
    Wire.registrationId bundle = registrationId ∧
    Wire.pk_keyId (Wire.preKey bundle) = 1 ∧
    Wire.spk_keyId (Wire.signedPreKey bundle) = 1 ∧
    Wire.kpk_keyId (Wire.kyberPreKey bundle) = 1.
Proof.
  intros Hne Habsent.
  set (w' := initialized localId deviceId w).
  set (identityKeyPair := IdentityKeyPair_generate (drawn w (S (draws w)) 32)).
  set (registrationId := 1 + bytes_to_Z (drawn w (draws w) 6) `mod` 16379).
  assert (Hnone : ∀ k, k ∈ [COUNTER_SIGNED_PREKEY; COUNTER_PREKEY; COUNTER_KYBER_PREKEY;
                            signedprekey_key 1] → get (store w') k = Ok None).
  { intros k Hk. apply get_absent. unfold w'. rewrite initialized_kv; [by apply Habsent|].
    rewrite !elem_of_cons, elem_of_nil in Hk.
    destruct Hk as [->|[->|[->|[->|[]]]]]; other_family. }
  assert (Hsigned : get_number COUNTER_SIGNED_PREKEY w' = Ok (None, w')).
  { apply get_number_none, Hnone. rewrite !elem_of_cons. auto. }
  assert (Hpre : get_number COUNTER_PREKEY w' = Ok (None, w')).
  { apply get_number_none, Hnone. rewrite !elem_of_cons. auto. }
  assert (Hkyber : get_number COUNTER_KYBER_PREKEY w' = Ok (None, w')).
  { apply get_number_none, Hnone. rewrite !elem_of_cons. auto. }
  pose proof (initialized_identity localId deviceId w) as Hload.
  pose proof (initialized_registrationId localId deviceId w) as Hreg.
  pose proof (initialized_localId localId deviceId w) as Hid.
  pose proof (initialized_deviceId localId deviceId w) as Hdev.
  fold w' identityKeyPair registrationId in Hload, Hreg, Hid, Hdev.
  set (w'' := generated 1 identityKeyPair 1 1 1 w').
  assert (Hmeta : meta (db (store w'')) = meta (db (store w'))) by apply generated_meta.
  set (preKey := oneTimePreKey 1 (drawn w' (draws w' + 3 * 0 + 1) 32)).
  set (signedPreKey := signedPreKey identityKeyPair 1 (clock w')
                         (drawn w' (signed_draw 1 w') 32) (drawn w' (S (signed_draw 1 w')) 64)).
  set (kyberPreKey := kyberPreKey identityKeyPair 1 (clock w')
                        (drawn w' (kyber_draw 1 w') 64) (drawn w' (S (kyber_draw 1 w')) 64)).
  eexists w', w'', _, registrationId. split_and!.
  - apply initializeIdentity_run.
  - unfold exportBundle.
    rewrite (bind_run _ _ w' _ _ Hload), (bind_run _ _ w' _ _ Hreg), (bind_run _ _ w' _ _ Hid).
    rewrite bool_decide_eq_false_2 by done.
    rewrite (bind_run _ _ w' _ _ Hdev), (bind_run _ _ w' _ _ Hsigned).
    rewrite (bind_run _ _ w' _ _ Hpre), (bind_run _ _ w' _ _ Hkyber).
    apply bind_err, material_missing, Hnone. rewrite !elem_of_cons. auto 10.
  - by apply (generatePreKeys_run 1 w' identityKeyPair None None None).
  - apply (exportBundle_run w'' identityKeyPair localId registrationId deviceId
             (Some 2) (Some 2) (Some 2) signedPreKey preKey kyberPreKey).
    + rewrite (loadIdentityKeyPair_frame w'), Hload; [done|]. apply generated_identity.
    + unfold getRegistrationId in *. by rewrite (meta_number_frame _ w'), Hreg.
    + by rewrite (getLocalId_frame w'), Hid.
    + done.
    + by rewrite (getDeviceId_frame w'), Hdev.
    + apply get_number_stored, (generated_signed_counter 1 identityKeyPair 1 1 1 w').
    + apply get_number_stored, (generated_prekey_counter 1 identityKeyPair 1 1 1 w'). lia.
    + apply get_number_stored, (generated_kyber_counter 1 identityKeyPair 1 1 1 w').
    + eapply getSignedPreKey_stored, (generated_signed 1 identityKeyPair 1 1 1 w').
    + eapply getPreKey_stored, (generated_prekeys 1 identityKeyPair 1 1 1 w' 0). lia.
    + eapply getKyberPreKey_stored, (generated_kyber 1 identityKeyPair 1 1 1 w').
  - done.
  - done.
  - done.
  - done.
  - done.
  - done.
  - done.
Qed.


Lemma readonly_get_number k : readonly (get_number k).
Proof.
  apply readonly_bind; [apply readonly_store_get|].
  intros [[]|]; first [apply readonly_ret|apply readonly_throw].
Qed.

Lemma readonly_material {A} `{Codec A} k e :
  readonly (stored ← load k; match stored with None => throw e | Some d => parse (A := A) d end).
Proof.
  apply readonly_bind; [apply readonly_load|].
  intros [d|]; [apply readonly_parse|apply readonly_throw].
Qed.

Lemma readonly_exportBundle : readonly exportBundle.
Proof.
  apply readonly_bind; [apply readonly_loadIdentityKeyPair|]. intros identityKeyPair.
  apply readonly_bind; [apply readonly_meta_number|]. intros registrationId.
  apply readonly_bind; [apply readonly_getLocalId|]. intros [localId|]; [|apply readonly_throw].
  destruct registrationId as [registration|]; [|apply readonly_throw].
  case_bool_decide; [apply readonly_throw|].
  apply readonly_bind; [apply readonly_getDeviceId|]. intros deviceId.
  apply readonly_bind; [apply readonly_get_number|]. intros signedCounter.
  apply readonly_bind; [apply readonly_get_number|]. intros preKeyCounter.
  apply readonly_bind; [apply readonly_get_number|]. intros kyberCounter.
  apply readonly_bind; [apply readonly_material|]. intros signedPreKey.
  apply readonly_bind; [apply readonly_material|]. intros preKey.
  apply readonly_bind; [apply readonly_material|]. intros kyberPreKey.
  apply readonly_ret.
Qed.

(** X23. [exportBundle] consumes nothing: when it returns a bundle, the
    store, the counters and the randomness are as before, so exporting
    again returns the very same bundle, with the same one-time prekey;
    and the one-time prekey it names is still stored afterwards. *)
Theorem exportBundle_hands_out_the_same_prekey (w w' : World) (bundle : Wire.Bundle) :
  exportBundle w = Ok (bundle, w') →
  w' = w ∧
  exportBundle w' = Ok (bundle, w') ∧
  ∃ preKey, getPreKey (Wire.pk_keyId (Wire.preKey bundle)) w' = Ok (preKey, w') ∧
            Wire.pk_publicKey (Wire.preKey bundle) = toBase64 (serialize (pre_publicKey preKey)).
Proof.
  intros Hexport. pose proof (readonly_exportBundle _ _ _ Hexport) as ->.
  split_and!; [done..|].
  unfold exportBundle in Hexport.
  apply bind_Ok in Hexport as (identityKeyPair & w0 & H0 & Hexport).
  apply readonly_loadIdentityKeyPair in H0 as ->.
  apply bind_Ok in Hexport as (registrationId & w0 & H0 & Hexport).
  apply readonly_meta_number in H0 as ->.
  apply bind_Ok in Hexport as (localId & w0 & H0 & Hexport).
  apply readonly_getLocalId in H0 as ->.
  destruct localId as [localId|]; [|done]. destruct registrationId as [registration|]; [|done].
  case_bool_decide; [done|].
  apply bind_Ok in Hexport as (deviceId & w0 & H0 & Hexport).
  apply readonly_getDeviceId in H0 as ->.
  apply bind_Ok in Hexport as (signedCounter & w0 & H0 & Hexport).
  apply readonly_get_number in H0 as ->.
  apply bind_Ok in Hexport as (preKeyCounter & w0 & H0 & Hexport).
  apply readonly_get_number in H0 as ->.
  apply bind_Ok in Hexport as (kyberCounter & w0 & H0 & Hexport).
  apply readonly_get_number in H0 as ->.
  apply bind_Ok in Hexport as (signedPreKey & w0 & H0 & Hexport).
  apply readonly_material in H0 as ->.
  apply bind_Ok in Hexport as (preKey & w0 & HpreKey & Hexport).
  pose proof (readonly_material _ _ _ _ _ HpreKey) as ->.
  apply bind_Ok in Hexport as (kyberPreKey & w0 & H0 & Hexport).
  apply readonly_material in H0 as ->.
  injection Hexport as <-. by exists preKey.
Qed.


(** X24. Two calls of [generatePreKeys] do not overlap: after
    [generatePreKeys(m)] and then [generatePreKeys(n)], with [m] and [n]
    at least 1, the one-time prekeys [first .. first + m + n - 1] are
    all stored, those of the first call unchanged by the second, and the
    counter stands at [first + m + n]; the signed and the post-quantum
    prekey of the first call are still stored beside those of the second
    (nothing rotates them out). *)
Theorem generatePreKeys_twice (w : World) (m n : nat) (identityKeyPair : IdentityKeyPair)
    (preKeyCounter signedCounter kyberCounter : option Z) :
  (1 ≤ m)%nat → (1 ≤ n)%nat →
  loadIdentityKeyPair w = Ok (identityKeyPair, w) →
  get_number COUNTER_PREKEY w = Ok (preKeyCounter, w) →
  get_number COUNTER_SIGNED_PREKEY w = Ok (signedCounter, w) →
  get_number COUNTER_KYBER_PREKEY w = Ok (kyberCounter, w) →
  let first := default 1 preKeyCounter in
  let signedId := default 1 signedCounter in
  let kyberId := default 1 kyberCounter in
  ∃ w1 w2,
    generatePreKeys m w = Ok (tt, w1) ∧
    generatePreKeys n w1 = Ok (tt, w2) ∧
    (∀ i : nat, (i < m + n)%nat →
       ∃ record, getPreKey (first + Z.of_nat i) w2 = Ok (record, w2) ∧
                 pre_id record = first + Z.of_nat i) ∧
    (∀ i : nat, (i < m)%nat →
       getPreKey (first + Z.of_nat i) w2 = rebase w2 (getPreKey (first + Z.of_nat i) w1)) ∧
    get_number COUNTER_PREKEY w2 = Ok (Some (first + Z.of_nat m + Z.of_nat n), w2) ∧
    (∃ old new, getSignedPreKey signedId w2 = Ok (old, w2) ∧
                getSignedPreKey (signedId + 1) w2 = Ok (new, w2)) ∧
    (∃ old new, getKyberPreKey kyberId w2 = Ok (old, w2) ∧
                getKyberPreKey (kyberId + 1) w2 = Ok (new, w2)).
Proof.
  intros Hm Hn Hload Hpre Hsigned Hkyber first signedId kyberId.
  set (w1 := generated m identityKeyPair first signedId kyberId w).
  set (w2 := generated n identityKeyPair (first + Z.of_nat m) (signedId + 1) (kyberId + 1) w1).
  assert (Hload1 : loadIdentityKeyPair w1 = Ok (identityKeyPair, w1)).
  { rewrite (loadIdentityKeyPair_frame w), Hload; [done|]. apply generated_identity. }
  assert (Hpre1 : get_number COUNTER_PREKEY w1 = Ok (Some (first + Z.of_nat m), w1)).
  { apply get_number_stored, generated_prekey_counter. lia. }
  assert (Hsigned1 : get_number COUNTER_SIGNED_PREKEY w1 = Ok (Some (signedId + 1), w1))
    by apply get_number_stored, generated_signed_counter.
  assert (Hkyber1 : get_number COUNTER_KYBER_PREKEY w1 = Ok (Some (kyberId + 1), w1))
    by apply get_number_stored, generated_kyber_counter.
  assert (Hframe : ∀ k,
            k ∉ [COUNTER_PREKEY; COUNTER_SIGNED_PREKEY; COUNTER_KYBER_PREKEY;
                 signedprekey_key (signedId + 1); kyberprekey_key (kyberId + 1)] →
            (∀ j : nat, (j < n)%nat → k ≠ prekey_key (first + Z.of_nat m + Z.of_nat j)) →
            get (store w2) k = get (store w1) k).
  { intros k Hk Hids. apply get_same; [apply generated_key|]. by apply generated_kv. }
  assert (Hold : ∀ i : nat, (i < m)%nat →
            get (store w2) (prekey_key (first + Z.of_nat i)) =
            get (store w1) (prekey_key (first + Z.of_nat i))).
  { intros i Hi. apply Hframe.
    - rewrite !not_elem_of_cons. split_and!; try other_family. apply not_elem_of_nil.
    - intros j Hj Heq%prekey_key_inj. lia. }
  exists w1, w2. split_and!.
  - by apply generatePreKeys_run.
  - by apply (generatePreKeys_run n w1 identityKeyPair (Some (first + Z.of_nat m))
                (Some (signedId + 1)) (Some (kyberId + 1))).
  - intros i Hi. destruct (decide (i < m)%nat) as [Hlt|Hge].
    + eexists. split; [eapply getPreKey_stored|].
      * rewrite Hold by done. by apply generated_prekeys.
      * done.
    + eexists. split; [eapply getPreKey_stored|].
      * replace (first + Z.of_nat i) with (first + Z.of_nat m + Z.of_nat (i - m)) by lia.
        apply generated_prekeys. lia.
      * simpl. lia.
  - intros i Hi. by apply getPreKey_frame, Hold.
  - apply get_number_stored, generated_prekey_counter. lia.
  - eexists _, _. split; eapply getSignedPreKey_stored; [|apply generated_signed].
    rewrite Hframe; [apply generated_signed| |intros j _; other_family].
    rewrite !not_elem_of_cons. split_and!; try other_family; [|apply not_elem_of_nil].
    intros Heq%signedprekey_key_inj. lia.
  - eexists _, _. split; eapply getKyberPreKey_stored; [|apply generated_kyber].
    rewrite Hframe; [apply generated_kyber| |intros j _; other_family].
    rewrite !not_elem_of_cons. split_and!; try other_family; [|apply not_elem_of_nil].
    intros Heq%kyberprekey_key_inj. lia.
Qed.


(** X25. [generatePreKeys(0)] makes no one-time prekey: it returns, the
    counter of the one-time prekeys and every stored one-time prekey are
    as before, and still a signed and a post-quantum prekey are made and
    their counters stepped; a bundle exported afterwards names the
    one-time prekey of an earlier call, if there is one. *)
Theorem generatePreKeys_of_none (w : World) (identityKeyPair : IdentityKeyPair)
    (preKeyCounter signedCounter kyberCounter : option Z) :
  loadIdentityKeyPair w = Ok (identityKeyPair, w) →
  get_number COUNTER_PREKEY w = Ok (preKeyCounter, w) →
  get_number COUNTER_SIGNED_PREKEY w = Ok (signedCounter, w) →
  get_number COUNTER_KYBER_PREKEY w = Ok (kyberCounter, w) →
  ∃ w' signed kyber,
    generatePreKeys 0 w = Ok (tt, w') ∧
    get_number COUNTER_PREKEY w' = Ok (preKeyCounter, w') ∧
    (∀ id, getPreKey id w' = rebase w' (getPreKey id w)) ∧
    getSignedPreKey (default 1 signedCounter) w' = Ok (signed, w') ∧
    get_number COUNTER_SIGNED_PREKEY w' = Ok (Some (default 1 signedCounter + 1), w') ∧
    getKyberPreKey (default 1 kyberCounter) w' = Ok (kyber, w') ∧
    get_number COUNTER_KYBER_PREKEY w' = Ok (Some (default 1 kyberCounter + 1), w').
Proof.
  intros Hload Hpre Hsigned Hkyber.
  set (w' := generated 0 identityKeyPair (default 1 preKeyCounter) (default 1 signedCounter)
               (default 1 kyberCounter) w).
  assert (Hframe : ∀ k, k ≠ COUNTER_SIGNED_PREKEY → k ≠ COUNTER_KYBER_PREKEY →
            k ≠ signedprekey_key (default 1 signedCounter) →
            k ≠ kyberprekey_key (default 1 kyberCounter) →
            get (store w') k = get (store w) k).
  { intros k H1 H2 H3 H4. unfold w'.
    rewrite kyber_step_after_signed_step, issue_get by done.
    by rewrite signed_step_after_loop, issue_get by done. }
  eexists w', _, _. split_and!.
  - by apply generatePreKeys_run.
  - rewrite (get_number_frame _ w), Hpre; [done|]. apply Hframe; other_family.
  - intros id. apply getPreKey_frame, Hframe; other_family.
  - eapply getSignedPreKey_stored, generated_signed.
  - apply get_number_stored, generated_signed_counter.
  - eapply getKyberPreKey_stored, generated_kyber.
  - apply get_number_stored, generated_kyber_counter.
Qed.




(** *** [loadEnvelope] (packages/shared/src/envelope.ts) *)

(** The object an envelope is as JSON. *)
Definition Envelope_fields (e : Wire.Envelope) : list (string * json) :=
  [("version", JNum (Wire.version e));
   ("senderId", JStr (Wire.senderId e));
   ("recipientId", JStr (Wire.recipientId e));
   ("sessionId", JStr (Wire.sessionId e));
   ("type", JNum (Wire.type e));
   ("body", JStr (Wire.body e));
   ("timestamp", JNum (Wire.timestamp e))].

Definition Envelope_to_json (e : Wire.Envelope) : json := JObj (Envelope_fields e).

(** [EnvelopeSchema.parse(input)] on a parsed JSON value ([None]: it
    throws a [ZodError]): the input must be an object (not an array, not
    [null]) with the seven fields of their types and ranges; fields the
    schema does not name are dropped. *)
Definition parseEnvelope (input : json) : option Wire.Envelope :=
  match input with
  | JObj fields =>
      match property "version" fields, property "senderId" fields,
            property "recipientId" fields, property "sessionId" fields,
            property "type" fields, property "body" fields, property "timestamp" fields with
      | Some (JNum version), Some (JStr senderId), Some (JStr recipientId),
        Some (JStr sessionId), Some (JNum type), Some (JStr body), Some (JNum timestamp) =>
          let e := Wire.mkEnvelope version senderId recipientId sessionId type body timestamp in
          if Wire.EnvelopeSchema e then Some e else None
      | _, _, _, _, _, _, _ => None
      end
  | _ => None
  end.

(** [loadEnvelope]. *)
Definition loadEnvelope (input : json) : option Wire.Envelope := parseEnvelope input.

Lemma parseEnvelope_to_json e :
  parseEnvelope (Envelope_to_json e) = if Wire.EnvelopeSchema e then Some e else None.
Proof. by destruct e. Qed.

(** X28. [loadEnvelope] accepts the JSON object of an envelope exactly
    when the envelope passes [EnvelopeSchema] and then returns that
    envelope; whatever it returns passes the schema; fields beyond the
    seven are ignored and dropped; an input that is not an object, or an
    object that lacks a field, is refused. *)
Theorem loadEnvelope_validates (e : Wire.Envelope) (more : list (string * json)) :
  (Wire.EnvelopeSchema e = true → loadEnvelope (Envelope_to_json e) = Some e) ∧
  (Wire.EnvelopeSchema e = false → loadEnvelope (Envelope_to_json e) = None) ∧
  (∀ input e', loadEnvelope input = Some e' → Wire.EnvelopeSchema e' = true) ∧
  loadEnvelope (JObj (Envelope_fields e ++ more)) = loadEnvelope (Envelope_to_json e) ∧
  loadEnvelope JNull = None ∧
  (∀ items, loadEnvelope (JArr items) = None) ∧
  (∀ text, loadEnvelope (JStr text) = None) ∧
  loadEnvelope (JObj []) = None.
Proof.
  unfold loadEnvelope. split_and!; try done.
  - intros Hvalid. by rewrite parseEnvelope_to_json, Hvalid.
  - intros Hinvalid. by rewrite parseEnvelope_to_json, Hinvalid.
  - intros input e'. unfold parseEnvelope. destruct input; try done.
    repeat (case_match; try done). by intros [= <-].
Qed.


(** *** The inbox *)

(** [type InboxMessage]. *)
Record InboxMessage := mkInboxMessage {
  inbox_id : string;
  inbox_senderId : string;
  inbox_timestamp : Z;
  inbox_plaintext : string;
  inbox_envelope : Wire.Envelope
}.

Definition Envelope_to_value (e : Wire.Envelope) : value :=
  VObj [("version", VNum (Wire.version e));
        ("senderId", VStr (Wire.senderId e));
        ("recipientId", VStr (Wire.recipientId e));
        ("sessionId", VStr (Wire.sessionId e));
        ("type", VNum (Wire.type e));
        ("body", VStr (Wire.body e));
        ("timestamp", VNum (Wire.timestamp e))].

Definition InboxMessage_to_value (m : InboxMessage) : value :=
  VObj [("id", VStr (inbox_id m));
        ("senderId", VStr (inbox_senderId m));
        ("timestamp", VNum (inbox_timestamp m));
        ("plaintext", VStr (inbox_plaintext m));
        ("envelope", Envelope_to_value (inbox_envelope m))].

Definition INBOX_PREFIX : string := "inbox:".

(** [saveInboxMessage]. *)
Definition saveInboxMessage (m : InboxMessage) : M unit :=
  store_set (INBOX_PREFIX +:+ inbox_id m) (InboxMessage_to_value m).

(** The loop of [listInboxMessages]: [get] each key, keep what is
    truthy. What is read is taken for a message without a check. *)
Fixpoint collect (keys : list string) : M (list value) :=
  match keys with
  | [] => ret []
  | k :: rest =>
      msg ← store_get k;
      msgs ← collect rest;
      ret (match msg with
           | Some v => if truthy v then v :: msgs else msgs
           | None => msgs
           end)
  end.

(** [a.timestamp], when it is a number. *)
Definition timestamp_of (v : value) : option Z :=
  match v with
  | VObj fields =>
      match property "timestamp" fields with
      | Some (VNum n) => Some n
      | _ => None
      end
  | _ => None
  end.

Definition with_timestamps (msgs : list value) : option (list (Z * value)) :=
  mapM (λ v, (λ t, (t, v)) <$> timestamp_of v) msgs.

(** [messages.sort((a, b) => a.timestamp - b.timestamp)]: the sort is
    stable. *)
Fixpoint insert_by_timestamp (x : Z * value) (l : list (Z * value)) : list (Z * value) :=
  match l with
  | [] => [x]
  | y :: l' => if x.1 <=? y.1 then x :: l else y :: insert_by_timestamp x l'
  end.

Definition sort_by_timestamp (l : list (Z * value)) : list (Z * value) :=
  foldr insert_by_timestamp [] l.

(** [listInboxMessages]. With fewer than two messages the comparator
    is never called. When some message has no number as [timestamp], the
    comparator gives [NaN] and is not a consistent order; the result of
    [sort] is then left to the engine, and no list is given for it
    here. *)
Definition listInboxMessages : M (list value) :=
  λ w,
    (msgs ← collect (listKeysByPrefix (store w) INBOX_PREFIX);
     match msgs with
     | [] | [_] => ret msgs
     | _ =>
         match with_timestamps msgs with
         | Some keyed => ret (sort_by_timestamp keyed).*2
         | None => throw (LibraryError "sort: the comparator is not a consistent order")
         end
     end) w.

Definition timestamp_le (a b : value) : Prop :=
  ∀ ta tb, timestamp_of a = Some ta → timestamp_of b = Some tb → ta ≤ tb.

Lemma readonly_collect keys : readonly (collect keys).
Proof.
  induction keys as [|k rest IH]; [apply readonly_ret|].
  apply readonly_bind; [apply readonly_store_get|]. intros msg.
  apply readonly_bind; [apply IH|]. intros msgs. apply readonly_ret.
Qed.

Lemma collect_elem_of keys w msgs v :
  collect keys w = Ok (msgs, w) →
  v ∈ msgs ↔ ∃ k, k ∈ keys ∧ get (store w) k = Ok (Some v) ∧ truthy v = true.
Proof.
  revert msgs. induction keys as [|k rest IH]; intros msgs Hrun.
  - injection Hrun as <-. rewrite elem_of_nil. split; [done|].
    by intros (k & ?%elem_of_nil & _).
  - simpl in Hrun. apply bind_Ok in Hrun as (msg & w0 & Hget & Hrun).
    pose proof (readonly_store_get _ _ _ _ Hget) as ->.
    apply bind_Ok in Hrun as (rest_msgs & w0 & Hrest & Hret).
    pose proof (readonly_collect _ _ _ _ Hrest) as ->.
    injection Hret as <-. specialize (IH _ Hrest).
    unfold store_get, lift in Hget.
    destruct (get (store w) k) as [stored|] eqn:Hk; [|done]. injection Hget as ->.
    assert (Hhead : v ∈ (match msg with
                         | Some v' => if truthy v' then v' :: rest_msgs else rest_msgs
                         | None => rest_msgs
                         end) ↔ (msg = Some v ∧ truthy v = true) ∨ v ∈ rest_msgs).
    { destruct msg as [v'|].
      - destruct (truthy v') eqn:Htruthy.
        + rewrite elem_of_cons. split.
          * intros [->|Hin]; [by left|by right].
          * intros [[[= ->] _]|Hin]; [by left|by right].
        + split; [by right|]. intros [[[= ->] Htrue]|Hin]; [congruence|done].
      - split; [by right|]. by intros [[? _]|?]. }
    rewrite Hhead, IH. split.
    + intros [[-> Htruthy]|(k' & Hk' & Hget' & Htruthy)].
      * exists k. split_and!; [by left|done..].
      * exists k'. split_and!; [by right|done..].
    + intros (k' & [->|Hk']%elem_of_cons & Hget' & Htruthy).
      * left. split; [congruence|done].
      * right. by exists k'.
Qed.


Lemma insert_by_timestamp_perm x l : insert_by_timestamp x l ≡ₚ x :: l.
Proof.
  induction l as [|y l IH]; simpl; [done|].
  destruct (x.1 <=? y.1); [done|]. rewrite IH. apply Permutation_swap.
Qed.

Lemma sort_by_timestamp_perm l : sort_by_timestamp l ≡ₚ l.
Proof.
  induction l as [|x l IH]; simpl; [done|]. by rewrite insert_by_timestamp_perm, IH.
Qed.

Lemma insert_by_timestamp_sorted x l :
  StronglySorted (λ a b : Z * value, a.1 ≤ b.1) l →
  StronglySorted (λ a b : Z * value, a.1 ≤ b.1) (insert_by_timestamp x l).
Proof.
  induction 1 as [|y l Hsorted IH Hall]; simpl.
  - by repeat constructor.
  - destruct (x.1 <=? y.1) eqn:Hle.
    + apply Z.leb_le in Hle. constructor; [by constructor|].
      constructor; [done|]. eapply Forall_impl; [exact Hall|]. intros z Hz. simpl in *. lia.
    + apply Z.leb_gt in Hle. constructor; [done|].
      rewrite insert_by_timestamp_perm. constructor; [lia|done].
Qed.

Lemma sort_by_timestamp_sorted l :
  StronglySorted (λ a b : Z * value, a.1 ≤ b.1) (sort_by_timestamp l).
Proof.
  induction l as [|x l IH]; simpl; [constructor|]. by apply insert_by_timestamp_sorted.
Qed.

Lemma with_timestamps_Some msgs keyed :
  with_timestamps msgs = Some keyed →
  keyed.*2 = msgs ∧ Forall (λ p, timestamp_of p.2 = Some p.1) keyed.
Proof.
  unfold with_timestamps. intros Hall%mapM_Some.
  induction Hall as [|v p msgs keyed Hp Hall [IH1 IH2]]; [done|].
  destruct (timestamp_of v) as [t|] eqn:Ht; [|done]. injection Hp as <-.
  split; [by rewrite fmap_cons, IH1|by constructor].
Qed.

Lemma sorted_by_their_timestamps (l : list (Z * value)) :
  StronglySorted (λ a b : Z * value, a.1 ≤ b.1) l →
  Forall (λ p, timestamp_of p.2 = Some p.1) l →
  StronglySorted timestamp_le l.*2.
Proof.
  induction 1 as [|x l Hsorted IH Hall]; intros Hkeys; simpl; [constructor|].
  apply Forall_cons in Hkeys as [Hx Hkeys]. constructor; [by apply IH|].
  apply Forall_fmap, Forall_forall. intros y Hy.
  rewrite Forall_forall in Hall, Hkeys. specialize (Hall y Hy). specialize (Hkeys y Hy).
  intros ta tb Ha Hb. simpl in *. rewrite Hx in Ha. rewrite Hkeys in Hb.
  injection Ha as <-. by injection Hb as <-.
Qed.

(** X29. What [listInboxMessages] returns: it changes nothing; the
    list holds exactly the truthy values stored under the keys that
    [listKeysByPrefix("inbox:")] lists; it is in the order of the
    timestamps; and a message that [saveInboxMessage] stored, and that
    is still stored, is in it. Saving a second message with the same id
    replaces the first. *)
Theorem inbox_is_listed_by_time (w w' : World) (msgs : list value) :
  listInboxMessages w = Ok (msgs, w') →
  w' = w ∧
  StronglySorted timestamp_le msgs ∧
  (∀ v, v ∈ msgs ↔
        ∃ k, k ∈ listKeysByPrefix (store w) INBOX_PREFIX ∧
             get (store w) k = Ok (Some v) ∧ truthy v = true) ∧
  (∀ m, get (store w) (INBOX_PREFIX +:+ inbox_id m) = Ok (Some (InboxMessage_to_value m)) →
        InboxMessage_to_value m ∈ msgs) ∧
  (∀ m m' w0,
     inbox_id m' = inbox_id m →
     let w1 := put (INBOX_PREFIX +:+ inbox_id m) (InboxMessage_to_value m) w0 in
     let w2 := put (INBOX_PREFIX +:+ inbox_id m') (InboxMessage_to_value m') w1 in
     saveInboxMessage m w0 = Ok (tt, w1) ∧
     get (store w1) (INBOX_PREFIX +:+ inbox_id m) = Ok (Some (InboxMessage_to_value m)) ∧
     get (store w2) (INBOX_PREFIX +:+ inbox_id m) = Ok (Some (InboxMessage_to_value m'))).
Proof.
  unfold listInboxMessages. intros (collected & w0 & Hcollect & Hsort)%bind_Ok.
  pose proof (readonly_collect _ _ _ _ Hcollect) as ->.
  assert (Hin : ∀ v, v ∈ collected ↔
            ∃ k, k ∈ listKeysByPrefix (store w) INBOX_PREFIX ∧
                 get (store w) k = Ok (Some v) ∧ truthy v = true).
  { intros v. by apply collect_elem_of. }
  assert (Hresult : w' = w ∧ StronglySorted timestamp_le msgs ∧ msgs ≡ₚ collected).
  { destruct collected as [|v1 [|v2 rest]].
    - injection Hsort as <- <-. split_and!; [done|constructor|done].
    - injection Hsort as <- <-. split_and!; [done|by repeat constructor|done].
    - destruct (with_timestamps (v1 :: v2 :: rest)) as [keyed|] eqn:Hkeyed; [|done].
      injection Hsort as <- <-.
      destruct (with_timestamps_Some _ _ Hkeyed) as [Hvalues Hkeys].
      split_and!; [done| |].
      + apply sorted_by_their_timestamps; [apply sort_by_timestamp_sorted|].
        by rewrite sort_by_timestamp_perm.
      + by rewrite sort_by_timestamp_perm, Hvalues. }
  destruct Hresult as (-> & Hsorted & Hperm).
  assert (Hin' : ∀ v, v ∈ msgs ↔
            ∃ k, k ∈ listKeysByPrefix (store w) INBOX_PREFIX ∧
                 get (store w) k = Ok (Some v) ∧ truthy v = true).
  { intros v. by rewrite Hperm. }
  split_and!; [done..| |].
  - intros m Hget. apply Hin'. exists (INBOX_PREFIX +:+ inbox_id m).
    split_and!; [|done..]. apply listKeysByPrefix_prefix.
    unfold get in Hget. by destruct (kv (db (store w)) !! _).
  - intros m m' w0 Hid. split_and!.
    + reflexivity.
    + by rewrite get_put_eq.
    + rewrite Hid. by rewrite get_put_eq.
Qed.


End WithLibrary.

(** *** A reference library

    A library with short keys, whose codecs go through the enumeration
    of the type: enough to run the functions above on a concrete store. *)

Fixpoint pos_to_bytes (p : positive) : bytes :=
  match p with
  | xH => []
  | xO q => x00 :: pos_to_bytes q
  | xI q => x01 :: pos_to_bytes q
  end.

Fixpoint bytes_to_pos (data : bytes) : positive :=
  match data with
  | [] => xH
  | b :: rest => if decide (b = x01) then xI (bytes_to_pos rest) else xO (bytes_to_pos rest)
  end.

Lemma bytes_to_pos_to_bytes p : bytes_to_pos (pos_to_bytes p) = p.
Proof. induction p as [q IH|q IH|]; simpl; by rewrite ?IH. Qed.

Program Definition countable_codec `{Countable A} : Codec A := {|
  serialize a := pos_to_bytes (encode a);
  deserialize data := decode (bytes_to_pos data)
|}.
Next Obligation. intros. simpl. by rewrite bytes_to_pos_to_bytes, decode_encode. Qed.

Global Instance byte_countable : Countable byte :=
  inj_countable Byte.to_N Byte.of_N Byte.of_to_N.

Global Instance PrivateKey_eq_dec : EqDecision PrivateKey.
Proof. solve_decision. Defined.
Global Instance PublicKey_eq_dec : EqDecision PublicKey.
Proof. solve_decision. Defined.
Global Instance KEMPublicKey_eq_dec : EqDecision KEMPublicKey.
Proof. solve_decision. Defined.
Global Instance KEMKeyPair_eq_dec : EqDecision KEMKeyPair.
Proof. solve_decision. Defined.
Global Instance IdentityKeyPair_eq_dec : EqDecision IdentityKeyPair.
Proof. solve_decision. Defined.
Global Instance PreKeyRecord_eq_dec : EqDecision PreKeyRecord.
Proof. solve_decision. Defined.
Global Instance SignedPreKeyRecord_eq_dec : EqDecision SignedPreKeyRecord.
Proof. solve_decision. Defined.
Global Instance KyberPreKeyRecord_eq_dec : EqDecision KyberPreKeyRecord.
Proof. solve_decision. Defined.
Global Instance SessionRecord_eq_dec : EqDecision SessionRecord.
Proof. solve_decision. Defined.

Global Instance PrivateKey_countable : Countable PrivateKey :=
  inj_countable' private_bytes mkPrivateKey (λ x, match x with mkPrivateKey _ => eq_refl end).
Global Instance PublicKey_countable : Countable PublicKey :=
  inj_countable' public_bytes mkPublicKey (λ x, match x with mkPublicKey _ => eq_refl end).
Global Instance KEMPublicKey_countable : Countable KEMPublicKey :=
  inj_countable' kem_public_bytes mkKEMPublicKey (λ x, match x with mkKEMPublicKey _ => eq_refl end).
Global Instance SessionRecord_countable : Countable SessionRecord :=
  inj_countable' session_bytes mkSessionRecord (λ x, match x with mkSessionRecord _ => eq_refl end).
Global Instance KEMKeyPair_countable : Countable KEMKeyPair :=
  inj_countable' (λ x, (kem_publicKey x, kem_secretKey x)) (λ t, mkKEMKeyPair t.1 t.2)
    (λ x, match x with mkKEMKeyPair _ _ => eq_refl end).
Global Instance IdentityKeyPair_countable : Countable IdentityKeyPair :=
  inj_countable' (λ x, (publicKey x, privateKey x)) (λ t, mkIdentityKeyPair t.1 t.2)
    (λ x, match x with mkIdentityKeyPair _ _ => eq_refl end).
Global Instance PreKeyRecord_countable : Countable PreKeyRecord :=
  inj_countable' (λ x, (pre_id x, pre_publicKey x, pre_privateKey x))
    (λ t, mkPreKeyRecord t.1.1 t.1.2 t.2)
    (λ x, match x with mkPreKeyRecord _ _ _ => eq_refl end).
Global Instance SignedPreKeyRecord_countable : Countable SignedPreKeyRecord :=
  inj_countable'
    (λ x, (signed_id x, signed_timestamp x, signed_publicKey x, signed_privateKey x,
           signed_signature x))
    (λ t, mkSignedPreKeyRecord t.1.1.1.1 t.1.1.1.2 t.1.1.2 t.1.2 t.2)
    (λ x, match x with mkSignedPreKeyRecord _ _ _ _ _ => eq_refl end).
Global Instance KyberPreKeyRecord_countable : Countable KyberPreKeyRecord :=
  inj_countable' (λ x, (kyber_id x, kyber_timestamp x, kyber_keyPair x, kyber_signature x))
    (λ t, mkKyberPreKeyRecord t.1.1.1 t.1.1.2 t.1.2 t.2)
    (λ x, match x with mkKyberPreKeyRecord _ _ _ _ => eq_refl end).

Definition reference_libsignal : Libsignal := {|
  PublicKey_codec := countable_codec;
  KEMPublicKey_codec := countable_codec;
  IdentityKeyPair_codec := countable_codec;
  PreKeyRecord_codec := countable_codec;
  SignedPreKeyRecord_codec := countable_codec;
  KyberPreKeyRecord_codec := countable_codec;
  SessionRecord_codec := countable_codec;
  PrivateKey_generate random := mkPrivateKey (take 2 random);
  getPublicKey k := mkPublicKey (rev (private_bytes k));
  sign k message nonce := take 2 (private_bytes k ++ message);
  KEMKeyPair_generate random := mkKEMKeyPair (mkKEMPublicKey (take 2 random)) (take 2 (drop 2 random));
  IdentityKeyPair_generate random :=
    mkIdentityKeyPair (mkPublicKey (rev (take 2 random))) (mkPrivateKey (take 2 random));
  establish ourKey ourRegistrationId bundle existing random :=
    Some (mkSessionRecord (take 2 random));
  session_encrypt session message :=
    Some (session, mkCiphertextMessage CiphertextMessageType_Whisper (session_bytes session ++ message));
  session_decrypt session message := Some (session, drop (length (session_bytes session)) message);
  PreKeySignalMessage_ids message := None;
  session_decrypt_prekey existing ourKey signedPreKey kyberPreKey preKey message := None
|}.


(** *** Two stores to run on *)

#[local] Existing Instance reference_runtime.
#[local] Existing Instance reference_libsignal.

Definition some_entropy (k i : nat) : byte :=
  default x00 (Byte.of_N (N.of_nat ((7 * k + i) mod 256))).

Definition fresh : World := mkWorld a_store some_entropy 0 1700000000000.

Definition after {A} (m : M A) (w : World) : World :=
  match m w with
  | Ok (_, w') => w'
  | Err _ => w
  end.

(** Alice, after [mega init]. *)
Definition alice : World := after (initializeIdentity "alice" 1) fresh.

Definition alice_pair : IdentityKeyPair :=
  mkIdentityKeyPair (mkPublicKey [x08; x07]) (mkPrivateKey [x07; x08]).

(** Bob's bundle, of a second device. *)
Definition bob : World := after (initializeIdentity "bob" 2;; generatePreKeys 1) fresh.

Definition bob_bundle : Wire.Bundle :=
  match exportBundle bob with
  | Ok (bundle, _) => bundle
  | Err _ =>
      Wire.mkBundle EmptyString 0 0 EmptyString
        (Wire.mkSignedPreKeyPart 0 EmptyString EmptyString)
        (Wire.mkPreKeyPart 0 EmptyString)
        (Wire.mkKyberPreKeyPart 0 EmptyString EmptyString)
  end.

Lemma generatePreKeys_allocates_witness :
  ∃ w',
    generatePreKeys 2 alice = Ok (tt, w') ∧
    get_number COUNTER_PREKEY w' = Ok (Some 3, w') ∧
    getPreKey 2 w' = Ok (oneTimePreKey 2 (drawn alice (draws alice + 3 * 1 + 1) 32), w').
Proof.
  destruct (generatePreKeys_allocates alice 2 alice_pair None None None)
    as (w' & signed & kyber & Hrun & Hkeys & Hcounter & _).
  - lia.
  - vm_compute. reflexivity.
  - vm_compute. reflexivity.
  - vm_compute. reflexivity.
  - vm_compute. reflexivity.
  - exists w'. split_and!; [exact Hrun|exact Hcounter|]. apply (Hkeys 1%nat). lia.
Defined.

Lemma exportBundle_latest_witness :
  ∃ w' bundle,
    generatePreKeys 2 alice = Ok (tt, w') ∧
    exportBundle w' = Ok (bundle, w') ∧
    Wire.id bundle = "alice" ∧
    Wire.pk_keyId (Wire.preKey bundle) = 2 ∧
    Wire.spk_keyId (Wire.signedPreKey bundle) = 1 ∧
    Wire.kpk_keyId (Wire.kyberPreKey bundle) = 1.
Proof.
  destruct (exportBundle_latest alice 2 alice_pair None None None "alice" 11730 1)
    as [(w' & bundle & preKey & signedPreKey & kyberPreKey & Hrun & Hexport & _ & _ & _ & ->) _].
  - lia.
  - vm_compute. reflexivity.
  - vm_compute. reflexivity.
  - vm_compute. reflexivity.
  - vm_compute. reflexivity.
  - vm_compute. reflexivity.
  - discriminate.
  - vm_compute. reflexivity.
  - vm_compute. reflexivity.
  - eexists w', _. split_and!; [exact Hrun|exact Hexport|reflexivity..].
Defined.

Lemma ciphers_address_device_1_witness :
  Wire.id bob_bundle = "bob" ∧
  Wire.deviceId bob_bundle = 2 ∧
  (∃ session, getSession (mkProtocolAddress "bob" 2) (after (initSession bob_bundle) alice) =
              Ok (Some session, after (initSession bob_bundle) alice)) ∧
  encryptMessage "bob" "hello" (after (initSession bob_bundle) alice) =
  Err (SessionNotFound "bob.1").
Proof.
  split; [vm_compute; reflexivity|]. split; [vm_compute; reflexivity|].
  destruct (ciphers_address_device_1 alice (after (initSession bob_bundle) alice) bob_bundle)
    as (Hsession & _ & _ & _ & Hencrypt & _).
  - vm_compute. discriminate.
  - vm_compute. reflexivity.
  - split; [exact Hsession|]. apply Hencrypt. vm_compute. reflexivity.
Defined.

Lemma identity_is_trusted_on_first_use_witness :
  let a := mkProtocolAddress "bob" 1 in
  let k := mkPublicKey [x01] in
  let k' := mkPublicKey [x02] in
  let w1 := put (identity_key a) (VBin Uint8ArrayK (serialize k)) fresh in
  get (store fresh) (identity_key a) = Ok None ∧
  isTrustedIdentity a k fresh = Ok (true, fresh) ∧
  isTrustedIdentity a k' w1 = Ok (false, w1).
Proof.
  intros a k k' w1.
  assert (Hnone : get (store fresh) (identity_key a) = Ok None) by (vm_compute; reflexivity).
  destruct (identity_is_trusted_on_first_use fresh a k k' Hnone) as (Hfirst & _ & Hother & _).
  split; [exact Hnone|]. split; [exact Hfirst|exact Hother].
Defined.

Lemma first_bundle_after_init_witness :
  ∃ w', initializeIdentity "alice" 1 fresh = Ok (tt, w') ∧
        exportBundle w' = Err (MaterialNotFound "SignedPreKey" 1).
Proof.
  destruct (first_bundle_after_init fresh "alice" 1)
    as (w' & w'' & bundle & registrationId & Hinit & Hfails & _).
  - discriminate.
  - intros k _. apply lookup_empty.
  - exists w'. split; [exact Hinit|exact Hfails].
Defined.

Lemma exportBundle_hands_out_the_same_prekey_witness :
  exportBundle bob = Ok (bob_bundle, bob) ∧
  ∃ preKey, getPreKey 1 bob = Ok (preKey, bob).
Proof.
  assert (Hexport : exportBundle bob = Ok (bob_bundle, bob)) by (vm_compute; reflexivity).
  destruct (exportBundle_hands_out_the_same_prekey bob bob bob_bundle Hexport)
    as (_ & Hagain & preKey & HpreKey & _).
  split; [exact Hagain|]. exists preKey. exact HpreKey.
Defined.

Lemma generatePreKeys_twice_witness :
  ∃ w1 w2,
    generatePreKeys 1 alice = Ok (tt, w1) ∧
    generatePreKeys 2 w1 = Ok (tt, w2) ∧
    get_number COUNTER_PREKEY w2 = Ok (Some 4, w2).
Proof.
  destruct (generatePreKeys_twice alice 1 2 alice_pair None None None)
    as (w1 & w2 & H1 & H2 & _ & _ & Hcounter & _).
  - lia.
  - lia.
  - vm_compute. reflexivity.
  - vm_compute. reflexivity.
  - vm_compute. reflexivity.
  - vm_compute. reflexivity.
  - exists w1, w2. split_and!; [exact H1|exact H2|exact Hcounter].
Defined.

Lemma generatePreKeys_of_none_witness :
  ∃ w', generatePreKeys 0 alice = Ok (tt, w') ∧
        get_number COUNTER_PREKEY w' = Ok (None, w') ∧
        get_number COUNTER_SIGNED_PREKEY w' = Ok (Some 2, w').
Proof.
  destruct (generatePreKeys_of_none alice alice_pair None None None)
    as (w' & signed & kyber & Hrun & Hpre & _ & _ & Hsigned & _).
  - vm_compute. reflexivity.
  - vm_compute. reflexivity.
  - vm_compute. reflexivity.
  - vm_compute. reflexivity.
  - exists w'. split_and!; [exact Hrun|exact Hpre|exact Hsigned].
Defined.




Definition note (id : string) (t : Z) : InboxMessage :=
  mkInboxMessage id "bob" t "hi" (Relay.hello t).

Lemma inbox_is_listed_by_time_witness :
  let w := after (saveInboxMessage (note "b" 2000);; saveInboxMessage (note "a" 1000)) fresh in
  let listed := [InboxMessage_to_value (note "a" 1000); InboxMessage_to_value (note "b" 2000)] in
  listInboxMessages w = Ok (listed, w) ∧ StronglySorted timestamp_le listed.
Proof.
  intros w listed.
  assert (Hrun : listInboxMessages w = Ok (listed, w)) by (vm_compute; reflexivity).
  destruct (inbox_is_listed_by_time w w listed Hrun) as (_ & Hsorted & _).
  split; [exact Hrun|exact Hsorted].
Defined.


End SignalCore.
